(** * Bank accounts conundrum: a shallow embedding of [bank_embedded_task/main.c]

    Two worker threads move a fixed amount between two global accounts,
    each transfer holding both account mutexes; the main thread is a
    deadline watchdog.  Balances are C [double]s, modelled by the kernel's
    binary64 floats; [long] and [int] values are integers with the
    wrap-around written out; the reason buffer is a [char[100]] array. *)

From Stdlib Require Import Floats ZArith List String Ascii DecimalString Lia Bool.
Import ListNotations.

Set Warnings "-inexact-float".
Open Scope Z_scope.

(** ** Data model *)

(** The three threads of the program: [t1], [t2] and the main thread. *)
Inductive tid := T1 | T2 | TMain.

Definition tid_eqb (a b : tid) : bool :=
  match a, b with
  | T1, T1 | T2, T2 | TMain, TMain => true
  | _, _ => false
  end.

(** [Account *]: the program only ever points at its two globals. *)
Inductive acct_ptr := Account1 | Account2.

(** [pthread_mutex_t *]: the address of the mutex field of an account. *)
Definition mutex_ptr := acct_ptr.

Definition ptr_eqb (p q : acct_ptr) : bool :=
  match p, q with
  | Account1, Account1 | Account2, Account2 => true
  | _, _ => false
  end.

(** [struct Account].  The mutex is modelled by its owner. *)
Record Account := mkAccount {
  balance : float;
  transfer_amount : float;
  successful_transfers : Z;
  mutex : option tid;
  id : Z
}.

(** What the program writes to standard output once the threads exist:
    the line of a successful transfer, holding the arguments of its
    [printf] in order, and the final results, holding the values the
    [printf] calls of lines 217-223 show; [main] makes these calls after
    it has joined both threads.  The prompts and the line that announces
    the start are printed before the threads exist and are not recorded. *)
Inductive output :=
| OutSuccess (src_id dst_id : Z) (amt : float) (bal_id : Z) (bal : float)
| OutFinal (bal1 bal2 : float) (n1 n2 : Z) (reason : string).

(** The globals of the program, with standard output and, as ghost state,
    the log of the mutex acquisitions in the order they happened. *)
Record globals := mkGlobals {
  account1 : Account;
  account2 : Account;
  is_terminated : Z;
  termination_reason : list ascii;
  transfer_period_ms : Z;
  deadline_sec : Z;
  stdout : list output;
  lock_log : list (tid * mutex_ptr)
}.

Definition LONG_MAX : Z := 2 ^ 63 - 1.
Definition LONG_MIN : Z := - 2 ^ 63.

(** Two's complement wrap-around of a [long]. *)
Definition long_wrap (z : Z) : Z := (z + 2 ^ 63) mod 2 ^ 64 - 2 ^ 63.

(** [*p] read and written. *)
Definition deref (p : acct_ptr) (g : globals) : Account :=
  match p with
  | Account1 => account1 g
  | Account2 => account2 g
  end.

Definition store (p : acct_ptr) (a : Account) (g : globals) : globals :=
  match p with
  | Account1 =>
      mkGlobals a (account2 g) (is_terminated g) (termination_reason g)
        (transfer_period_ms g) (deadline_sec g) (stdout g) (lock_log g)
  | Account2 =>
      mkGlobals (account1 g) a (is_terminated g) (termination_reason g)
        (transfer_period_ms g) (deadline_sec g) (stdout g) (lock_log g)
  end.

Definition set_balance (b : float) (a : Account) : Account :=
  mkAccount b (transfer_amount a) (successful_transfers a) (mutex a) (id a).

Definition set_successful_transfers (n : Z) (a : Account) : Account :=
  mkAccount (balance a) (transfer_amount a) n (mutex a) (id a).

Definition set_mutex (o : option tid) (a : Account) : Account :=
  mkAccount (balance a) (transfer_amount a) (successful_transfers a) o (id a).

Definition set_is_terminated (v : Z) (g : globals) : globals :=
  mkGlobals (account1 g) (account2 g) v (termination_reason g)
    (transfer_period_ms g) (deadline_sec g) (stdout g) (lock_log g).

Definition set_termination_reason (buf : list ascii) (g : globals) : globals :=
  mkGlobals (account1 g) (account2 g) (is_terminated g) buf
    (transfer_period_ms g) (deadline_sec g) (stdout g) (lock_log g).

Definition print (o : output) (g : globals) : globals :=
  mkGlobals (account1 g) (account2 g) (is_terminated g) (termination_reason g)
    (transfer_period_ms g) (deadline_sec g) (stdout g ++ [o]) (lock_log g).

Definition log_lock (t : tid) (m : mutex_ptr) (g : globals) : globals :=
  mkGlobals (account1 g) (account2 g) (is_terminated g) (termination_reason g)
    (transfer_period_ms g) (deadline_sec g) (stdout g) (lock_log g ++ [(t, m)]).

(** ** The reason buffer *)

Definition NUL : ascii := Ascii.zero.

(** [buf[i] = c]; the program never writes outside the array. *)
Fixpoint write_at (i : nat) (c : ascii) (buf : list ascii) : list ascii :=
  match buf, i with
  | [], _ => []
  | _ :: r, O => c :: r
  | x :: r, S j => x :: write_at j c r
  end.

(** The bytes [bytes] stored one after the other from index [i] on. *)
Fixpoint store_bytes (i : nat) (bytes : list ascii) (buf : list ascii) : list ascii :=
  match bytes with
  | [] => buf
  | c :: r => store_bytes (S i) r (write_at i c buf)
  end.

(** The C string held by a buffer: the bytes before the first NUL. *)
Fixpoint c_str (buf : list ascii) : string :=
  match buf with
  | [] => EmptyString
  | c :: r => if Ascii.eqb c NUL then EmptyString else String c (c_str r)
  end.

(** The bytes a C string occupies: its characters and the closing NUL. *)
Definition c_bytes (s : string) : list ascii := list_ascii_of_string s ++ [NUL].

(** [%d] of an [int]. *)
Definition fmt_d (z : Z) : string := NilZero.string_of_int (Z.to_int z).

(** The two texts the program stores as the reason. *)
Definition insufficient_funds_msg (i : Z) : string :=
  ("Insufficient funds in Account " ++ fmt_d i)%string.

Definition deadline_msg : string := "Global deadline expired"%string.

(** What [snprintf(buf, size, ...)] stores for the formatted text [s]: at
    most [size - 1] characters and the closing NUL. *)
Definition snprintf_bytes (size : nat) (s : string) : list ascii :=
  firstn (size - 1) (list_ascii_of_string s) ++ [NUL].

(** ** Mutexes *)

(** [pthread_mutex_lock(m)] by thread [t]: [None] when the call does not
    return because the mutex is held (by another thread, or by [t] itself:
    the mutexes have the default, non-recursive type). *)
Definition pthread_mutex_lock (t : tid) (m : mutex_ptr) (g : globals) : option globals :=
  match mutex (deref m g) with
  | None => Some (log_lock t m (store m (set_mutex (Some t) (deref m g)) g))
  | Some _ => None
  end.

(** [pthread_mutex_unlock(m)] by thread [t]; the program only unlocks what
    it holds, the model leaves a mutex held by another thread as it is. *)
Definition pthread_mutex_unlock (t : tid) (m : mutex_ptr) (g : globals) : globals :=
  match mutex (deref m g) with
  | Some o => if tid_eqb o t then store m (set_mutex None (deref m g)) g else g
  | None => g
  end.

(** Sequencing of calls that may not return. *)
Definition bind_lock (r : option globals) (k : globals -> option globals) : option globals :=
  match r with
  | Some g => k g
  | None => None
  end.

(** [lock_pair]: the test is on the address of [account1.mutex]. *)
Definition lock_pair (t : tid) (m1 m2 : mutex_ptr) (g : globals) : option globals :=
  if ptr_eqb m1 Account1 then
    bind_lock (pthread_mutex_lock t m1 g) (pthread_mutex_lock t m2)
  else
    bind_lock (pthread_mutex_lock t m2 g) (pthread_mutex_lock t m1).

(** [unlock_pair]: [m1] first, then [m2]. *)
Definition unlock_pair (t : tid) (m1 m2 : mutex_ptr) (g : globals) : globals :=
  pthread_mutex_unlock t m2 (pthread_mutex_unlock t m1 g).

(** ** The transfer, statement by statement *)

(** [snprintf(termination_reason, 100, "Insufficient funds in Account %d", source->id)] *)
Definition reason_bytes (source : acct_ptr) (g : globals) : list ascii :=
  snprintf_bytes 100 (insufficient_funds_msg (id (deref source g))).

Definition snprintf_reason (source : acct_ptr) (g : globals) : globals :=
  set_termination_reason (store_bytes 0 (reason_bytes source g) (termination_reason g)) g.

(** [source->balance -= source->transfer_amount] *)
Definition debit (source : acct_ptr) (g : globals) : globals :=
  let s := deref source g in
  store source (set_balance (balance s - transfer_amount s)%float s) g.

(** [dest->balance += source->transfer_amount] *)
Definition credit (source dest : acct_ptr) (g : globals) : globals :=
  let d := deref dest g in
  store dest (set_balance (balance d + transfer_amount (deref source g))%float d) g.

(** [source->successful_transfers++]; past [LONG_MAX] the C standard leaves
    the result open, the model wraps around as the hardware does. *)
Definition count_transfer (source : acct_ptr) (g : globals) : globals :=
  let s := deref source g in
  store source (set_successful_transfers (long_wrap (successful_transfers s + 1)) s) g.

(** The [printf] of a successful transfer. *)
Definition log_success (source dest : acct_ptr) (g : globals) : globals :=
  let s := deref source g in
  print (OutSuccess (id s) (id (deref dest g)) (transfer_amount s) (id s) (balance s)) g.

(** The body of [transfer_funds] after [lock_pair] has returned. *)
Definition transfer_locked (t : tid) (source dest : acct_ptr) (g : globals) : Z * globals :=
  if negb (is_terminated g =? 0) then
    (-1, unlock_pair t source dest g)
  else if (balance (deref source g) <? transfer_amount (deref source g))%float then
    (-1, unlock_pair t source dest (set_is_terminated 1 (snprintf_reason source g)))
  else
    (0, unlock_pair t source dest
          (log_success source dest
             (count_transfer source (credit source dest (debit source g))))).

(** [transfer_funds], called by thread [t]; [None] when [lock_pair] does
    not return. *)
Definition transfer_funds (t : tid) (source dest : acct_ptr) (g : globals)
  : option (Z * globals) :=
  match lock_pair t source dest g with
  | Some g1 => Some (transfer_locked t source dest g1)
  | None => None
  end.

(** The state [main] sets up before it creates the threads: ids and
    counters from the initialisers, the rest from the operator.  Standard
    output is recorded from here on. *)
Definition init_globals (b1 a1 b2 a2 : float) (period deadline : Z) : globals :=
  mkGlobals (mkAccount b1 a1 0 None 1) (mkAccount b2 a2 0 None 2)
    0 (repeat NUL 100) period deadline [] [].

(** [main], lines 206-209, run as one step: the watchdog after its sleep. *)
Definition watchdog (g : globals) : globals :=
  if is_terminated g =? 0 then
    set_termination_reason
      (store_bytes 0 (c_bytes deadline_msg) (termination_reason (set_is_terminated 1 g)))
      (set_is_terminated 1 g)
  else g.

(** One whole operation on the shared state: a call of [transfer_funds] by
    [thread_transfer_1_to_2] or by [thread_transfer_2_to_1], or the
    watchdog. *)
Inductive op := Transfer12 | Transfer21 | Deadline.

(** A transfer that does not return leaves the globals as they are. *)
Definition apply_op (o : op) (g : globals) : globals :=
  match o with
  | Transfer12 =>
      match transfer_funds T1 Account1 Account2 g with
      | Some (_, g') => g'
      | None => g
      end
  | Transfer21 =>
      match transfer_funds T2 Account2 Account1 g with
      | Some (_, g') => g'
      | None => g
      end
  | Deadline => watchdog g
  end.

Definition apply_ops (ops : list op) (g : globals) : globals :=
  fold_left (fun acc o => apply_op o acc) ops g.

(** [account_A.balance + account_B.balance], as the program would compute it. *)
Definition total (g : globals) : float :=
  (balance (account1 g) + balance (account2 g))%float.

(** ** The three threads, interleaved

    Each thread is a program counter over the statements of its routine;
    a step of a thread runs one statement on the shared globals.  The two
    library calls that fill the reason buffer store one byte per step. *)

Inductive actor_pc :=
| PLoop                                  (* while (!is_terminated) *)
| PLockFirst                             (* lock_pair, first pthread_mutex_lock *)
| PLockSecond                            (* lock_pair, second pthread_mutex_lock *)
| PCheckTerm                             (* if (is_terminated) *)
| PCheckFunds                            (* if (source->balance < source->transfer_amount) *)
| PSnprintf (i : nat) (bytes : list ascii) (* snprintf, bytes still to store from index i *)
| PSetFlag                               (* is_terminated = 1 *)
| PDebit                                 (* source->balance -= ... *)
| PCredit                                (* dest->balance += ... *)
| PCount                                 (* source->successful_transfers++ *)
| PPrintf                                (* printf("SUCCESS: ...") *)
| PUnlockFirst (ret : Z)                 (* unlock_pair, first unlock; return value pending *)
| PUnlockSecond (ret : Z)                (* unlock_pair, second unlock *)
| PReturn (ret : Z)                      (* if (transfer_funds(...) != 0) break; *)
| PSleep                                 (* nanosleep(&ts, NULL) *)
| PDone.                                 (* return NULL *)

Inductive main_pc :=
| MSleep                                 (* sleep(deadline_sec) *)
| MCheck                                 (* if (!is_terminated) *)
| MSetFlag                               (* is_terminated = 1 *)
| MStrcpy (i : nat) (bytes : list ascii) (* strcpy, bytes still to store from index i *)
| MJoin1                                 (* pthread_join(t1, NULL) *)
| MJoin2                                 (* pthread_join(t2, NULL) *)
| MPrint                                 (* the final results *)
| MDone.

(** What an actor's loop does, as seen from outside [transfer_funds]. *)
Inductive event :=
| EvPoll (flag : Z)       (* the loop condition read is_terminated *)
| EvAttempt (ret : Z)     (* transfer_funds returned ret *)
| EvWait (nsec : Z)       (* nanosleep waited nsec nanoseconds *)
| EvRefused (nsec : Z).   (* nanosleep refused nsec nanoseconds and returned at once *)

Record state := mkState {
  mem : globals;
  pc1 : actor_pc;
  pc2 : actor_pc;
  pcm : main_pc;
  events1 : list event;
  events2 : list event
}.

(** The direction of each worker thread. *)
Definition source_of (t : tid) : acct_ptr :=
  match t with
  | T2 => Account2
  | _ => Account1
  end.

Definition dest_of (t : tid) : acct_ptr :=
  match t with
  | T2 => Account1
  | _ => Account2
  end.

(** The mutex the first and the second [pthread_mutex_lock] of [lock_pair]
    are called on. *)
Definition lock_first (m1 m2 : mutex_ptr) : mutex_ptr :=
  if ptr_eqb m1 Account1 then m1 else m2.

Definition lock_second (m1 m2 : mutex_ptr) : mutex_ptr :=
  if ptr_eqb m1 Account1 then m2 else m1.

(** [ts.tv_nsec = transfer_period_ms * 1000000L]: the threads compute it
    once, from a global that nothing writes after the input. *)
Definition tv_nsec (g : globals) : Z := long_wrap (transfer_period_ms g * 1000000).

(** [nanosleep(&ts, NULL)] with [ts.tv_sec = 0].  The call waits for the
    interval when [tv_nsec] is from 0 to 999999999; for any other value
    it fails at once with EINVAL and does not wait.  The thread routines
    ignore what it returns, and the program installs no signal handler
    that could cut a wait short. *)
Definition nanosleep_accepts (nsec : Z) : bool :=
  (0 <=? nsec) && (nsec <=? 999999999).

Definition nanosleep (nsec : Z) : event :=
  if nanosleep_accepts nsec then EvWait nsec else EvRefused nsec.

(** One statement of a worker thread: the next program counter, the
    globals and the events of the step; [None] when the thread cannot
    move (it waits for a mutex, or it has returned). *)
Definition actor_step (t : tid) (pc : actor_pc) (g : globals)
  : option (actor_pc * globals * list event) :=
  let source := source_of t in
  let dest := dest_of t in
  match pc with
  | PLoop =>
      if negb (is_terminated g =? 0)
      then Some (PDone, g, [EvPoll (is_terminated g)])
      else Some (PLockFirst, g, [EvPoll (is_terminated g)])
  | PLockFirst =>
      match pthread_mutex_lock t (lock_first source dest) g with
      | Some g' => Some (PLockSecond, g', [])
      | None => None
      end
  | PLockSecond =>
      match pthread_mutex_lock t (lock_second source dest) g with
      | Some g' => Some (PCheckTerm, g', [])
      | None => None
      end
  | PCheckTerm =>
      if negb (is_terminated g =? 0)
      then Some (PUnlockFirst (-1), g, [])
      else Some (PCheckFunds, g, [])
  | PCheckFunds =>
      if (balance (deref source g) <? transfer_amount (deref source g))%float
      then Some (PSnprintf 0 (reason_bytes source g), g, [])
      else Some (PDebit, g, [])
  | PSnprintf i (c :: r) =>
      Some (PSnprintf (S i) r,
            set_termination_reason (write_at i c (termination_reason g)) g, [])
  | PSnprintf _ [] => Some (PSetFlag, g, [])
  | PSetFlag => Some (PUnlockFirst (-1), set_is_terminated 1 g, [])
  | PDebit => Some (PCredit, debit source g, [])
  | PCredit => Some (PCount, credit source dest g, [])
  | PCount => Some (PPrintf, count_transfer source g, [])
  | PPrintf => Some (PUnlockFirst 0, log_success source dest g, [])
  | PUnlockFirst r => Some (PUnlockSecond r, pthread_mutex_unlock t source g, [])
  | PUnlockSecond r => Some (PReturn r, pthread_mutex_unlock t dest g, [])
  | PReturn r =>
      if negb (r =? 0)
      then Some (PDone, g, [EvAttempt r])
      else Some (PSleep, g, [EvAttempt r])
  | PSleep => Some (PLoop, g, [nanosleep (tv_nsec g)])
  | PDone => None
  end.

(** The thread has returned: [pthread_join] on it returns. *)
Definition is_done (pc : actor_pc) : bool :=
  match pc with
  | PDone => true
  | _ => false
  end.

(** One statement of [main] after it has created the threads; the joins
    wait for the worker to have returned. *)
Definition main_step (pc : main_pc) (done1 done2 : bool) (g : globals)
  : option (main_pc * globals) :=
  match pc with
  | MSleep => Some (MCheck, g)
  | MCheck => if is_terminated g =? 0 then Some (MSetFlag, g) else Some (MJoin1, g)
  | MSetFlag => Some (MStrcpy 0 (c_bytes deadline_msg), set_is_terminated 1 g)
  | MStrcpy i (c :: r) =>
      Some (MStrcpy (S i) r,
            set_termination_reason (write_at i c (termination_reason g)) g)
  | MStrcpy _ [] => Some (MJoin1, g)
  | MJoin1 => if done1 then Some (MJoin2, g) else None
  | MJoin2 => if done2 then Some (MPrint, g) else None
  | MPrint =>
      Some (MDone,
            print (OutFinal (balance (account1 g)) (balance (account2 g))
                     (successful_transfers (account1 g))
                     (successful_transfers (account2 g))
                     (c_str (termination_reason g))) g)
  | MDone => None
  end.

(** The two thread routines differ in the direction only. *)
Definition thread_transfer_1_to_2 := actor_step T1.

Definition thread_transfer_2_to_1 := actor_step T2.

(** A step of the program: the scheduler picks a thread. *)
Definition step (t : tid) (st : state) : option state :=
  match t with
  | T1 =>
      match thread_transfer_1_to_2 (pc1 st) (mem st) with
      | Some (pc', g', evs) =>
          Some (mkState g' pc' (pc2 st) (pcm st) (events1 st ++ evs) (events2 st))
      | None => None
      end
  | T2 =>
      match thread_transfer_2_to_1 (pc2 st) (mem st) with
      | Some (pc', g', evs) =>
          Some (mkState g' (pc1 st) pc' (pcm st) (events1 st) (events2 st ++ evs))
      | None => None
      end
  | TMain =>
      match main_step (pcm st) (is_done (pc1 st)) (is_done (pc2 st)) (mem st) with
      | Some (pc', g') =>
          Some (mkState g' (pc1 st) (pc2 st) pc' (events1 st) (events2 st))
      | None => None
      end
  end.

(** A schedule is the list of the threads picked; it runs as long as the
    thread picked can move. *)
Fixpoint run (sched : list tid) (st : state) : option state :=
  match sched with
  | [] => Some st
  | t :: rest =>
      match step t st with
      | Some st' => run rest st'
      | None => None
      end
  end.

(** The state in which [main] has created both threads. *)
Definition init_state (g : globals) : state :=
  mkState g PLoop PLoop MSleep [] [].

(** The program started on the operator's six inputs. *)
Definition start (b1 a1 b2 a2 : float) (period deadline : Z) : state :=
  init_state (init_globals b1 a1 b2 a2 period deadline).

(** All three threads have returned. *)
Definition finished (st : state) : Prop :=
  pc1 st = PDone /\ pc2 st = PDone /\ pcm st = MDone.

(** Program counter and events of a worker thread. *)
Definition pc_of (t : tid) (st : state) : actor_pc :=
  match t with
  | T2 => pc2 st
  | _ => pc1 st
  end.


(** * Vocabulary of the properties *)

(** ** Well-formed globals

    What [main] establishes before it creates the threads and no
    statement of the program changes: the ids, the size of the reason
    buffer, and counters that are values of type [long]. *)
Definition in_long (z : Z) : Prop := LONG_MIN <= z <= LONG_MAX.

Record wf (g : globals) : Prop := mkWf {
  wf_id1 : id (account1 g) = 1;
  wf_id2 : id (account2 g) = 2;
  wf_buf : List.length (termination_reason g) = 100%nat;
  wf_count1 : in_long (successful_transfers (account1 g));
  wf_count2 : in_long (successful_transfers (account2 g))
}.

(** No thread holds a mutex. *)
Definition both_free (g : globals) : Prop :=
  mutex (account1 g) = None /\ mutex (account2 g) = None.

(** What a call that returns has done to the globals, with the mutexes
    taken and released again: only the acquisition log remembers them. *)
Definition logged (t : tid) (g : globals) : globals :=
  mkGlobals (account1 g) (account2 g) (is_terminated g) (termination_reason g)
    (transfer_period_ms g) (deadline_sec g) (stdout g)
    (lock_log g ++ [(t, Account1); (t, Account2)]).

(** The value a call returns and the globals it leaves, in closed form. *)
Definition transfer_effect (t : tid) (source dest : acct_ptr) (g : globals) : Z * globals :=
  if negb (is_terminated g =? 0) then (-1, logged t g)
  else if (balance (deref source g) <? transfer_amount (deref source g))%float
  then (-1, set_is_terminated 1 (snprintf_reason source (logged t g)))
  else (0, log_success source dest
             (count_transfer source (credit source dest (debit source (logged t g))))).




(** Balance, transfer amount and counter of both accounts are the same. *)
Definition accounts_kept (g g' : globals) : Prop :=
  forall p : acct_ptr,
    balance (deref p g') = balance (deref p g) /\
    transfer_amount (deref p g') = transfer_amount (deref p g) /\
    successful_transfers (deref p g') = successful_transfers (deref p g).


(** The floating-point values a line of output shows. *)
Definition shown_amounts (o : output) : list float :=
  match o with
  | OutSuccess _ _ amt _ bal => [amt; bal]
  | OutFinal b1 b2 _ _ _ => [b1; b2]
  end.

(** The line shows the value [x]. *)
Definition shows (o : output) (x : float) : bool :=
  existsb (fun y => (y =? x)%float) (shown_amounts o).

(** A number that is at least 0: a zero of either sign, a positive finite
    number or plus infinity. *)
Definition SFnonneg (x : spec_float) : Prop :=
  match x with
  | S754_zero _ => True
  | S754_infinity s => s = false
  | S754_finite s _ _ => s = false
  | S754_nan => False
  end.

(** The [double] of a non-negative integer. *)
Definition of_whole (n : Z) : float := of_uint63 (Uint63.of_Z n).

(** The mantissa and exponent of the valid [double] equal to [n]. *)
Definition whole_mantissa (n : positive) : positive :=
  match (53 - Z.pos (digits2_pos n))%Z with
  | Z.pos k => Pos.iter xO n k
  | _ => n
  end.

Definition whole_exponent (n : positive) : Z := Z.pos (digits2_pos n) - 53.

(** The specification-level [double] of a non-negative integer. *)
Definition SFwhole (n : Z) : spec_float :=
  match n with
  | Z.pos p => S754_finite false (whole_mantissa p) (whole_exponent p)
  | _ => S754_zero false
  end.

(** Balances and amounts in whole units, with the sum of the balances. *)
Definition whole_state (k1 k2 sum : Z) (g : globals) : Prop :=
  transfer_amount (account1 g) = of_whole k1 /\
  transfer_amount (account2 g) = of_whole k2 /\
  exists m1 m2, 0 <= m1 /\ 0 <= m2 /\ m1 + m2 = sum /\
    balance (account1 g) = of_whole m1 /\ balance (account2 g) = of_whole m2.

(** The amounts are [a1] and [a2] and no balance is negative. *)
Definition nonneg_state (a1 a2 : float) (g : globals) : Prop :=
  transfer_amount (account1 g) = a1 /\ transfer_amount (account2 g) = a2 /\
  (0 <=? balance (account1 g))%float = true /\
  (0 <=? balance (account2 g))%float = true.

(** The mutexes a worker thread holds, read off its program counter. *)
Definition holds (t : tid) (pc : actor_pc) (m : mutex_ptr) : bool :=
  match pc with
  | PLockSecond => ptr_eqb m (lock_first (source_of t) (dest_of t))
  | PCheckTerm | PCheckFunds | PSnprintf _ _ | PSetFlag
  | PDebit | PCredit | PCount | PPrintf | PUnlockFirst _ => true
  | PUnlockSecond _ => ptr_eqb m (dest_of t)
  | _ => false
  end.

(** The owner of a mutex, as the program counters tell. *)
Definition owner_by_pc (m : mutex_ptr) (st : state) : option tid :=
  if holds T1 (pc1 st) m then Some T1
  else if holds T2 (pc2 st) m then Some T2
  else None.

(** Each mutex is owned by the thread whose program counter says so, and
    never by both. *)
Definition lock_inv (st : state) : Prop :=
  forall m : mutex_ptr,
    mutex (deref m (mem st)) = owner_by_pc m st /\
    holds T1 (pc1 st) m && holds T2 (pc2 st) m = false.

(** The thread can take a step. *)
Definition enabled (t : tid) (st : state) : Prop := exists st', step t st = Some st'.

(** A worker thread outside [pthread_mutex_lock] that has not returned
    can always move. *)
Definition never_waits (pc : actor_pc) : bool :=
  match pc with
  | PLockFirst | PLockSecond | PDone => false
  | _ => true
  end.

(** The most steps a thread can still take once the flag is set. *)
Definition actor_steps_left (pc : actor_pc) : nat :=
  match pc with
  | PLoop => 1
  | PLockFirst => 6
  | PLockSecond => 5
  | PCheckTerm => 4
  | PCheckFunds => 106
  | PSnprintf _ bytes => List.length bytes + 5
  | PSetFlag => 4
  | PDebit => 9
  | PCredit => 8
  | PCount => 7
  | PPrintf => 6
  | PUnlockFirst r => if r =? 0 then 5 else 3
  | PUnlockSecond r => if r =? 0 then 4 else 2
  | PReturn r => if r =? 0 then 3 else 1
  | PSleep => 2
  | PDone => 0
  end.

Definition main_steps_left (pc : main_pc) : nat :=
  match pc with
  | MSleep => 5
  | MCheck => 4
  | MSetFlag => 29
  | MStrcpy _ bytes => List.length bytes + 4
  | MJoin1 => 3
  | MJoin2 => 2
  | MPrint => 1
  | MDone => 0
  end.

Definition steps_left (st : state) : nat :=
  actor_steps_left (pc1 st) + actor_steps_left (pc2 st) + main_steps_left (pcm st).

(** The number of steps the whole program can still take once the
    termination flag is set. *)
Definition overshoot_bound : nat := 241.

(** The bytes a thread still has to store end inside the text it is
    storing, and the text inside the buffer of 100 bytes. *)
Definition bytes_inv (st : state) : Prop :=
  (forall i bytes, pc1 st = PSnprintf i bytes -> (i + List.length bytes <= 100)%nat) /\
  (forall i bytes, pc2 st = PSnprintf i bytes -> (i + List.length bytes <= 100)%nat) /\
  (forall i bytes, pcm st = MStrcpy i bytes -> (i + List.length bytes <= 24)%nat) /\
  List.length (termination_reason (mem st)) = 100%nat.

(** Past its test of the flag, the watchdog has seen or set the flag. *)
Definition main_inv (st : state) : Prop :=
  pcm st = MSleep \/ pcm st = MCheck \/ pcm st = MSetFlag \/ is_terminated (mem st) <> 0.

(** A thread about to move money holds both mutexes. *)
Definition moving (pc : actor_pc) : bool :=
  match pc with
  | PDebit | PCredit => true
  | _ => false
  end.

(** No balance is negative, and a thread about to debit has passed the
    funds check on a balance nobody has touched since. *)
Definition nonneg_inv (a1 a2 : float) (st : state) : Prop :=
  transfer_amount (account1 (mem st)) = a1 /\
  transfer_amount (account2 (mem st)) = a2 /\
  (0 <=? balance (account1 (mem st)))%float = true /\
  (0 <=? balance (account2 (mem st)))%float = true /\
  (pc1 st = PDebit -> (balance (account1 (mem st)) <? a1)%float = false) /\
  (pc2 st = PDebit -> (balance (account2 (mem st)) <? a2)%float = false).

(** The amount a thread has taken from its source and not yet given to
    its destination. *)
Definition in_flight (k : Z) (pc : actor_pc) : Z :=
  match pc with
  | PCredit => k
  | _ => 0
  end.

(** Balances and amounts are whole; balances and the amount in flight add
    up to [sum]; a thread about to debit has the funds. *)
Definition whole_inv (k1 k2 sum : Z) (st : state) : Prop :=
  transfer_amount (account1 (mem st)) = of_whole k1 /\
  transfer_amount (account2 (mem st)) = of_whole k2 /\
  exists m1 m2, 0 <= m1 /\ 0 <= m2 /\
    m1 + m2 + in_flight k1 (pc1 st) + in_flight k2 (pc2 st) = sum /\
    balance (account1 (mem st)) = of_whole m1 /\
    balance (account2 (mem st)) = of_whole m2 /\
    (pc1 st = PDebit -> k1 <= m1) /\ (pc2 st = PDebit -> k2 <= m2).

(** Account 1 is empty and the deadline is 0: thread 1 finds insufficient
    funds at the moment the watchdog wakes up.  The watchdog sees the flag
    clear, sets it and stores the first byte of its reason; thread 1 then
    stores its whole reason and sets the flag; the watchdog stores the
    rest of its own. *)
Definition race_schedule : list tid :=
  repeat T1 5 ++ repeat TMain 4 ++ repeat T1 34 ++ repeat TMain 24 ++
  repeat T1 3 ++ [T2] ++ repeat TMain 3.

(** What [race_schedule] leaves in the reason buffer. *)
Definition torn_reason : string := "Ilobal deadline expired".







(** [n] statements of a thread that runs alone. *)
Fixpoint actor_steps (t : tid) (n : nat) (pc : actor_pc) (g : globals)
  : option (actor_pc * globals) :=
  match n with
  | O => Some (pc, g)
  | S k =>
      match actor_step t pc g with
      | Some (pc', g', _) => actor_steps t k pc' g'
      | None => None
      end
  end.

(** ** Vocabulary of the further properties *)

(** The statements of [transfer_funds] between the return of [lock_pair]
    and the call of [unlock_pair]. *)
Definition in_critical (pc : actor_pc) : bool :=
  match pc with
  | PCheckTerm | PCheckFunds | PSnprintf _ _ | PSetFlag
  | PDebit | PCredit | PCount | PPrintf | PUnlockFirst _ => true
  | _ => false
  end.

(** The statements of a thread routine outside its call of
    [transfer_funds]. *)
Definition outside_call (pc : actor_pc) : bool :=
  match pc with
  | PLoop | PReturn _ | PSleep | PDone => true
  | _ => false
  end.

(** What the operator configured and [main] initialised: ids, transfer
    amounts, period and deadline. *)
Definition same_config (g0 g : globals) : Prop :=
  id (account1 g) = id (account1 g0) /\
  id (account2 g) = id (account2 g0) /\
  transfer_amount (account1 g) = transfer_amount (account1 g0) /\
  transfer_amount (account2 g) = transfer_amount (account2 g0) /\
  transfer_period_ms g = transfer_period_ms g0 /\
  deadline_sec g = deadline_sec g0.

(** A worker thread that has left [transfer_funds] with a failure, or is
    about to, or has returned. *)
Definition stopping (pc : actor_pc) : bool :=
  match pc with
  | PUnlockFirst r | PUnlockSecond r | PReturn r => negb (r =? 0)
  | PDone => true
  | _ => false
  end.

(** The flag is 0 or 1, and a thread that is stopping has seen it set or
    has set it. *)
Definition stop_inv (st : state) : Prop :=
  (is_terminated (mem st) = 0 \/ is_terminated (mem st) = 1) /\
  (stopping (pc1 st) = true -> is_terminated (mem st) = 1) /\
  (stopping (pc2 st) = true -> is_terminated (mem st) = 1) /\
  (pcm st = MSleep \/ pcm st = MCheck \/ pcm st = MSetFlag \/ is_terminated (mem st) = 1).

(** A line of a successful transfer out of the account with id [i]. *)
Definition is_success_from (i : Z) (o : output) : bool :=
  match o with
  | OutSuccess s _ _ _ _ => s =? i
  | OutFinal _ _ _ _ _ => false
  end.

(** The number of such lines in the output. *)
Definition successes (i : Z) (out : list output) : Z :=
  Z.of_nat (List.length (filter (is_success_from i) out)).

Definition is_success (o : output) : bool :=
  match o with
  | OutSuccess _ _ _ _ _ => true
  | OutFinal _ _ _ _ _ => false
  end.

(** A thread that has counted its transfer and not yet printed it. *)
Definition printing (pc : actor_pc) : Z :=
  match pc with
  | PPrintf => 1
  | _ => 0
  end.

(** Each counter is the number of lines its thread has printed, and of
    the one it is about to print. *)
Definition count_inv (st : state) : Prop :=
  id (account1 (mem st)) = 1 /\ id (account2 (mem st)) = 2 /\
  successful_transfers (account1 (mem st)) =
    long_wrap (successes 1 (stdout (mem st)) + printing (pc1 st)) /\
  successful_transfers (account2 (mem st)) =
    long_wrap (successes 2 (stdout (mem st)) + printing (pc2 st)).

(** The final results, as [main] prints them from the globals [g]. *)
Definition final_results (g : globals) : output :=
  OutFinal (balance (account1 g)) (balance (account2 g))
    (successful_transfers (account1 g)) (successful_transfers (account2 g))
    (c_str (termination_reason g)).

(** Past a join the thread joined has returned; the output holds lines
    of successful transfers only, until [main] adds the final results. *)
Definition report_inv (st : state) : Prop :=
  (pcm st = MJoin2 \/ pcm st = MPrint \/ pcm st = MDone -> pc1 st = PDone) /\
  (pcm st = MPrint \/ pcm st = MDone -> pc2 st = PDone) /\
  (pcm st <> MDone -> forallb is_success (stdout (mem st)) = true) /\
  (pcm st = MDone ->
   exists lines, forallb is_success lines = true /\
     stdout (mem st) = lines ++ [final_results (mem st)]).

(** The number of SUCCESS lines in the output. *)
Definition transfers_logged (g : globals) : nat :=
  List.length (filter is_success (stdout g)).

(** A thread that has passed the test of the flag in [transfer_funds]
    and has not yet printed: the transfers still to come once the flag is
    set. *)
Definition pending (pc : actor_pc) : nat :=
  match pc with
  | PCheckFunds | PDebit | PCredit | PCount | PPrintf => 1
  | _ => 0
  end.

(** A thread that has found the funds insufficient and has not yet set
    the flag: it is in [snprintf] or about to store 1 into the flag. *)
Definition writing (pc : actor_pc) : bool :=
  match pc with
  | PSnprintf _ _ | PSetFlag => true
  | _ => false
  end.

(** No transfer can be made any more: the flag is set or a thread is
    about to set it under the mutexes, no thread is past the test of the
    flag on the way to a transfer; accounts and output are those of
    [g0]. *)
Definition halt_inv (g0 : globals) (st : state) : Prop :=
  lock_inv st /\
  (is_terminated (mem st) <> 0 \/ writing (pc1 st) = true \/ writing (pc2 st) = true) /\
  pending (pc1 st) = 0%nat /\ pending (pc2 st) = 0%nat /\
  accounts_kept g0 (mem st) /\
  transfers_logged (mem st) = transfers_logged g0.

(** The funds check of [transfer_funds] on account [p] fails. *)
Definition short (p : acct_ptr) (g : globals) : bool :=
  (balance (deref p g) <? transfer_amount (deref p g))%float.

(** A thread that has found the funds insufficient is right about it for
    as long as it holds the mutexes. *)
Definition short_inv (st : state) : Prop :=
  lock_inv st /\
  (writing (pc1 st) = true -> short Account1 (mem st) = true) /\
  (writing (pc2 st) = true -> short Account2 (mem st) = true).

(** ** Who has written the reason *)

(** The reason buffer as the program starts with it. *)
Definition empty_reason : list ascii := repeat NUL 100.

Definition account_id (p : acct_ptr) : Z :=
  match p with
  | Account1 => 1
  | Account2 => 2
  end.

(** The bytes the [snprintf] of a worker thread stores. *)
Definition worker_bytes (t : tid) : list ascii :=
  snprintf_bytes 100 (insufficient_funds_msg (account_id (source_of t))).

(** The buffer of a single writer that has stored the first [i] bytes of
    [whole] and still has [rest] to store. *)
Definition stored_so_far (whole : list ascii) (i : nat) (rest buf : list ascii) : Prop :=
  exists pre, pre ++ rest = whole /\ List.length pre = i /\
    buf = store_bytes 0 pre empty_reason.

(** The main thread has not yet tested the flag. *)
Definition quiet (pc : main_pc) : bool :=
  match pc with
  | MSleep | MCheck => true
  | _ => false
  end.

(** The main thread has found the flag clear and is setting it and
    storing its reason. *)
Definition deciding (pc : main_pc) : bool :=
  match pc with
  | MSetFlag | MStrcpy _ _ => true
  | _ => false
  end.

(** The main thread is past its test of the flag and its [strcpy]. *)
Definition after_watchdog (pc : main_pc) : bool :=
  match pc with
  | MJoin1 | MJoin2 | MPrint | MDone => true
  | _ => false
  end.

Definition other (t : tid) : tid :=
  match t with
  | T2 => T1
  | _ => T2
  end.

(** No worker thread has found the funds insufficient: only the main
    thread has touched flag and buffer. *)
Definition clean (st : state) : Prop :=
  writing (pc1 st) = false /\ writing (pc2 st) = false /\
  match pcm st with
  | MSleep | MCheck | MSetFlag =>
      is_terminated (mem st) = 0 /\ termination_reason (mem st) = empty_reason
  | MStrcpy i rest =>
      stored_so_far (c_bytes deadline_msg) i rest (termination_reason (mem st))
  | _ => termination_reason (mem st) = store_bytes 0 (c_bytes deadline_msg) empty_reason
  end.

(** How far worker thread [t], at [pc], is with flag and buffer when it
    is their only writer. *)
Definition writer_progress (t : tid) (pc : actor_pc) (flag : Z) (pm : main_pc) (buf : list ascii)
  : Prop :=
  match pc with
  | PSnprintf i rest =>
      flag = 0 /\ quiet pm = true /\ stored_so_far (worker_bytes t) i rest buf
  | PSetFlag =>
      flag = 0 /\ quiet pm = true /\ buf = store_bytes 0 (worker_bytes t) empty_reason
  | _ =>
      flag <> 0 /\ deciding pm = false /\ buf = store_bytes 0 (worker_bytes t) empty_reason
  end.

(** Worker thread [t] has found the funds insufficient, and the main
    thread has not found the flag clear: only [t] has touched flag and
    buffer. *)
Definition pure (t : tid) (st : state) : Prop :=
  (exists g0, short (source_of t) g0 = true /\ halt_inv g0 st) /\
  writing (pc_of (other t) st) = false /\
  writer_progress t (pc_of t st) (is_terminated (mem st)) (pcm st) (termination_reason (mem st)).

(** A worker thread has found the funds insufficient and the main thread
    has found the flag clear: both may have written. *)
Definition mixed (st : state) : Prop :=
  quiet (pcm st) = false /\
  exists g0 p, short p g0 = true /\ halt_inv g0 st.

Definition reason_inv (st : state) : Prop :=
  lock_inv st /\
  id (account1 (mem st)) = 1 /\ id (account2 (mem st)) = 2 /\
  (clean st \/ pure T1 st \/ pure T2 st \/ mixed st).

(** ** The first byte of the reason *)

(** The buffer starts with the first letter of one of the two reasons. *)
Definition starts_reason (buf : list ascii) : Prop :=
  exists c r, buf = c :: r /\ (c = "G"%char \/ c = "I"%char).

(** What a thread storing a reason has done about the first byte: the
    byte is in place, or it is the next to be stored. *)
Definition first_byte (first : ascii) (i : nat) (bytes buf : list ascii) : Prop :=
  match i with
  | O => exists r, bytes = first :: r
  | S _ => starts_reason buf
  end.

Definition first_byte_inv (st : state) : Prop :=
  let buf := termination_reason (mem st) in
  buf <> [] /\
  (forall i bytes, pc1 st = PSnprintf i bytes -> first_byte "I" i bytes buf) /\
  (forall i bytes, pc2 st = PSnprintf i bytes -> first_byte "I" i bytes buf) /\
  (pc1 st = PSetFlag -> starts_reason buf) /\
  (pc2 st = PSetFlag -> starts_reason buf) /\
  (forall i bytes, pcm st = MStrcpy i bytes -> first_byte "G" i bytes buf) /\
  (is_terminated (mem st) <> 0 ->
   starts_reason buf \/ exists bytes, pcm st = MStrcpy 0 bytes).

(** A library call that fills the buffer, seen as the stores it makes,
    each an index and a byte, in the order it makes them: a call may
    store in any order, and to an index more than once. *)
Definition apply_stores (stores : list (nat * ascii)) (buf : list ascii) : list ascii :=
  fold_left (fun b s => write_at (fst s) (snd s) b) stores buf.

(** The stores leave in the reason buffer, whatever it held, what
    storing [bytes] from index 0 on leaves. *)
Definition stores_of (bytes : list ascii) (stores : list (nat * ascii)) : Prop :=
  forall buf, List.length buf = 100%nat ->
    apply_stores stores buf = store_bytes 0 bytes buf.

(** The stores of two calls in an order in which two threads can make
    them. *)
Inductive interleaved
  : list (nat * ascii) -> list (nat * ascii) -> list (nat * ascii) -> Prop :=
| interleaved_nil : interleaved [] [] []
| interleaved_left s l1 l2 l :
    interleaved l1 l2 l -> interleaved (s :: l1) l2 (s :: l)
| interleaved_right s l1 l2 l :
    interleaved l1 l2 l -> interleaved l1 (s :: l2) (s :: l).

(** The byte of the last store to index 0, if there is one. *)
Fixpoint last_store_at_0 (stores : list (nat * ascii)) : option ascii :=
  match stores with
  | [] => None
  | s :: r =>
      match last_store_at_0 r with
      | Some c => Some c
      | None =>
          match fst s with
          | O => Some (snd s)
          | S _ => None
          end
      end
  end.

(** The string starts with the first letter of one of the two reasons. *)
Definition starts_with_G_or_I (s : string) : Prop :=
  exists c r, s = String c r /\ (c = "G"%char \/ c = "I"%char).

(** [snprintf] storing its bytes from the last to the first, after a NUL
    at index 0; [strcpy] storing its bytes from the last to the first. *)
Definition snprintf_backwards : list (nat * ascii) :=
  (0%nat, NUL) :: rev (combine (seq 0 32) (worker_bytes T1)).

Definition strcpy_backwards : list (nat * ascii) :=
  rev (combine (seq 0 24) (c_bytes deadline_msg)).

(** ** The ledger of whole amounts *)

(** A thread that has debited its source for a transfer it has not yet
    printed, and one that has also credited the destination. *)
Definition debited (pc : actor_pc) : Z :=
  match pc with
  | PCredit | PCount | PPrintf => 1
  | _ => 0
  end.

Definition credited (pc : actor_pc) : Z :=
  match pc with
  | PCount | PPrintf => 1
  | _ => 0
  end.

(** The balances the SUCCESS lines and the transfers under way account
    for, from the initial balances [n1], [n2] and the amounts [k1], [k2]. *)
Definition ledger1 (n1 k1 k2 : Z) (st : state) : Z :=
  n1 - k1 * (successes 1 (stdout (mem st)) + debited (pc1 st))
     + k2 * (successes 2 (stdout (mem st)) + credited (pc2 st)).

Definition ledger2 (n2 k1 k2 : Z) (st : state) : Z :=
  n2 + k1 * (successes 1 (stdout (mem st)) + credited (pc1 st))
     - k2 * (successes 2 (stdout (mem st)) + debited (pc2 st)).

Definition ledger_inv (n1 k1 n2 k2 : Z) (st : state) : Prop :=
  id (account1 (mem st)) = 1 /\ id (account2 (mem st)) = 2 /\
  transfer_amount (account1 (mem st)) = of_whole k1 /\
  transfer_amount (account2 (mem st)) = of_whole k2 /\
  0 <= ledger1 n1 k1 k2 st /\ 0 <= ledger2 n2 k1 k2 st /\
  balance (account1 (mem st)) = of_whole (ledger1 n1 k1 k2 st) /\
  balance (account2 (mem st)) = of_whole (ledger2 n2 k1 k2 st) /\
  (pc1 st = PDebit -> k1 <= ledger1 n1 k1 k2 st) /\
  (pc2 st = PDebit -> k2 <= ledger2 n2 k1 k2 st).

(** ** One direction alone *)

(** The globals after [m] calls of [transfer_funds] from Account 1 to
    Account 2 and nothing else: [j] of them successful, from the balances
    [n] and [n2] with the amount [k]; the flag is [flag]. *)
Definition after_transfers (n k n2 j flag : Z) (g : globals) : Prop :=
  wf g /\ both_free g /\
  transfer_amount (account1 g) = of_whole k /\
  successful_transfers (account1 g) = j /\
  balance (account1 g) = of_whole (n - k * j) /\
  balance (account2 g) = of_whole (n2 + k * j) /\
  is_terminated g = flag /\
  (flag <> 0 -> c_str (termination_reason g) = insufficient_funds_msg 1).

(** ** The lines of the output *)

(** A SUCCESS line of one of the two directions, with the ids and the
    amount of that direction. *)
Definition line_ok (a1 a2 : float) (o : output) : Prop :=
  match o with
  | OutSuccess s d amt bid _ =>
      (s = 1 /\ d = 2 /\ amt = a1 /\ bid = 1) \/ (s = 2 /\ d = 1 /\ amt = a2 /\ bid = 2)
  | OutFinal _ _ _ _ _ => True
  end.

(** * Properties *)

Ltac break_globals g :=
  let a1 := fresh "a1" in
  let a2 := fresh "a2" in
  destruct g as [a1 a2 ? ? ? ? ? ?]; destruct a1, a2; simpl in *.

Lemma lock_pair_split (t : tid) (m1 m2 : mutex_ptr) (g : globals) :
  lock_pair t m1 m2 g =
  bind_lock (pthread_mutex_lock t (lock_first m1 m2) g)
            (pthread_mutex_lock t (lock_second m1 m2)).
Proof. unfold lock_pair, lock_first, lock_second. now destruct (ptr_eqb m1 Account1). Qed.

Lemma lock_pair_blocks_on_same (t : tid) (m : mutex_ptr) (g : globals) :
  lock_pair t m m g = None.
Proof.
  unfold lock_pair, bind_lock, pthread_mutex_lock.
  destruct m; break_globals g; destruct mutex0, mutex1; reflexivity.
Qed.

Lemma lock_pair_returns (t : tid) (m1 m2 : mutex_ptr) (g : globals) :
  m1 <> m2 -> both_free g -> exists g', lock_pair t m1 m2 g = Some g'.
Proof.
  intros Hne [H1 H2].
  destruct m1, m2; try congruence; break_globals g; subst;
    unfold lock_pair, bind_lock, pthread_mutex_lock; simpl; eauto.
Qed.

Lemma lock_pair_inv (t : tid) (m1 m2 : mutex_ptr) (g g' : globals) :
  lock_pair t m1 m2 g = Some g' ->
  m1 <> m2 /\ both_free g /\
  g' = log_lock t Account2
         (store Account2 (set_mutex (Some t) (account2 g))
            (log_lock t Account1 (store Account1 (set_mutex (Some t) (account1 g)) g))).
Proof.
  unfold both_free.
  destruct m1, m2; break_globals g;
    unfold lock_pair, bind_lock, pthread_mutex_lock; simpl;
    destruct mutex0, mutex1; simpl; intros H; try discriminate H;
    injection H as <-; repeat split; congruence.
Qed.

(** C1.  Called with the two account mutexes in either order,
    [lock_pair] asks for Account 1's mutex first and for Account 2's
    second; it returns as soon as both are free, and whenever it returns
    the caller has acquired Account 1's mutex and then Account 2's, and
    holds both. *)
Theorem lock_pair_fixed_order (t : tid) (m1 m2 : mutex_ptr) (g : globals) :
  m1 <> m2 ->
  (lock_first m1 m2 = Account1 /\ lock_second m1 m2 = Account2 /\
   lock_pair t m1 m2 g =
     bind_lock (pthread_mutex_lock t Account1 g) (pthread_mutex_lock t Account2)) /\
  (both_free g -> exists g', lock_pair t m1 m2 g = Some g') /\
  (forall g', lock_pair t m1 m2 g = Some g' ->
     lock_log g' = lock_log g ++ [(t, Account1); (t, Account2)] /\
     mutex (account1 g') = Some t /\ mutex (account2 g') = Some t).
Proof.
  intros Hne. split; [| split].
  - destruct m1, m2; try congruence; repeat split.
  - now apply lock_pair_returns.
  - intros g' H. apply lock_pair_inv in H as (_ & _ & ->).
    simpl. rewrite <- app_assoc. auto.
Qed.

Lemma lock_pair_fixed_order_witness :
  Account2 <> Account1 /\
  forall g', lock_pair T2 Account2 Account1 (init_globals 100 30 50 40 10 5) = Some g' ->
    lock_log g' = lock_log (init_globals 100 30 50 40 10 5) ++ [(T2, Account1); (T2, Account2)] /\
    mutex (account1 g') = Some T2 /\ mutex (account2 g') = Some T2.
Proof.
  split; [discriminate |].
  apply (lock_pair_fixed_order T2 Account2 Account1 (init_globals 100 30 50 40 10 5)).
  discriminate.
Defined.

(** ** The transfer operation, one call at a time *)

Lemma long_wrap_id (z : Z) : in_long z -> long_wrap z = z.
Proof.
  unfold in_long, long_wrap, LONG_MIN, LONG_MAX. intros H.
  rewrite Z.mod_small; lia.
Qed.

Lemma tid_eqb_refl (t : tid) : tid_eqb t t = true.
Proof. now destruct t. Qed.

Lemma transfer_funds_effect (t : tid) (source dest : acct_ptr) (g : globals) r g' :
  transfer_funds t source dest g = Some (r, g') ->
  source <> dest /\ both_free g /\ (r, g') = transfer_effect t source dest g.
Proof.
  unfold transfer_funds.
  destruct (lock_pair t source dest g) as [g1 |] eqn:E; [| discriminate].
  apply lock_pair_inv in E as (Hne & [Hf1 Hf2] & ->).
  intros H. injection H as H. rewrite <- H. clear H.
  split; [exact Hne |]. split; [split; assumption |].
  unfold transfer_locked, transfer_effect, unlock_pair, pthread_mutex_unlock.
  destruct t, source, dest; try congruence; break_globals g; subst;
    destruct (negb (is_terminated0 =? 0)); simpl; rewrite <- ?app_assoc;
    try reflexivity;
    match goal with |- context [(?a <? ?b)%float] => destruct (a <? b)%float end;
    simpl; rewrite <- ?app_assoc; reflexivity.
Qed.

Lemma transfer_funds_returns (t : tid) (source dest : acct_ptr) (g : globals) :
  source <> dest -> both_free g ->
  transfer_funds t source dest g = Some (transfer_effect t source dest g).
Proof.
  intros Hne Hfree.
  destruct (lock_pair_returns t source dest g Hne Hfree) as [g1 Hg1].
  destruct (transfer_locked t source dest g1) as [r g'] eqn:E.
  assert (H : transfer_funds t source dest g = Some (r, g'))
    by (unfold transfer_funds; now rewrite Hg1, E).
  rewrite H. f_equal. now apply transfer_funds_effect in H.
Qed.

Lemma transfer_effect_free (t : tid) (source dest : acct_ptr) (g : globals) :
  both_free g -> both_free (snd (transfer_effect t source dest g)).
Proof.
  unfold both_free, transfer_effect. intros [H1 H2].
  destruct (negb (is_terminated g =? 0)); [simpl; auto |].
  destruct (_ <? _)%float; destruct source, dest; simpl; auto.
Qed.

(** C3.  A call that reports success has debited the source by its
    transfer amount, credited the destination by the same amount, and
    counted one more transfer for the source only.  Such calls exist: a
    call on two different accounts whose mutexes are free, made while the
    flag is clear and the balance of the source is not below its
    transfer amount, returns and reports success. *)
Theorem transfer_success_postcondition
  (t : tid) (source dest : acct_ptr) (g : globals) :
  in_long (successful_transfers (deref source g) + 1) ->
  (forall g',
     transfer_funds t source dest g = Some (0, g') ->
     balance (deref source g') =
       (balance (deref source g) - transfer_amount (deref source g))%float /\
     balance (deref dest g') =
       (balance (deref dest g) + transfer_amount (deref source g))%float /\
     successful_transfers (deref source g') = successful_transfers (deref source g) + 1 /\
     successful_transfers (deref dest g') = successful_transfers (deref dest g)) /\
  (source <> dest -> both_free g -> is_terminated g = 0 ->
   (balance (deref source g) <? transfer_amount (deref source g))%float = false ->
   exists g',
     transfer_funds t source dest g = Some (0, g') /\
     balance (deref source g') =
       (balance (deref source g) - transfer_amount (deref source g))%float /\
     balance (deref dest g') =
       (balance (deref dest g) + transfer_amount (deref source g))%float /\
     successful_transfers (deref source g') = successful_transfers (deref source g) + 1 /\
     successful_transfers (deref dest g') = successful_transfers (deref dest g)).
Proof.
  intros Hrange.
  assert (Hpost : forall g',
            transfer_funds t source dest g = Some (0, g') ->
            balance (deref source g') =
              (balance (deref source g) - transfer_amount (deref source g))%float /\
            balance (deref dest g') =
              (balance (deref dest g) + transfer_amount (deref source g))%float /\
            successful_transfers (deref source g')
              = successful_transfers (deref source g) + 1 /\
            successful_transfers (deref dest g') = successful_transfers (deref dest g)).
  { intros g' H.
    apply transfer_funds_effect in H as (Hne & _ & H).
    unfold transfer_effect in H.
    destruct (negb (is_terminated g =? 0)); [discriminate H |].
    destruct (_ <? _)%float; [discriminate H |].
    injection H as ->.
    destruct source, dest; try congruence; simpl in *;
      rewrite (long_wrap_id _ Hrange); auto. }
  split; [exact Hpost |].
  intros Hne Hfree Hflag Hfunds.
  pose proof (transfer_funds_returns t source dest g Hne Hfree) as Hret.
  unfold transfer_effect in Hret. rewrite Hflag, Hfunds in Hret. cbn [Z.eqb negb] in Hret.
  eexists. split; [exact Hret |]. apply Hpost. exact Hret.
Qed.

Lemma transfer_success_postcondition_witness :
  exists g',
    transfer_funds T1 Account1 Account2 (init_globals 100 30 50 40 10 5) = Some (0, g') /\
    balance (account1 g') = 70%float /\ balance (account2 g') = 80%float /\
    successful_transfers (account1 g') = 1 /\ successful_transfers (account2 g') = 0.
Proof.
  assert (Hr : in_long (successful_transfers (deref Account1 (init_globals 100 30 50 40 10 5)) + 1))
    by (unfold in_long, LONG_MIN, LONG_MAX; simpl; lia).
  destruct (proj2 (transfer_success_postcondition T1 Account1 Account2
                     (init_globals 100 30 50 40 10 5) Hr))
    as (g' & Hcall & Hs & Hd & Hc & Hk);
    [discriminate | split; reflexivity | reflexivity | reflexivity |].
  exists g'. split; [exact Hcall |]. cbn [deref] in Hs, Hd, Hc, Hk.
  rewrite Hs, Hd, Hc, Hk. repeat split.
Defined.



(** ** The record of a successful transfer *)

(** C9, as stated, fails: after the transfer of 30 from an account holding
    100 to one holding 50 the record shows 30 and 70, the source's new
    balance, and not the 80 the destination now holds. *)
Lemma success_record_omits_destination_balance :
  option_map (fun p => (fst p, stdout (snd p), balance (account2 (snd p)),
                        map (fun o => shows o (balance (account2 (snd p)))) (stdout (snd p))))
             (transfer_funds T1 Account1 Account2 (init_globals 100 30 50 40 10 5))
  = Some (0, [OutSuccess 1 2 30 1 70], 80%float, [false]).
Proof. reflexivity. Qed.

(** C9, amended.  The record of a successful transfer holds the source
    id, the destination id, the amount moved and, labelled with the source
    id, the new balance of the source account. *)
Theorem success_record_contents
  (t : tid) (source dest : acct_ptr) (g g' : globals) :
  transfer_funds t source dest g = Some (0, g') ->
  stdout g' = stdout g ++
    [OutSuccess (id (deref source g)) (id (deref dest g))
       (transfer_amount (deref source g))
       (id (deref source g)) (balance (deref source g'))].
Proof.
  intros H. apply transfer_funds_effect in H as (Hne & _ & H).
  unfold transfer_effect in H.
  destruct (negb (is_terminated g =? 0)); [discriminate H |].
  destruct (_ <? _)%float; [discriminate H |].
  injection H as ->.
  destruct source, dest; try congruence; reflexivity.
Qed.

Lemma success_record_contents_witness :
  transfer_funds T2 Account2 Account1 (init_globals 100 30 50 40 10 5)
  = Some (transfer_effect T2 Account2 Account1 (init_globals 100 30 50 40 10 5)) /\
  stdout (snd (transfer_effect T2 Account2 Account1 (init_globals 100 30 50 40 10 5)))
  = [OutSuccess 2 1 40 2 10].
Proof.
  split; [reflexivity |].
  exact (success_record_contents T2 Account2 Account1 (init_globals 100 30 50 40 10 5)
           (snd (transfer_effect T2 Account2 Account1 (init_globals 100 30 50 40 10 5)))
           eq_refl).
Defined.

(** ** Binary64 arithmetic

    What the proofs need of [double] subtraction, addition and
    comparison, from the specification of the primitive floats. *)
Section Binary64.

Local Open Scope float_scope.

Lemma Prim2SF_zero : Prim2SF 0 = S754_zero false.
Proof. reflexivity. Qed.

Lemma Prim2SF_infinity : Prim2SF infinity = S754_infinity false.
Proof. reflexivity. Qed.

Lemma leb_zero_nonneg (x : float) : (0 <=? x) = true <-> SFnonneg (Prim2SF x).
Proof.
  rewrite FloatAxioms.leb_spec, Prim2SF_zero. unfold SFleb, SFnonneg.
  destruct (Prim2SF x) as [s | s | | s m e]; simpl; try destruct s; simpl;
    split; intros H; try reflexivity; try discriminate H; try exact I; try contradiction.
Qed.

Lemma is_finite_spec (x : float) :
  is_finite x = true ->
  match Prim2SF x with
  | S754_zero _ | S754_finite _ _ _ => True
  | _ => False
  end.
Proof.
  unfold is_finite, is_nan, is_infinity.
  rewrite !FloatAxioms.eqb_spec, abs_spec, Prim2SF_infinity. unfold SFeqb.
  destruct (Prim2SF x) as [s | s | | s m e]; simpl; try destruct s; simpl;
    intros H; try discriminate H; exact I.
Qed.

Lemma SFeqb_finite (s1 s2 : bool) (m1 m2 : positive) (e1 e2 : Z) :
  SFeqb (S754_finite s1 m1 e1) (S754_finite s2 m2 e2) = true ->
  s1 = s2 /\ m1 = m2 /\ e1 = e2.
Proof.
  unfold SFeqb, SFcompare.
  destruct s1, s2; try discriminate;
    destruct (Z.compare_spec e1 e2); try discriminate;
    destruct (Pos.compare_cont Eq m1 m2) eqn:E; try discriminate;
    intros _; apply Pos.compare_eq in E; auto.
Qed.

(** A finite [double] minus an equal one is zero. *)
Lemma sub_equal_is_zero (x y : float) :
  is_finite x = true -> (x =? y) = true -> (x - y =? 0) = true.
Proof.
  intros Hfin Heq. apply is_finite_spec in Hfin.
  rewrite FloatAxioms.eqb_spec in Heq. rewrite FloatAxioms.eqb_spec, sub_spec, Prim2SF_zero.
  unfold SF64sub.
  destruct (Prim2SF x) as [s | s | | s m e]; try contradiction;
    destruct (Prim2SF y) as [s' | s' | | s' m' e'].
  - destruct s, s'; reflexivity.
  - destruct s, s'; discriminate Heq.
  - discriminate Heq.
  - destruct s, s'; discriminate Heq.
  - destruct s, s'; discriminate Heq.
  - destruct s, s'; discriminate Heq.
  - discriminate Heq.
  - apply SFeqb_finite in Heq as (-> & -> & ->).
    unfold SFsub. rewrite Z.sub_diag. reflexivity.
Qed.

(** Rounding keeps the sign: what [binary_normalize] makes of a
    non-negative integer mantissa is not negative. *)
Lemma iter_pos_invariant {A : Type} (P : A -> Prop) (f : A -> A) :
  (forall y, P y -> P (f y)) -> forall n x, P x -> P (SpecFloat.iter_pos f n x).
Proof.
  intros Hf. induction n as [n IH | n IH |]; intros x Hx; simpl; auto.
Qed.

Lemma shr_1_nonneg (mrs : shr_record) :
  (0 <= shr_m mrs)%Z -> (0 <= shr_m (shr_1 mrs))%Z.
Proof.
  destruct mrs as [m r s]. simpl.
  destruct m as [| p | p]; try destruct p; simpl; lia.
Qed.

Lemma shr_fexp_nonneg (m e : Z) (l : location) :
  (0 <= m)%Z -> (0 <= shr_m (fst (shr_fexp prec emax m e l)))%Z.
Proof.
  intros Hm. unfold shr_fexp, shr.
  assert (H0 : (0 <= shr_m (shr_record_of_loc m l))%Z)
    by (destruct l as [| []]; exact Hm).
  destruct (fexp prec emax (Zdigits2 m + e) - e)%Z; simpl; auto.
  now apply (iter_pos_invariant (fun r => (0 <= shr_m r)%Z) shr_1 shr_1_nonneg).
Qed.

Lemma round_nearest_even_nonneg (m : Z) (l : location) :
  (0 <= m)%Z -> (0 <= round_nearest_even m l)%Z.
Proof.
  intros Hm. destruct l as [| []]; simpl; try lia.
  destruct (Z.even m); lia.
Qed.

Lemma binary_round_aux_nonneg (m e : Z) (l : location) :
  (0 <= m)%Z -> SFnonneg (binary_round_aux prec emax false m e l).
Proof.
  intros Hm. unfold binary_round_aux.
  pose proof (shr_fexp_nonneg m e l Hm) as H1.
  destruct (shr_fexp prec emax m e l) as [mrs' e']. simpl in H1.
  pose proof (shr_fexp_nonneg _ e' loc_Exact
                (round_nearest_even_nonneg _ (loc_of_shr_record mrs') H1)) as H2.
  destruct (shr_fexp prec emax _ e' loc_Exact) as [mrs'' e'']. simpl in H2.
  destruct (shr_m mrs'') as [| p | p]; simpl; auto; try lia.
  destruct (_ <=? _)%Z; simpl; reflexivity.
Qed.

Lemma binary_normalize_nonneg (m e : Z) :
  (0 <= m)%Z -> SFnonneg (binary_normalize prec emax m e false).
Proof.
  intros Hm. destruct m as [| p | p]; simpl; [exact I | | lia].
  unfold binary_round.
  destruct (shl_align p e _) as [mz ez].
  apply binary_round_aux_nonneg. lia.
Qed.

(** The sum of two [double]s that are not negative is not negative. *)
Lemma add_nonneg (x y : float) :
  (0 <=? x) = true -> (0 <=? y) = true -> (0 <=? x + y) = true.
Proof.
  rewrite !leb_zero_nonneg, add_spec. unfold SF64add.
  destruct (Prim2SF x) as [s | s | | s m e]; try contradiction;
    destruct (Prim2SF y) as [s' | s' | | s' m' e']; try contradiction;
    intros Hx Hy; simpl in Hx, Hy; subst; try exact I; try reflexivity.
  - destruct s, s'; exact I.
  - change (SFnonneg (binary_normalize prec emax
                        (Z.pos (fst (shl_align m e (Z.min e e'))) +
                         Z.pos (fst (shl_align m' e' (Z.min e e'))))%Z
                        (Z.min e e') false)).
    apply binary_normalize_nonneg. lia.
Qed.

(** Mantissas and exponents of valid [double]s. *)
Lemma digits2_pos_bounds (m : positive) :
  (2 ^ (Z.pos (digits2_pos m) - 1) <= Z.pos m < 2 ^ Z.pos (digits2_pos m))%Z.
Proof.
  induction m as [m IH | m IH |]; simpl digits2_pos.
  - rewrite Pos2Z.inj_succ.
    replace (Z.succ (Z.pos (digits2_pos m)) - 1)%Z with (Z.succ (Z.pos (digits2_pos m) - 1))%Z by lia.
    rewrite !Z.pow_succ_r by lia. lia.
  - rewrite Pos2Z.inj_succ.
    replace (Z.succ (Z.pos (digits2_pos m)) - 1)%Z with (Z.succ (Z.pos (digits2_pos m) - 1))%Z by lia.
    rewrite !Z.pow_succ_r by lia. lia.
  - simpl. lia.
Qed.

Lemma iter_xO_pow (m d : positive) :
  Z.pos (Pos.iter xO m d) = (Z.pos m * 2 ^ Z.pos d)%Z.
Proof.
  induction d as [| d IH] using Pos.peano_ind.
  - simpl. lia.
  - rewrite Pos.iter_succ, Pos2Z.inj_succ, Z.pow_succ_r by lia.
    rewrite Pos2Z.inj_xO, IH. lia.
Qed.

Lemma shl_align_fst (m : positive) (e e' : Z) :
  (e' <= e)%Z -> Z.pos (fst (shl_align m e e')) = (Z.pos m * 2 ^ (e - e'))%Z.
Proof.
  intros Hle. unfold shl_align.
  destruct (e' - e)%Z as [| d | d] eqn:E; simpl fst.
  - replace (e - e')%Z with 0%Z by lia. simpl. lia.
  - lia.
  - rewrite iter_xO_pow. f_equal. f_equal. lia.
Qed.

Lemma bounded_exponent (m : positive) (e : Z) :
  bounded prec emax m e = true ->
  (-1074 <= e)%Z /\ (Z.pos (digits2_pos m) <= 53)%Z /\
  (-1074 < e -> Z.pos (digits2_pos m) = 53)%Z.
Proof.
  unfold bounded, canonical_mantissa, fexp, SpecFloat.emin, prec, emax.
  intros H. apply andb_prop in H as [H _]. apply Z.eqb_eq in H. lia.
Qed.

(** Of two valid positive [double]s the one with the larger exponent is
    the larger, whatever the mantissas. *)
Lemma larger_exponent_larger_value (m m' : positive) (e e' : Z) :
  bounded prec emax m e = true -> bounded prec emax m' e' = true ->
  (e' < e)%Z -> (Z.pos m' < Z.pos m * 2 ^ (e - e'))%Z.
Proof.
  intros Hb Hb' Hlt.
  apply bounded_exponent in Hb as (_ & _ & Hd).
  apply bounded_exponent in Hb' as (He' & Hd' & _).
  pose proof (digits2_pos_bounds m) as [Hlo _].
  pose proof (digits2_pos_bounds m') as [_ Hhi].
  rewrite Hd in Hlo by lia. simpl in Hlo.
  assert (Hp : (Z.pos m' < 2 ^ 53)%Z).
  { eapply Z.lt_le_trans; [exact Hhi |]. apply Z.pow_le_mono_r; lia. }
  assert (H2 : (2 ^ 1 <= 2 ^ (e - e'))%Z) by (apply Z.pow_le_mono_r; lia).
  change (2 ^ 1)%Z with 2%Z in H2. change (2 ^ 53)%Z with (2 * 2 ^ 52)%Z in Hp.
  nia.
Qed.

Lemma SFltb_false_aligned (m m' : positive) (e e' : Z) :
  bounded prec emax m e = true -> bounded prec emax m' e' = true ->
  SFltb (S754_finite false m e) (S754_finite false m' e') = false ->
  (Z.pos (fst (shl_align m' e' (Z.min e e'))) <=
   Z.pos (fst (shl_align m e (Z.min e e'))))%Z.
Proof.
  intros Hb Hb' Hlt. unfold SFltb, SFcompare in Hlt.
  rewrite !shl_align_fst by lia.
  destruct (Z.compare_spec e e') as [-> | He | He]; try discriminate Hlt.
  - rewrite Z.min_id, Z.sub_diag. simpl.
    destruct (Pos.compare_cont Eq m m') eqn:E; try discriminate Hlt.
    + apply Pos.compare_eq in E. subst. lia.
    + change (Pos.compare m m' = Gt) in E. apply Pos.compare_gt_iff in E. lia.
  - rewrite Z.min_r by lia. rewrite Z.sub_diag. simpl (2 ^ 0)%Z.
    pose proof (larger_exponent_larger_value m m' e e' Hb Hb' He). lia.
Qed.

(** A [double] that is not negative, minus a finite one it is not less
    than, is not negative. *)
Lemma sub_nonneg (x y : float) :
  (0 <=? x) = true -> is_finite y = true -> (x <? y) = false ->
  (0 <=? x - y) = true.
Proof.
  intros Hx Hy Hlt. apply is_finite_spec in Hy.
  pose proof (Prim2SF_valid x) as Vx. pose proof (Prim2SF_valid y) as Vy.
  rewrite leb_zero_nonneg in Hx. rewrite FloatAxioms.ltb_spec in Hlt.
  rewrite leb_zero_nonneg, sub_spec. unfold SF64sub.
  destruct (Prim2SF x) as [s | s | | s m e]; try contradiction;
    destruct (Prim2SF y) as [s' | s' | | s' m' e']; try contradiction;
    simpl in Hx; subst; try exact I; try reflexivity.
  - destruct s, s'; exact I.
  - destruct s'; [reflexivity | discriminate Hlt].
  - destruct s'.
    + change (SFnonneg (binary_normalize prec emax
                          (Z.pos (fst (shl_align m e (Z.min e e'))) -
                           Z.neg (fst (shl_align m' e' (Z.min e e'))))%Z
                          (Z.min e e') false)).
      apply binary_normalize_nonneg. lia.
    + change (SFnonneg (binary_normalize prec emax
                          (Z.pos (fst (shl_align m e (Z.min e e'))) -
                           Z.pos (fst (shl_align m' e' (Z.min e e'))))%Z
                          (Z.min e e') false)).
      apply binary_normalize_nonneg.
      pose proof (SFltb_false_aligned m m' e e' Vx Vy Hlt). lia.
Qed.

End Binary64.

(** ** Whole amounts

    A [double] holds every integer from 0 to 2^53 exactly, and adds,
    subtracts and compares them as integers. *)
Section WholeAmounts.

Local Open Scope Z_scope.

Lemma digits2_pos_unique (m : positive) (d : Z) :
  2 ^ (d - 1) <= Z.pos m < 2 ^ d -> Z.pos (digits2_pos m) = d.
Proof.
  intros [Hlo Hhi]. pose proof (digits2_pos_bounds m) as [Hlo' Hhi'].
  destruct (Z.lt_trichotomy (Z.pos (digits2_pos m)) d) as [H | [H | H]]; [| exact H |].
  - assert (2 ^ Z.pos (digits2_pos m) <= 2 ^ (d - 1)) by (apply Z.pow_le_mono_r; lia). lia.
  - assert (0 < d).
    { destruct (Z_lt_le_dec 0 d); [assumption |].
      rewrite (Z.pow_neg_r 2 (d - 1)) in Hlo by lia.
      destruct (Z.eq_dec d 0) as [-> | ?]; [simpl in Hhi; lia |].
      rewrite (Z.pow_neg_r 2 d) in Hhi by lia. lia. }
    assert (2 ^ d <= 2 ^ (Z.pos (digits2_pos m) - 1)) by (apply Z.pow_le_mono_r; lia). lia.
Qed.

Lemma digits2_pos_shift (m : positive) (k : Z) (q : positive) :
  0 <= k -> Z.pos q = Z.pos m * 2 ^ k ->
  Z.pos (digits2_pos q) = Z.pos (digits2_pos m) + k.
Proof.
  intros Hk Hq. apply digits2_pos_unique.
  pose proof (digits2_pos_bounds m) as [Hlo Hhi].
  replace (Z.pos (digits2_pos m) + k - 1) with ((Z.pos (digits2_pos m) - 1) + k) by lia.
  rewrite !Z.pow_add_r by lia. rewrite Hq.
  assert (0 < 2 ^ k) by (apply Z.pow_pos_nonneg; lia). nia.
Qed.

Lemma whole_mantissa_value (n : positive) :
  Z.pos (digits2_pos n) <= 53 ->
  Z.pos (whole_mantissa n) = Z.pos n * 2 ^ (53 - Z.pos (digits2_pos n)).
Proof.
  intros Hd. unfold whole_mantissa.
  destruct (53 - Z.pos (digits2_pos n)) as [| k | k] eqn:E; try lia.
  apply iter_xO_pow.
Qed.

Lemma whole_bounded (n : positive) :
  Z.pos (digits2_pos n) <= 53 ->
  bounded prec emax (whole_mantissa n) (whole_exponent n) = true.
Proof.
  intros Hd.
  pose proof (digits2_pos_shift n (53 - Z.pos (digits2_pos n)) (whole_mantissa n)
                ltac:(lia) (whole_mantissa_value n Hd)) as Hdig.
  unfold bounded, canonical_mantissa, fexp, SpecFloat.emin, whole_exponent, prec, emax.
  apply andb_true_intro. split; [apply Z.eqb_eq | apply Z.leb_le]; lia.
Qed.

Lemma iter_pos_eq {A : Type} (f : A -> A) (n : positive) (x : A) :
  SpecFloat.iter_pos f n x = Pos.iter f x n.
Proof.
  revert x. induction n as [n IH | n IH |]; intros x; simpl.
  - rewrite !IH. now rewrite <- !Pos.iter_swap.
  - now rewrite !IH.
  - reflexivity.
Qed.

Lemma shr_exact (m j : positive) :
  SpecFloat.iter_pos shr_1 j (Build_shr_record (Z.pos (Pos.iter xO m j)) false false)
  = Build_shr_record (Z.pos m) false false.
Proof.
  rewrite iter_pos_eq.
  induction j as [| j IH] using Pos.peano_ind.
  - reflexivity.
  - rewrite Pos.iter_succ, <- Pos.iter_swap, Pos.iter_succ. simpl shr_1.
    exact IH.
Qed.

(** Rounding leaves a mantissa that is already in place as it is. *)
Lemma shr_fexp_bounded (m : positive) (e : Z) :
  bounded prec emax m e = true ->
  shr_fexp prec emax (Z.pos m) e loc_Exact = (Build_shr_record (Z.pos m) false false, e).
Proof.
  intros Hb. unfold shr_fexp, shr. simpl Zdigits2.
  unfold bounded, canonical_mantissa in Hb.
  apply andb_prop in Hb as [Hc _]. apply Z.eqb_eq in Hc.
  rewrite Hc, Z.sub_diag. reflexivity.
Qed.

Lemma binary_round_aux_exact (s : bool) (mx ex : Z) (m : positive) (e : Z) :
  shr_fexp prec emax mx ex loc_Exact = (Build_shr_record (Z.pos m) false false, e) ->
  bounded prec emax m e = true ->
  binary_round_aux prec emax s mx ex loc_Exact = S754_finite s m e.
Proof.
  intros Hs Hb. unfold binary_round_aux. rewrite Hs.
  cbn [loc_of_shr_record round_nearest_even shr_m].
  rewrite (shr_fexp_bounded m e Hb). cbn [shr_m].
  unfold bounded in Hb. apply andb_prop in Hb as [_ Hb]. now rewrite Hb.
Qed.

Lemma binary_round_aux_bounded (s : bool) (m : positive) (e : Z) :
  bounded prec emax m e = true ->
  binary_round_aux prec emax s (Z.pos m) e loc_Exact = S754_finite s m e.
Proof.
  intros Hb. apply binary_round_aux_exact; [now apply shr_fexp_bounded | exact Hb].
Qed.

(** A whole number below 2^53, scaled by a power of two, rounds to
    itself. *)
Lemma binary_round_whole (n q : positive) (k : Z) :
  Z.pos (digits2_pos n) <= 53 -> 0 <= k -> Z.pos q = Z.pos n * 2 ^ k ->
  binary_round prec emax false q (- k) = SFwhole (Z.pos n).
Proof.
  intros Hd Hk Hq.
  pose proof (digits2_pos_shift n k q Hk Hq) as Hdq.
  pose proof (whole_bounded n Hd) as Hb.
  pose proof (whole_mantissa_value n Hd) as Hm.
  unfold binary_round. rewrite Hdq.
  replace (fexp prec emax (Z.pos (digits2_pos n) + k + - k)) with (whole_exponent n)
    by (unfold fexp, SpecFloat.emin, whole_exponent, prec, emax; lia).
  unfold shl_align.
  destruct (whole_exponent n - - k) as [| j | j] eqn:E.
  - assert (Hqm : q = whole_mantissa n).
    { apply Pos2Z.inj. rewrite Hm, Hq. f_equal. f_equal. unfold whole_exponent in E. lia. }
    replace (- k) with (whole_exponent n) by lia. rewrite Hqm.
    now apply binary_round_aux_bounded.
  - assert (Hqm : q = Pos.iter xO (whole_mantissa n) j).
    { apply Pos2Z.inj. rewrite iter_xO_pow, Hm, Hq, <- Z.mul_assoc, <- Z.pow_add_r by lia.
      f_equal. f_equal. unfold whole_exponent in E. lia. }
    apply binary_round_aux_exact; [| exact Hb].
    unfold shr_fexp, shr. simpl Zdigits2. rewrite Hdq.
    replace (fexp prec emax (Z.pos (digits2_pos n) + k + - k) - - k) with (Z.pos j)
      by (unfold fexp, SpecFloat.emin, prec, emax; unfold whole_exponent in E; lia).
    simpl shr_record_of_loc. rewrite Hqm, shr_exact. f_equal. lia.
  - assert (Hqm : Pos.iter xO q j = whole_mantissa n).
    { apply Pos2Z.inj. rewrite iter_xO_pow, Hm, Hq, <- Z.mul_assoc, <- Z.pow_add_r by lia.
      f_equal. f_equal. unfold whole_exponent in E. lia. }
    rewrite Hqm. now apply binary_round_aux_bounded.
Qed.

Lemma digits_below_2_53 (n : positive) : Z.pos n < 2 ^ 53 -> Z.pos (digits2_pos n) <= 53.
Proof.
  intros Hn. pose proof (digits2_pos_bounds n) as [Hlo _].
  destruct (Z_le_gt_dec (Z.pos (digits2_pos n)) 53) as [H | H]; [exact H |].
  assert (2 ^ 53 <= 2 ^ (Z.pos (digits2_pos n) - 1)) by (apply Z.pow_le_mono_r; lia). lia.
Qed.

Lemma Prim2SF_of_whole (n : Z) :
  0 <= n < 2 ^ 53 -> Prim2SF (of_whole n) = SFwhole n.
Proof.
  intros Hn. unfold of_whole. rewrite of_uint63_spec, Uint63.of_Z_spec.
  rewrite Z.mod_small by (change Uint63.wB with (2 ^ 63); lia).
  destruct n as [| p | p]; [reflexivity | | lia].
  change (binary_round prec emax false p (- 0) = SFwhole (Z.pos p)).
  apply binary_round_whole; [apply digits_below_2_53; lia | lia | simpl; lia].
Qed.

(** The aligned mantissa of a whole number. *)
Lemma whole_aligned (n : positive) (k : Z) :
  Z.pos (digits2_pos n) <= 53 -> 53 - Z.pos (digits2_pos n) <= k ->
  Z.pos (fst (shl_align (whole_mantissa n) (whole_exponent n) (- k))) = Z.pos n * 2 ^ k.
Proof.
  intros Hd Hk. rewrite shl_align_fst by (unfold whole_exponent; lia).
  rewrite whole_mantissa_value, <- Z.mul_assoc, <- Z.pow_add_r
    by (unfold whole_exponent; lia).
  f_equal. f_equal. unfold whole_exponent. lia.
Qed.

Lemma SFadd_whole (a b : Z) :
  0 <= a -> 0 <= b -> a + b < 2 ^ 53 ->
  SFadd prec emax (SFwhole a) (SFwhole b) = SFwhole (a + b).
Proof.
  intros Ha Hb Hab.
  destruct a as [| p | p]; destruct b as [| q | q]; try lia; try reflexivity.
  pose proof (digits_below_2_53 p ltac:(lia)) as Hp.
  pose proof (digits_below_2_53 q ltac:(lia)) as Hq.
  set (k := - Z.min (whole_exponent p) (whole_exponent q)).
  assert (Hk : Z.min (whole_exponent p) (whole_exponent q) = - k) by (unfold k; lia).
  change (binary_normalize prec emax
            (Z.pos (fst (shl_align (whole_mantissa p) (whole_exponent p)
                           (Z.min (whole_exponent p) (whole_exponent q)))) +
             Z.pos (fst (shl_align (whole_mantissa q) (whole_exponent q)
                           (Z.min (whole_exponent p) (whole_exponent q)))))
            (Z.min (whole_exponent p) (whole_exponent q)) false
          = SFwhole (Z.pos p + Z.pos q)).
  rewrite Hk.
  rewrite !whole_aligned by (unfold k, whole_exponent; lia).
  rewrite <- Z.mul_add_distr_r.
  assert (H2 : 0 < 2 ^ k) by (apply Z.pow_pos_nonneg; unfold k, whole_exponent; lia).
  destruct ((Z.pos p + Z.pos q) * 2 ^ k) as [| r | r] eqn:E; try lia.
  simpl binary_normalize.
  change (Z.pos p + Z.pos q) with (Z.pos (p + q)) in *.
  apply binary_round_whole;
    [apply digits_below_2_53; lia | unfold k, whole_exponent; lia | now rewrite E].
Qed.

Lemma SFsub_whole (a b : Z) :
  0 <= b <= a -> a < 2 ^ 53 ->
  SFsub prec emax (SFwhole a) (SFwhole b) = SFwhole (a - b).
Proof.
  intros Hb Ha.
  destruct a as [| p | p]; destruct b as [| q | q]; try lia; try reflexivity.
  pose proof (digits_below_2_53 p ltac:(lia)) as Hp.
  pose proof (digits_below_2_53 q ltac:(lia)) as Hq.
  set (k := - Z.min (whole_exponent p) (whole_exponent q)).
  assert (Hk : Z.min (whole_exponent p) (whole_exponent q) = - k) by (unfold k; lia).
  change (binary_normalize prec emax
            (Z.pos (fst (shl_align (whole_mantissa p) (whole_exponent p)
                           (Z.min (whole_exponent p) (whole_exponent q)))) -
             Z.pos (fst (shl_align (whole_mantissa q) (whole_exponent q)
                           (Z.min (whole_exponent p) (whole_exponent q)))))
            (Z.min (whole_exponent p) (whole_exponent q)) false
          = SFwhole (Z.pos p - Z.pos q)).
  rewrite Hk.
  rewrite !whole_aligned by (unfold k, whole_exponent; lia).
  rewrite <- Z.mul_sub_distr_r.
  assert (H2 : 0 < 2 ^ k) by (apply Z.pow_pos_nonneg; unfold k, whole_exponent; lia).
  destruct (Z.pos p - Z.pos q) as [| d | d] eqn:Ed; try lia.
  - reflexivity.
  - destruct (Z.pos d * 2 ^ k) as [| r | r] eqn:E; try lia.
    simpl binary_normalize.
    apply binary_round_whole;
      [apply digits_below_2_53; lia | unfold k, whole_exponent; lia | now rewrite E].
Qed.

Lemma SFltb_whole (a b : Z) :
  0 <= a < 2 ^ 53 -> 0 <= b < 2 ^ 53 ->
  SFltb (SFwhole a) (SFwhole b) = false -> b <= a.
Proof.
  intros Ha Hb H.
  destruct a as [| p | p]; destruct b as [| q | q]; try lia; try discriminate H.
  pose proof (digits_below_2_53 p ltac:(lia)) as Hp.
  pose proof (digits_below_2_53 q ltac:(lia)) as Hq.
  pose proof (SFltb_false_aligned _ _ _ _ (whole_bounded p Hp) (whole_bounded q Hq) H) as Hal.
  set (k := - Z.min (whole_exponent p) (whole_exponent q)) in *.
  assert (Hk : Z.min (whole_exponent p) (whole_exponent q) = - k) by (unfold k; lia).
  rewrite Hk in Hal.
  rewrite !whole_aligned in Hal by (unfold k, whole_exponent; lia).
  assert (H2 : 0 < 2 ^ k) by (apply Z.pow_pos_nonneg; unfold k, whole_exponent; lia).
  nia.
Qed.

(** Whole amounts add, subtract and compare exactly. *)
Lemma add_whole (a b : Z) :
  0 <= a -> 0 <= b -> a + b < 2 ^ 53 ->
  (of_whole a + of_whole b)%float = of_whole (a + b).
Proof.
  intros Ha Hb Hab. apply Prim2SF_inj.
  rewrite add_spec, !Prim2SF_of_whole by lia. now apply SFadd_whole.
Qed.

Lemma sub_whole (a b : Z) :
  0 <= b <= a -> a < 2 ^ 53 ->
  (of_whole a - of_whole b)%float = of_whole (a - b).
Proof.
  intros Hb Ha. apply Prim2SF_inj.
  rewrite sub_spec, !Prim2SF_of_whole by lia. now apply SFsub_whole.
Qed.

Lemma ltb_whole_false (a b : Z) :
  0 <= a < 2 ^ 53 -> 0 <= b < 2 ^ 53 ->
  (of_whole a <? of_whole b)%float = false -> b <= a.
Proof.
  intros Ha Hb. rewrite FloatAxioms.ltb_spec, !Prim2SF_of_whole by lia.
  now apply SFltb_whole.
Qed.

End WholeAmounts.

(** ** The funds check at its boundary *)

Lemma eqb_not_ltb (x y : float) : (x =? y)%float = true -> (x <? y)%float = false.
Proof.
  rewrite FloatAxioms.eqb_spec, FloatAxioms.ltb_spec. unfold SFeqb, SFltb.
  now destruct (SFcompare (Prim2SF x) (Prim2SF y)) as [[] |].
Qed.

Lemma ltb_leb (x y : float) : (x <? y)%float = true -> (x <=? y)%float = true.
Proof.
  rewrite FloatAxioms.leb_spec, FloatAxioms.ltb_spec. unfold SFleb, SFltb.
  now destruct (SFcompare (Prim2SF x) (Prim2SF y)) as [[] |].
Qed.

Lemma write_at_length (i : nat) (c : ascii) (buf : list ascii) :
  List.length (write_at i c buf) = List.length buf.
Proof.
  revert i. induction buf as [| x r IH]; intros [| j]; simpl; auto.
Qed.

Lemma store_bytes_length (bytes : list ascii) (i : nat) (buf : list ascii) :
  List.length (store_bytes i bytes buf) = List.length buf.
Proof.
  revert i buf. induction bytes as [| c r IH]; intros i buf; simpl; [reflexivity |].
  now rewrite IH, write_at_length.
Qed.

Lemma write_at_app (pre : list ascii) (c x : ascii) (post : list ascii) :
  write_at (List.length pre) c (pre ++ x :: post) = pre ++ c :: post.
Proof. induction pre as [| y r IH]; simpl; [reflexivity | now rewrite IH]. Qed.

(** Bytes stored from the start of a buffer that has room for them. *)
Lemma store_bytes_prefix (bytes pre buf : list ascii) :
  (List.length bytes <= List.length buf)%nat ->
  store_bytes (List.length pre) bytes (pre ++ buf)
  = pre ++ bytes ++ skipn (List.length bytes) buf.
Proof.
  revert pre buf. induction bytes as [| c r IH]; intros pre buf Hlen; simpl.
  - reflexivity.
  - destruct buf as [| x buf]; simpl in Hlen; [lia |].
    rewrite write_at_app.
    replace (pre ++ c :: buf) with ((pre ++ [c]) ++ buf) by (now rewrite <- app_assoc).
    replace (S (List.length pre)) with (List.length (pre ++ [c]))
      by (rewrite length_app; simpl; lia).
    rewrite IH by lia. now rewrite <- app_assoc.
Qed.

Lemma c_str_terminated (s : string) (rest : list ascii) :
  Forall (fun c => Ascii.eqb c NUL = false) (list_ascii_of_string s) ->
  c_str (list_ascii_of_string s ++ NUL :: rest) = s.
Proof.
  induction s as [| c s IH]; simpl; intros H.
  - reflexivity.
  - inversion H as [| ? ? Hc Hr]; subst. rewrite Hc. f_equal. now apply IH.
Qed.

Lemma stored_string_reads_back (s : string) (buf : list ascii) :
  (List.length (list_ascii_of_string s) < List.length buf)%nat ->
  Forall (fun c => Ascii.eqb c NUL = false) (list_ascii_of_string s) ->
  c_str (store_bytes 0 (list_ascii_of_string s ++ [NUL]) buf) = s.
Proof.
  intros Hlen Hnul.
  pose proof (store_bytes_prefix (list_ascii_of_string s ++ [NUL]) [] buf) as Hp.
  simpl in Hp. rewrite Hp by (rewrite length_app; simpl; lia).
  rewrite <- app_assoc. simpl. now apply c_str_terminated.
Qed.

(** The reason an actor stores reads back as the text it formatted. *)
Lemma snprintf_reason_reads_back (source : acct_ptr) (g : globals) :
  wf g ->
  c_str (termination_reason (snprintf_reason source g))
  = insufficient_funds_msg (id (deref source g)).
Proof.
  intros [H1 H2 Hbuf _ _]. unfold snprintf_reason, reason_bytes.
  cbn [termination_reason set_termination_reason].
  assert (Hid : id (deref source g) = 1 \/ id (deref source g) = 2)
    by (destruct source; simpl; auto).
  destruct Hid as [-> | ->].
  - change (snprintf_bytes 100 (insufficient_funds_msg 1))
      with (list_ascii_of_string (insufficient_funds_msg 1) ++ [NUL]).
    apply stored_string_reads_back; [rewrite Hbuf; vm_compute; lia |].
    vm_compute. repeat constructor.
  - change (snprintf_bytes 100 (insufficient_funds_msg 2))
      with (list_ascii_of_string (insufficient_funds_msg 2) ++ [NUL]).
    apply stored_string_reads_back; [rewrite Hbuf; vm_compute; lia |].
    vm_compute. repeat constructor.
Qed.

(** C5, as stated, fails for an infinite balance: the check lets the
    transfer of an infinite amount pass, and what is left is not 0 but
    not a number. *)
Lemma infinite_balance_leaves_nan :
  (balance (account1 (init_globals infinity infinity 50 40 10 5))
     =? transfer_amount (account1 (init_globals infinity infinity 50 40 10 5)))%float = true /\
  is_terminated (init_globals infinity infinity 50 40 10 5) = 0 /\
  option_map (fun p => (fst p, is_nan (balance (account1 (snd p))),
                        (balance (account1 (snd p)) =? 0)%float))
             (transfer_funds T1 Account1 Account2 (init_globals infinity infinity 50 40 10 5))
  = Some (0, true, false).
Proof. repeat split. Qed.

(** C5, amended.  With termination not signalled, a source whose finite
    balance equals its transfer amount is debited to exactly 0 by a
    successful transfer, and a source whose balance is less than the
    amount makes the call fail and record the insufficient funds of that
    account. *)
Theorem funds_check_boundary (t : tid) (source dest : acct_ptr) (g : globals) :
  wf g -> source <> dest -> both_free g -> is_terminated g = 0 ->
  (is_finite (balance (deref source g)) = true ->
   (balance (deref source g) =? transfer_amount (deref source g))%float = true ->
   exists g', transfer_funds t source dest g = Some (0, g') /\
              (balance (deref source g') =? 0)%float = true) /\
  ((balance (deref source g) <? transfer_amount (deref source g))%float = true ->
   exists g', transfer_funds t source dest g = Some (-1, g') /\
              is_terminated g' = 1 /\
              c_str (termination_reason g') = insufficient_funds_msg (id (deref source g)) /\
              accounts_kept g g').
Proof.
  intros Hwf Hne Hfree Hterm.
  rewrite (transfer_funds_returns t source dest g Hne Hfree).
  unfold transfer_effect. rewrite Hterm. simpl negb. cbv iota. split.
  - intros Hfin Heq. rewrite (eqb_not_ltb _ _ Heq).
    eexists. split; [reflexivity |].
    destruct source, dest; try congruence; simpl; now apply sub_equal_is_zero.
  - intros Hlt. rewrite Hlt. eexists. split; [reflexivity |].
    split; [reflexivity |]. split.
    + assert (Hwf' : wf (logged t g)) by (destruct Hwf; constructor; assumption).
      pose proof (snprintf_reason_reads_back source (logged t g) Hwf') as Hr.
      destruct source; exact Hr.
    + intros p. now destruct p.
Qed.

Lemma funds_check_boundary_witness :
  wf (init_globals 30 30 50 40 10 5) /\ Account1 <> Account2 /\
  both_free (init_globals 30 30 50 40 10 5) /\
  is_terminated (init_globals 30 30 50 40 10 5) = 0 /\
  is_finite (balance (deref Account1 (init_globals 30 30 50 40 10 5))) = true /\
  (balance (deref Account1 (init_globals 30 30 50 40 10 5))
     =? transfer_amount (deref Account1 (init_globals 30 30 50 40 10 5)))%float = true /\
  (exists g', transfer_funds T1 Account1 Account2 (init_globals 30 30 50 40 10 5) = Some (0, g') /\
              (balance (deref Account1 g') =? 0)%float = true).
Proof.
  assert (Hwf : wf (init_globals 30 30 50 40 10 5))
    by (constructor; simpl; unfold in_long, LONG_MIN, LONG_MAX; try reflexivity; lia).
  assert (Hne : Account1 <> Account2) by discriminate.
  assert (Hfree : both_free (init_globals 30 30 50 40 10 5)) by (split; reflexivity).
  repeat (split; [first [assumption | reflexivity] |]).
  destruct (funds_check_boundary T1 Account1 Account2 _ Hwf Hne Hfree eq_refl) as [H _].
  apply H; reflexivity.
Defined.

(** ** Sequences of operations *)

Lemma watchdog_accounts (g : globals) :
  account1 (watchdog g) = account1 g /\ account2 (watchdog g) = account2 g.
Proof. unfold watchdog. now destruct (is_terminated g =? 0). Qed.

(** An operation leaves the globals alone (a transfer whose mutexes are
    not free does not return), or is a transfer between the two accounts
    that returns, or is the watchdog. *)
Lemma apply_op_cases (o : op) (g : globals) :
  apply_op o g = g \/
  (exists t source dest, source <> dest /\
     apply_op o g = snd (transfer_effect t source dest g)) \/
  apply_op o g = watchdog g.
Proof.
  destruct o; simpl; auto.
  - destruct (transfer_funds T1 Account1 Account2 g) as [[r g'] |] eqn:E; auto.
    apply transfer_funds_effect in E as (Hne & _ & E).
    right; left. exists T1, Account1, Account2. split; [exact Hne |].
    now rewrite <- E.
  - destruct (transfer_funds T2 Account2 Account1 g) as [[r g'] |] eqn:E; auto.
    apply transfer_funds_effect in E as (Hne & _ & E).
    right; left. exists T2, Account2, Account1. split; [exact Hne |].
    now rewrite <- E.
Qed.

(** A property of the globals that transfers and the watchdog keep holds
    after every sequence of operations. *)
Lemma apply_ops_invariant (P : globals -> Prop) :
  (forall t source dest g, source <> dest -> P g ->
     P (snd (transfer_effect t source dest g))) ->
  (forall g, P g -> P (watchdog g)) ->
  forall ops g, P g -> P (apply_ops ops g).
Proof.
  intros Htr Hwd. unfold apply_ops.
  induction ops as [| o ops IH]; intros g Hg; simpl; [exact Hg |].
  apply IH.
  destruct (apply_op_cases o g) as [-> | [(t & s & d & Hne & ->) | ->]]; auto.
Qed.

Lemma wf_init (b1 a1 b2 a2 : float) (period deadline : Z) :
  wf (init_globals b1 a1 b2 a2 period deadline).
Proof.
  constructor; simpl; unfold in_long, LONG_MIN, LONG_MAX; try reflexivity; lia.
Qed.

Lemma long_wrap_in_long (z : Z) : in_long (long_wrap z).
Proof.
  unfold in_long, long_wrap, LONG_MIN, LONG_MAX.
  pose proof (Z.mod_pos_bound (z + 2 ^ 63) (2 ^ 64) ltac:(lia)). lia.
Qed.

Lemma wf_apply_ops (ops : list op) (g : globals) : wf g -> wf (apply_ops ops g).
Proof.
  apply apply_ops_invariant.
  - intros t source dest g0 Hne [H1 H2 Hb Hc1 Hc2]. unfold transfer_effect.
    destruct (negb (is_terminated g0 =? 0)); [constructor; assumption |].
    destruct (_ <? _)%float.
    + constructor; try assumption.
      unfold snprintf_reason.
      cbn [snd termination_reason set_is_terminated set_termination_reason].
      rewrite store_bytes_length. exact Hb.
    + destruct source, dest; try congruence; constructor; simpl; auto;
        apply long_wrap_in_long.
  - intros g0 [H1 H2 Hb Hc1 Hc2]. unfold watchdog.
    destruct (is_terminated g0 =? 0); constructor; try assumption.
    cbn [termination_reason set_is_terminated set_termination_reason].
    rewrite store_bytes_length. exact Hb.
Qed.

(** The mutexes are free between the operations of a sequence, so every
    transfer in it returns. *)
Lemma sequence_keeps_mutexes_free (ops : list op) (g : globals) :
  both_free g -> both_free (apply_ops ops g).
Proof.
  apply apply_ops_invariant.
  - intros t source dest g0 _. apply transfer_effect_free.
  - intros g0 [H1 H2]. destruct (watchdog_accounts g0) as [E1 E2].
    unfold both_free. now rewrite E1, E2.
Qed.

(** C4, as stated, fails: with balances 1.0 and 0.2 and a transfer amount
    of 0.1, one transfer from Account 1 to Account 2 changes the sum of
    the balances from 1.2 to 1.2000000000000002; the subtraction and the
    addition each round. *)
Lemma rounding_changes_the_total :
  total (init_globals 1 0.1 0.2 0.1 10 5) = 1.2%float /\
  total (apply_ops [Transfer12] (init_globals 1 0.1 0.2 0.1 10 5)) = 1.2000000000000002%float /\
  (total (apply_ops [Transfer12] (init_globals 1 0.1 0.2 0.1 10 5))
     =? total (init_globals 1 0.1 0.2 0.1 10 5))%float = false.
Proof. repeat split. Qed.

Lemma whole_state_transfer (k1 k2 sum : Z) (t : tid) (source dest : acct_ptr) (g : globals) :
  0 <= k1 < 2 ^ 53 -> 0 <= k2 < 2 ^ 53 -> sum < 2 ^ 53 ->
  source <> dest -> whole_state k1 k2 sum g ->
  whole_state k1 k2 sum (snd (transfer_effect t source dest g)).
Proof.
  intros Hk1 Hk2 Hsum Hne (Ha1 & Ha2 & m1 & m2 & Hm1 & Hm2 & Hs & Hb1 & Hb2).
  unfold transfer_effect.
  destruct (negb (is_terminated g =? 0));
    [split; [exact Ha1 |]; split; [exact Ha2 |]; exists m1, m2; auto |].
  destruct (_ <? _)%float eqn:Hlt;
    [split; [exact Ha1 |]; split; [exact Ha2 |]; exists m1, m2; auto |].
  destruct source, dest; try congruence; simpl in *.
  - rewrite Hb1, Ha1 in Hlt. apply ltb_whole_false in Hlt; try lia.
    split; [exact Ha1 |]. split; [exact Ha2 |].
    exists (m1 - k1), (m2 + k1). repeat split; try lia.
    + rewrite Hb1, Ha1. apply sub_whole; lia.
    + rewrite Hb2, Ha1. apply add_whole; lia.
  - rewrite Hb2, Ha2 in Hlt. apply ltb_whole_false in Hlt; try lia.
    split; [exact Ha1 |]. split; [exact Ha2 |].
    exists (m1 + k2), (m2 - k2). repeat split; try lia.
    + rewrite Hb1, Ha2. apply add_whole; lia.
    + rewrite Hb2, Ha2. apply sub_whole; lia.
Qed.

(** Whole amounts are conserved by every sequence of operations. *)
Lemma sequence_conserves_whole_amounts
  (n1 k1 n2 k2 period deadline : Z) (ops : list op) :
  0 <= n1 -> 0 <= n2 -> n1 + n2 < 2 ^ 53 -> 0 <= k1 < 2 ^ 53 -> 0 <= k2 < 2 ^ 53 ->
  total (apply_ops ops
           (init_globals (of_whole n1) (of_whole k1) (of_whole n2) (of_whole k2)
              period deadline))
  = of_whole (n1 + n2).
Proof.
  intros Hn1 Hn2 Hsum Hk1 Hk2.
  assert (H : whole_state k1 k2 (n1 + n2)
                (apply_ops ops
                   (init_globals (of_whole n1) (of_whole k1) (of_whole n2) (of_whole k2)
                      period deadline))).
  { apply apply_ops_invariant.
    - intros t source dest g Hne Hg. now apply whole_state_transfer.
    - intros g (Ha1 & Ha2 & Hex). destruct (watchdog_accounts g) as [E1 E2].
      unfold whole_state. now rewrite E1, E2.
    - split; [reflexivity |]. split; [reflexivity |]. exists n1, n2. auto. }
  destruct H as (_ & _ & m1 & m2 & Hm1 & Hm2 & Hs & Hb1 & Hb2).
  unfold total. rewrite Hb1, Hb2.
  rewrite add_whole by lia. now rewrite Hs.
Qed.

(** C10, as stated, fails: an infinite balance is not negative and an
    infinite amount is positive, and the transfer leaves a balance that is
    not a number, so not at least 0. *)
Lemma infinite_amount_breaks_nonnegativity :
  (0 <=? balance (account1 (init_globals infinity infinity 0 1 10 5)))%float = true /\
  (0 <=? balance (account2 (init_globals infinity infinity 0 1 10 5)))%float = true /\
  (0 <? transfer_amount (account1 (init_globals infinity infinity 0 1 10 5)))%float = true /\
  (0 <? transfer_amount (account2 (init_globals infinity infinity 0 1 10 5)))%float = true /\
  (0 <=? balance (account1 (apply_ops [Transfer12]
                              (init_globals infinity infinity 0 1 10 5))))%float = false.
Proof. repeat split. Qed.

(** Balances that start at 0 or above, with positive, finite transfer
    amounts, are at 0 or above after every sequence of operations. *)
Lemma sequence_balances_nonnegative
  (b1 a1 b2 a2 : float) (period deadline : Z) (ops : list op) :
  (0 <=? b1)%float = true -> (0 <=? b2)%float = true ->
  (0 <? a1)%float = true -> (0 <? a2)%float = true ->
  is_finite a1 = true -> is_finite a2 = true ->
  (0 <=? balance (account1 (apply_ops ops (init_globals b1 a1 b2 a2 period deadline))))%float
    = true /\
  (0 <=? balance (account2 (apply_ops ops (init_globals b1 a1 b2 a2 period deadline))))%float
    = true.
Proof.
  intros Hb1 Hb2 Ha1 Ha2 Hf1 Hf2.
  assert (H : nonneg_state a1 a2 (apply_ops ops (init_globals b1 a1 b2 a2 period deadline))).
  { apply apply_ops_invariant.
    - intros t source dest g Hne (E1 & E2 & H1 & H2). unfold transfer_effect.
      destruct (negb (is_terminated g =? 0)); [repeat split; assumption |].
      destruct (balance (deref source g) <? transfer_amount (deref source g))%float eqn:Hlt;
        [repeat split; assumption |].
      destruct source, dest; try congruence; simpl in *; repeat split; auto.
      + apply sub_nonneg; [assumption | now rewrite E1 | assumption].
      + apply add_nonneg; [assumption | rewrite E1; now apply ltb_leb].
      + apply add_nonneg; [assumption | rewrite E2; now apply ltb_leb].
      + apply sub_nonneg; [assumption | now rewrite E2 | assumption].
    - intros g (E1 & E2 & H1 & H2). destruct (watchdog_accounts g) as [W1 W2].
      unfold nonneg_state. now rewrite W1, W2.
    - repeat split; assumption. }
  destruct H as (_ & _ & H1 & H2). auto.
Qed.

(** ** The interleaved program *)

Lemma run_invariant (P : state -> Prop) :
  (forall t st st', P st -> step t st = Some st' -> P st') ->
  forall sched st st', P st -> run sched st = Some st' -> P st'.
Proof.
  intros Hstep. induction sched as [| t rest IH]; simpl; intros st st' HP Hrun.
  - injection Hrun as <-. exact HP.
  - destruct (step t st) as [st1 |] eqn:E; [| discriminate].
    eapply IH; [| exact Hrun]. eapply Hstep; eassumption.
Qed.

Lemma run_app (s1 s2 : list tid) (st : state) :
  run (s1 ++ s2) st = match run s1 st with
                      | Some st1 => run s2 st1
                      | None => None
                      end.
Proof.
  revert st. induction s1 as [| t rest IH]; simpl; intros st; [reflexivity |].
  destruct (step t st); [apply IH | reflexivity].
Qed.

(** *** The termination flag only ever goes up *)

Lemma actor_step_flag (t : tid) (pc pc' : actor_pc) (g g' : globals) evs :
  actor_step t pc g = Some (pc', g', evs) ->
  is_terminated g <> 0 -> is_terminated g' <> 0.
Proof.
  unfold actor_step, pthread_mutex_lock, pthread_mutex_unlock.
  destruct pc; intros H Hf;
    repeat match type of H with
           | context [if ?c then _ else _] => destruct c
           | context [match ?l with [] => _ | _ :: _ => _ end] => destruct l
           | context [match mutex ?a with Some _ => _ | None => _ end] => destruct (mutex a)
           end;
    try discriminate H; injection H as <- <- <-; try exact Hf;
    try (destruct (source_of t), (dest_of t); simpl; try exact Hf; lia);
    simpl; try exact Hf; try lia.
Qed.

Lemma main_step_flag (pc pc' : main_pc) (d1 d2 : bool) (g g' : globals) :
  main_step pc d1 d2 g = Some (pc', g') ->
  is_terminated g <> 0 -> is_terminated g' <> 0.
Proof.
  unfold main_step.
  destruct pc; intros H Hf;
    repeat match type of H with
           | context [if ?c then _ else _] => destruct c
           | context [match ?l with [] => _ | _ :: _ => _ end] => destruct l
           end;
    try discriminate H; injection H as <- <-; simpl; try exact Hf; lia.
Qed.

Lemma step_flag (t : tid) (st st' : state) :
  step t st = Some st' ->
  is_terminated (mem st) <> 0 -> is_terminated (mem st') <> 0.
Proof.
  unfold step, thread_transfer_1_to_2, thread_transfer_2_to_1. destruct t.
  - destruct (actor_step T1 (pc1 st) (mem st)) as [[[pc' g'] evs] |] eqn:E; [| discriminate].
    intros H; injection H as <-. simpl. eapply actor_step_flag; eassumption.
  - destruct (actor_step T2 (pc2 st) (mem st)) as [[[pc' g'] evs] |] eqn:E; [| discriminate].
    intros H; injection H as <-. simpl. eapply actor_step_flag; eassumption.
  - destruct (main_step _ _ _ _) as [[pc' g'] |] eqn:E; [| discriminate].
    intros H; injection H as <-. simpl. eapply main_step_flag; eassumption.
Qed.

Lemma flag_is_one_way (sched : list tid) (st st' : state) :
  run sched st = Some st' ->
  is_terminated (mem st) <> 0 -> is_terminated (mem st') <> 0.
Proof.
  intros Hrun Hf. revert Hrun.
  apply (run_invariant (fun s => is_terminated (mem s) <> 0)); [| exact Hf].
  intros t s s' Hs Hstep. eapply step_flag; eassumption.
Qed.

(** *** Who holds which mutex *)

Lemma lock_inv_start (g : globals) : both_free g -> lock_inv (init_state g).
Proof. intros [H1 H2] m. destruct m; simpl; auto. Qed.

Lemma main_step_accounts (pc pc' : main_pc) (d1 d2 : bool) (g g' : globals) :
  main_step pc d1 d2 g = Some (pc', g') ->
  account1 g' = account1 g /\ account2 g' = account2 g.
Proof.
  unfold main_step.
  destruct pc; intros H;
    repeat match type of H with
           | context [if ?c then _ else _] => destruct c
           | context [match ?l with [] => _ | _ :: _ => _ end] => destruct l
           end;
    try discriminate H; injection H as <- <-; auto.
Qed.

Ltac split_step H :=
  repeat match type of H with
         | context [if ?c then _ else _] => destruct c eqn:?
         | context [match ?l with [] => _ | _ :: _ => _ end] => destruct l
         end;
  try discriminate H.

Lemma lock_inv_actor_step (t : tid) (pc pc' : actor_pc) (g g' : globals) evs (other : actor_pc) :
  t <> TMain ->
  actor_step t pc g = Some (pc', g', evs) ->
  let u := match t with T1 => T2 | _ => T1 end in
  (forall m, mutex (deref m g) =
             (if holds t pc m then Some t else if holds u other m then Some u else None) /\
             holds t pc m && holds u other m = false) ->
  (forall m, mutex (deref m g') =
             (if holds t pc' m then Some t else if holds u other m then Some u else None) /\
             holds t pc' m && holds u other m = false).
Proof.
  intros Ht H u Hinv.
  pose proof (Hinv Account1) as [I1 X1]. pose proof (Hinv Account2) as [I2 X2].
  unfold actor_step, pthread_mutex_lock, pthread_mutex_unlock in H.
  destruct t; try congruence; subst u;
    destruct pc; simpl in *;
    destruct (holds _ other Account1) eqn:O1, (holds _ other Account2) eqn:O2;
    simpl in *; try discriminate;
    rewrite ?I1, ?I2 in H; simpl in H;
    split_step H; injection H as <- <- <-;
    intros m; destruct m; simpl; rewrite ?O1, ?O2, ?I1, ?I2; auto.
Qed.

Lemma lock_inv_step (t : tid) (st st' : state) :
  lock_inv st -> step t st = Some st' -> lock_inv st'.
Proof.
  intros Hinv. unfold step, thread_transfer_1_to_2, thread_transfer_2_to_1. destruct t.
  - destruct (actor_step T1 (pc1 st) (mem st)) as [[[pc' g'] evs] |] eqn:E; [| discriminate].
    intros H; injection H as <-.
    pose proof (lock_inv_actor_step T1 _ _ _ _ _ (pc2 st) ltac:(discriminate) E) as Hs.
    simpl in Hs. intros m. unfold owner_by_pc. simpl. apply Hs. exact Hinv.
  - destruct (actor_step T2 (pc2 st) (mem st)) as [[[pc' g'] evs] |] eqn:E; [| discriminate].
    intros H; injection H as <-.
    pose proof (lock_inv_actor_step T2 _ _ _ _ _ (pc1 st) ltac:(discriminate) E) as Hs.
    simpl in Hs. intros m. unfold owner_by_pc. simpl.
    assert (Hpre : forall m, mutex (deref m (mem st)) =
               (if holds T2 (pc2 st) m then Some T2
                else if holds T1 (pc1 st) m then Some T1 else None) /\
               holds T2 (pc2 st) m && holds T1 (pc1 st) m = false).
    { intros m0. destruct (Hinv m0) as [I X]. unfold owner_by_pc in I.
      rewrite I. rewrite andb_comm.
      destruct (holds T1 (pc1 st) m0), (holds T2 (pc2 st) m0); simpl in *;
        auto; discriminate. }
    destruct (Hs Hpre m) as [I X]. rewrite I. rewrite andb_comm.
    destruct (holds T1 (pc1 st) m), (holds T2 pc' m); simpl in *; auto; discriminate.
  - destruct (main_step _ _ _ _) as [[pc' g'] |] eqn:E; [| discriminate].
    intros H; injection H as <-.
    apply main_step_accounts in E as [E1 E2].
    intros m. destruct (Hinv m) as [I X]. unfold owner_by_pc in *. simpl.
    destruct m; simpl in *; rewrite ?E1, ?E2; auto.
Qed.

(** *** No deadlock *)

Lemma actor_step_never_waits (t : tid) (pc : actor_pc) (g : globals) :
  never_waits pc = true -> exists r, actor_step t pc g = Some r.
Proof.
  unfold actor_step. destruct pc; simpl; intros H; try discriminate H;
    repeat match goal with
           | |- context [if ?c then _ else _] => destruct c
           | |- context [match ?l with [] => _ | _ :: _ => _ end] => destruct l
           end; eauto.
Qed.

Lemma enabled_T1 (st : state) : never_waits (pc1 st) = true -> enabled T1 st.
Proof.
  intros H. destruct (actor_step_never_waits T1 (pc1 st) (mem st) H) as [[[pc' g'] evs] E].
  unfold enabled, step, thread_transfer_1_to_2. rewrite E. eauto.
Qed.

Lemma enabled_T2 (st : state) : never_waits (pc2 st) = true -> enabled T2 st.
Proof.
  intros H. destruct (actor_step_never_waits T2 (pc2 st) (mem st) H) as [[[pc' g'] evs] E].
  unfold enabled, step, thread_transfer_2_to_1. rewrite E. eauto.
Qed.

(** The watchdog is not held up before it has looked at the flag and,
    finding it clear, set it. *)
Lemma watchdog_not_held_up (st : state) :
  pcm st = MSleep \/ pcm st = MCheck \/ pcm st = MSetFlag -> enabled TMain st.
Proof.
  unfold enabled, step, main_step. intros [-> | [-> | ->]];
    try destruct (is_terminated (mem st) =? 0); eauto.
Qed.

Lemma progress (st : state) :
  lock_inv st -> finished st \/ exists t, enabled t st.
Proof.
  intros Hinv.
  destruct (never_waits (pc1 st)) eqn:N1;
    [right; exists T1; now apply enabled_T1 |].
  destruct (never_waits (pc2 st)) eqn:N2;
    [right; exists T2; now apply enabled_T2 |].
  pose proof (Hinv Account1) as [I1 _]. pose proof (Hinv Account2) as [I2 _].
  unfold owner_by_pc in I1, I2.
  unfold finished, enabled, step, thread_transfer_1_to_2, thread_transfer_2_to_1, actor_step, main_step,
    pthread_mutex_lock.
  destruct st as [g p1 p2 pm e1 e2]. simpl in *.
  destruct p1; try discriminate N1; destruct p2; try discriminate N2; simpl in *;
    try (right; exists T1; rewrite I1; simpl; eauto; fail);
    try (right; exists T2; rewrite I1; simpl; eauto; fail);
    try (right; exists T1; rewrite I2; simpl; eauto; fail);
    try (right; exists T2; rewrite I2; simpl; eauto; fail).
  destruct pm;
    try (right; exists TMain; simpl;
         repeat match goal with
                | |- context [if ?c then _ else _] => destruct c
                | |- context [match ?l with [] => _ | _ :: _ => _ end] => destruct l
                end; eauto; fail).
  left. auto.
Qed.

(** *** The steps left once the flag is set *)

Lemma reason_bytes_length (source : acct_ptr) (g : globals) :
  (List.length (reason_bytes source g) <= 100)%nat.
Proof.
  unfold reason_bytes, snprintf_bytes. rewrite length_app, length_firstn.
  change (List.length [NUL]) with 1%nat. lia.
Qed.

Lemma actor_step_bytes (t : tid) (pc pc' : actor_pc) (g g' : globals) evs :
  actor_step t pc g = Some (pc', g', evs) ->
  (forall i bytes, pc = PSnprintf i bytes -> (i + List.length bytes <= 100)%nat) ->
  (forall i bytes, pc' = PSnprintf i bytes -> (i + List.length bytes <= 100)%nat) /\
  List.length (termination_reason g') = List.length (termination_reason g).
Proof.
  unfold actor_step, pthread_mutex_lock, pthread_mutex_unlock.
  destruct pc; intros H Hb;
    repeat match type of H with
           | context [if ?c then _ else _] => destruct c
           | context [match ?l with [] => _ | _ :: _ => _ end] => destruct l
           | context [match mutex ?a with Some _ => _ | None => _ end] => destruct (mutex a)
           end;
    try discriminate H; injection H as <- <- <-;
    (split;
     [ intros i0 bytes0 Hpc; try discriminate Hpc
     | try reflexivity; try (destruct (source_of t), (dest_of t); reflexivity) ]).
  - injection Hpc as <- <-. apply reason_bytes_length.
  - injection Hpc as <- <-. specialize (Hb _ _ eq_refl). simpl in Hb. lia.
  - simpl. apply write_at_length.
Qed.

Lemma main_step_bytes (pc pc' : main_pc) (d1 d2 : bool) (g g' : globals) :
  main_step pc d1 d2 g = Some (pc', g') ->
  (forall i bytes, pc = MStrcpy i bytes -> (i + List.length bytes <= 24)%nat) ->
  (forall i bytes, pc' = MStrcpy i bytes -> (i + List.length bytes <= 24)%nat) /\
  List.length (termination_reason g') = List.length (termination_reason g).
Proof.
  unfold main_step.
  destruct pc; intros H Hb;
    repeat match type of H with
           | context [if ?c then _ else _] => destruct c
           | context [match ?l with [] => _ | _ :: _ => _ end] => destruct l
           end;
    try discriminate H; injection H as <- <-;
    (split; [intros i0 bytes0 Hpc; try discriminate Hpc | try reflexivity]).
  - injection Hpc as <- <-. simpl. lia.
  - injection Hpc as <- <-. specialize (Hb _ _ eq_refl). simpl in Hb. lia.
  - simpl. apply write_at_length.
Qed.

Lemma bytes_inv_step (t : tid) (st st' : state) :
  bytes_inv st -> step t st = Some st' -> bytes_inv st'.
Proof.
  intros (B1 & B2 & Bm & Bl). unfold step, thread_transfer_1_to_2, thread_transfer_2_to_1.
  destruct t.
  - destruct (actor_step T1 (pc1 st) (mem st)) as [[[pc' g'] evs] |] eqn:E; [| discriminate].
    intros H; injection H as <-.
    destruct (actor_step_bytes _ _ _ _ _ _ E B1) as [B1' Bl'].
    repeat split; simpl; auto. congruence.
  - destruct (actor_step T2 (pc2 st) (mem st)) as [[[pc' g'] evs] |] eqn:E; [| discriminate].
    intros H; injection H as <-.
    destruct (actor_step_bytes _ _ _ _ _ _ E B2) as [B2' Bl'].
    repeat split; simpl; auto. congruence.
  - destruct (main_step _ _ _ _) as [[pc' g'] |] eqn:E; [| discriminate].
    intros H; injection H as <-.
    destruct (main_step_bytes _ _ _ _ _ _ E Bm) as [Bm' Bl'].
    repeat split; simpl; auto. congruence.
Qed.

Lemma steps_left_bounded (st : state) : bytes_inv st -> (steps_left st <= overshoot_bound)%nat.
Proof.
  intros (B1 & B2 & Bm & _). unfold steps_left, overshoot_bound.
  assert (H1 : (actor_steps_left (pc1 st) <= 106)%nat).
  { destruct (pc1 st) eqn:E; simpl; try lia;
      try (destruct (ret =? 0); lia).
    specialize (B1 _ _ eq_refl). lia. }
  assert (H2 : (actor_steps_left (pc2 st) <= 106)%nat).
  { destruct (pc2 st) eqn:E; simpl; try lia;
      try (destruct (ret =? 0); lia).
    specialize (B2 _ _ eq_refl). lia. }
  assert (Hm : (main_steps_left (pcm st) <= 29)%nat).
  { destruct (pcm st) eqn:E; simpl; try lia. specialize (Bm _ _ eq_refl). lia. }
  lia.
Qed.

Lemma actor_step_decreases (t : tid) (pc pc' : actor_pc) (g g' : globals) evs :
  actor_step t pc g = Some (pc', g', evs) -> is_terminated g <> 0 ->
  (actor_steps_left pc' < actor_steps_left pc)%nat.
Proof.
  unfold actor_step, pthread_mutex_lock. intros H Hf.
  assert (Hz : (is_terminated g =? 0) = false) by now apply Z.eqb_neq.
  pose proof (reason_bytes_length (source_of t) g) as Hlen.
  destruct pc; rewrite ?Hz in H; change (negb false) with true in H; cbv iota in H;
    repeat match type of H with
           | context [if negb (?r =? 0) then _ else _] =>
               destruct (r =? 0) eqn:?; cbn [negb] in H; cbv iota in H
           | context [if ?c then _ else _] => destruct c
           | context [match ?l with [] => _ | _ :: _ => _ end] => destruct l
           | context [match mutex ?a with Some _ => _ | None => _ end] => destruct (mutex a)
           end;
    try discriminate H; injection H as <- <- <-;
    cbn [actor_steps_left List.length]; change (-1 =? 0) with false; cbv iota;
    repeat match goal with
           | E : (?r =? 0) = _ |- context [?r =? 0] => rewrite E
           | |- context [if ?c then _ else _] => destruct c
           end;
    lia.
Qed.

Lemma main_step_decreases (pc pc' : main_pc) (d1 d2 : bool) (g g' : globals) :
  main_step pc d1 d2 g = Some (pc', g') -> is_terminated g <> 0 ->
  (main_steps_left pc' < main_steps_left pc)%nat.
Proof.
  unfold main_step. intros H Hf.
  assert (Hz : (is_terminated g =? 0) = false) by now apply Z.eqb_neq.
  destruct pc; rewrite ?Hz in H;
    repeat match type of H with
           | context [if ?c then _ else _] => destruct c
           | context [match ?l with [] => _ | _ :: _ => _ end] => destruct l
           end;
    try discriminate H; injection H as <- <-; simpl; lia.
Qed.

Lemma step_decreases (t : tid) (st st' : state) :
  step t st = Some st' -> is_terminated (mem st) <> 0 ->
  (steps_left st' < steps_left st)%nat.
Proof.
  unfold step, thread_transfer_1_to_2, thread_transfer_2_to_1, steps_left. destruct t.
  - destruct (actor_step T1 (pc1 st) (mem st)) as [[[pc' g'] evs] |] eqn:E; [| discriminate].
    intros H Hf; injection H as <-. simpl.
    pose proof (actor_step_decreases _ _ _ _ _ _ E Hf). lia.
  - destruct (actor_step T2 (pc2 st) (mem st)) as [[[pc' g'] evs] |] eqn:E; [| discriminate].
    intros H Hf; injection H as <-. simpl.
    pose proof (actor_step_decreases _ _ _ _ _ _ E Hf). lia.
  - destruct (main_step _ _ _ _) as [[pc' g'] |] eqn:E; [| discriminate].
    intros H Hf; injection H as <-. simpl.
    pose proof (main_step_decreases _ _ _ _ _ _ E Hf). lia.
Qed.

Lemma run_decreases (sched : list tid) (st st' : state) :
  run sched st = Some st' -> is_terminated (mem st) <> 0 ->
  (List.length sched + steps_left st' <= steps_left st)%nat.
Proof.
  revert st. induction sched as [| t rest IH]; simpl; intros st Hrun Hf.
  - injection Hrun as <-. lia.
  - destruct (step t st) as [st1 |] eqn:E; [| discriminate].
    pose proof (step_decreases _ _ _ E Hf).
    pose proof (IH st1 Hrun (step_flag _ _ _ E Hf)). lia.
Qed.

(** *** Every state can run to the end *)

Lemma main_inv_step (t : tid) (st st' : state) :
  main_inv st -> step t st = Some st' -> main_inv st'.
Proof.
  intros Hinv Hstep.
  destruct (Z.eq_dec (is_terminated (mem st)) 0) as [Hz | Hnz];
    [| right; right; right; eapply step_flag; eassumption].
  destruct Hinv as [Hm | [Hm | [Hm | Hm]]]; try contradiction;
    unfold step, thread_transfer_1_to_2, thread_transfer_2_to_1 in Hstep; destruct t;
    try (destruct (actor_step _ _ _) as [[[pc' g'] evs] |]; [| discriminate];
         injection Hstep as <-; unfold main_inv; simpl; auto; fail);
    rewrite Hm in Hstep; simpl in Hstep; rewrite ?Hz in Hstep; simpl in Hstep;
    injection Hstep as <-; unfold main_inv; simpl; auto.
  right; right; right. lia.
Qed.

Lemma can_finish_once_flag_set (n : nat) (st : state) :
  (steps_left st <= n)%nat -> lock_inv st -> is_terminated (mem st) <> 0 ->
  exists sched st', run sched st = Some st' /\ finished st'.
Proof.
  revert st. induction n as [| n IH]; intros st Hn Hl Hf;
    destruct (progress st Hl) as [Hfin | [t [st1 Hstep]]];
    try (exists [], st; split; [reflexivity | exact Hfin]).
  - pose proof (step_decreases _ _ _ Hstep Hf). lia.
  - pose proof (step_decreases _ _ _ Hstep Hf) as Hd.
    destruct (IH st1 ltac:(lia) (lock_inv_step _ _ _ Hl Hstep) (step_flag _ _ _ Hstep Hf))
      as (sched & st' & Hrun & Hfin).
    exists (t :: sched), st'. split; [| exact Hfin]. simpl. now rewrite Hstep.
Qed.

Lemma can_finish (st : state) :
  lock_inv st -> main_inv st ->
  exists sched st', run sched st = Some st' /\ finished st'.
Proof.
  assert (Hset : forall s, lock_inv s -> is_terminated (mem s) <> 0 ->
                   exists sched st', run sched s = Some st' /\ finished st')
    by (intros s; apply (can_finish_once_flag_set (steps_left s)); lia).
  assert (Hgo : forall s s1, lock_inv s -> step TMain s = Some s1 ->
                  (exists sched st', run sched s1 = Some st' /\ finished st') ->
                  exists sched st', run sched s = Some st' /\ finished st').
  { intros s s1 _ Hstep (sched & st' & Hrun & Hfin).
    exists (TMain :: sched), st'. split; [| exact Hfin]. cbn [run]. now rewrite Hstep. }
  assert (H3 : forall s, lock_inv s -> pcm s = MSetFlag ->
                 exists sched st', run sched s = Some st' /\ finished st').
  { intros s Hl Hm.
    destruct (watchdog_not_held_up s ltac:(auto)) as [s1 Hstep].
    apply (Hgo s s1 Hl Hstep). apply Hset; [eapply lock_inv_step; eassumption |].
    unfold step in Hstep. rewrite Hm in Hstep. simpl in Hstep.
    injection Hstep as <-. simpl. lia. }
  assert (H2 : forall s, lock_inv s -> pcm s = MCheck ->
                 exists sched st', run sched s = Some st' /\ finished st').
  { intros s Hl Hm.
    destruct (Z.eq_dec (is_terminated (mem s)) 0) as [Hz | Hnz]; [| now apply Hset].
    destruct (watchdog_not_held_up s ltac:(auto)) as [s1 Hstep].
    apply (Hgo s s1 Hl Hstep). apply H3; [eapply lock_inv_step; eassumption |].
    unfold step in Hstep. rewrite Hm in Hstep. simpl in Hstep. rewrite Hz in Hstep.
    simpl in Hstep. injection Hstep as <-. reflexivity. }
  intros Hl [Hm | [Hm | [Hm | Hf]]]; auto.
  destruct (watchdog_not_held_up st ltac:(auto)) as [s1 Hstep].
  apply (Hgo st s1 Hl Hstep). apply H2; [eapply lock_inv_step; eassumption |].
  unfold step in Hstep. rewrite Hm in Hstep. simpl in Hstep.
  injection Hstep as <-. reflexivity.
Qed.

(** What holds in every state the program reaches. *)
Lemma reachable_invariants (b1 a1 b2 a2 : float) (period deadline : Z)
  (sched : list tid) (st : state) :
  run sched (start b1 a1 b2 a2 period deadline) = Some st ->
  lock_inv st /\ bytes_inv st /\ main_inv st.
Proof.
  apply (run_invariant (fun s => lock_inv s /\ bytes_inv s /\ main_inv s)).
  - intros t s s' (Hl & Hb & Hm) Hstep. split; [| split].
    + eapply lock_inv_step; eassumption.
    + eapply bytes_inv_step; eassumption.
    + eapply main_inv_step; eassumption.
  - split; [apply lock_inv_start; split; reflexivity |]. split.
    + repeat split; intros i bytes H; discriminate H.
    + now left.
Qed.

(** The thread that holds Account 2's mutex, the last in the order, is
    not waiting for a mutex: no cycle of threads waiting for each other
    can form. *)
Lemma last_holder_never_waits (st : state) :
  lock_inv st ->
  (mutex (account2 (mem st)) = Some T1 -> never_waits (pc1 st) = true) /\
  (mutex (account2 (mem st)) = Some T2 -> never_waits (pc2 st) = true).
Proof.
  intros Hinv. destruct (Hinv Account2) as [I X]. unfold owner_by_pc in I.
  simpl in I. rewrite I. split; intros H.
  - destruct (pc1 st); simpl in *; try reflexivity; try discriminate H;
      destruct (holds T2 (pc2 st) Account2); discriminate H.
  - destruct (pc2 st); simpl in *; try reflexivity;
      destruct (holds T1 (pc1 st) Account2); simpl in *; discriminate.
Qed.

(** C2.  Whatever the balances, amounts, period and deadline, and however
    the statements of the three threads are interleaved: a state the
    program reaches is never a deadlock (either all threads have returned
    or some thread can move), the holder of the last mutex in the order is
    never waiting, and the program can always be run to its end; the
    watchdog is not held up before it has set the flag; and once the flag
    is set the whole program takes at most [overshoot_bound] further
    steps.  Time is counted in statements: the deadline is the step at
    which [sleep] returns. *)
Theorem no_deadlock_and_bounded_overshoot
  (b1 a1 b2 a2 : float) (period deadline : Z) (sched : list tid) (st : state) :
  run sched (start b1 a1 b2 a2 period deadline) = Some st ->
  (finished st \/ exists t, enabled t st) /\
  ((mutex (account2 (mem st)) = Some T1 -> never_waits (pc1 st) = true) /\
   (mutex (account2 (mem st)) = Some T2 -> never_waits (pc2 st) = true)) /\
  (exists sched' st', run sched' st = Some st' /\ finished st') /\
  (pcm st = MSleep \/ pcm st = MCheck \/ pcm st = MSetFlag -> enabled TMain st) /\
  (is_terminated (mem st) <> 0 ->
   forall sched' st', run sched' st = Some st' ->
     (List.length sched' <= overshoot_bound)%nat).
Proof.
  intros Hrun. apply reachable_invariants in Hrun as (Hl & Hb & Hm).
  split; [now apply progress |]. split; [now apply last_holder_never_waits |].
  split; [now apply can_finish |].
  split; [apply watchdog_not_held_up |].
  intros Hf sched' st' Hrun'.
  pose proof (run_decreases _ _ _ Hrun' Hf).
  pose proof (steps_left_bounded st Hb). lia.
Qed.

Lemma no_deadlock_and_bounded_overshoot_witness :
  exists st,
    run [T1; T2; TMain; T1; TMain; T1] (start 100 30 50 40 10 5) = Some st /\
    (finished st \/ exists t, enabled t st).
Proof.
  eexists. split; [vm_compute; reflexivity |].
  refine (proj1 (no_deadlock_and_bounded_overshoot 100 30 50 40 10 5
                   [T1; T2; TMain; T1; TMain; T1] _ _)).
  vm_compute. reflexivity.
Defined.

(** *** Balances under interleaving *)

(** What one statement of a worker thread does to amounts and balances. *)
Lemma actor_step_accounts (t : tid) (pc pc' : actor_pc) (g g' : globals) evs :
  t <> TMain ->
  actor_step t pc g = Some (pc', g', evs) ->
  transfer_amount (account1 g') = transfer_amount (account1 g) /\
  transfer_amount (account2 g') = transfer_amount (account2 g) /\
  (pc' = PDebit ->
   pc = PCheckFunds /\ g' = g /\
   (balance (deref (source_of t) g) <? transfer_amount (deref (source_of t) g))%float = false) /\
  (pc' = PCredit -> pc = PDebit) /\
  match pc with
  | PDebit =>
      balance (deref (source_of t) g') =
        (balance (deref (source_of t) g) - transfer_amount (deref (source_of t) g))%float /\
      balance (deref (dest_of t) g') = balance (deref (dest_of t) g)
  | PCredit =>
      balance (deref (dest_of t) g') =
        (balance (deref (dest_of t) g) + transfer_amount (deref (source_of t) g))%float /\
      balance (deref (source_of t) g') = balance (deref (source_of t) g)
  | _ =>
      balance (account1 g') = balance (account1 g) /\
      balance (account2 g') = balance (account2 g)
  end.
Proof.
  intros Ht H. unfold actor_step, pthread_mutex_lock, pthread_mutex_unlock in H.
  destruct t; try congruence; destruct pc; simpl in *;
    repeat match type of H with
           | context [if ?c then _ else _] => destruct c eqn:?
           | context [match ?l with [] => _ | _ :: _ => _ end] => destruct l
           | context [match mutex ?a with Some _ => _ | None => _ end] => destruct (mutex a)
           end;
    try discriminate H; injection H as <- <- <-; simpl;
    repeat split; try discriminate; auto.
Qed.

Lemma moving_excludes (st : state) :
  lock_inv st -> moving (pc1 st) && moving (pc2 st) = false.
Proof.
  intros Hinv. destruct (Hinv Account1) as [_ X].
  destruct (pc1 st), (pc2 st); simpl in *; auto.
Qed.

Section FiniteAmounts.

Variables a1 a2 : float.
Hypothesis Ha1 : (0 <=? a1)%float = true.
Hypothesis Ha2 : (0 <=? a2)%float = true.
Hypothesis Hf1 : is_finite a1 = true.
Hypothesis Hf2 : is_finite a2 = true.

Lemma nonneg_inv_step (t : tid) (st st' : state) :
  lock_inv st -> nonneg_inv a1 a2 st -> step t st = Some st' -> nonneg_inv a1 a2 st'.
Proof.
  intros Hl (E1 & E2 & N1 & N2 & D1 & D2) Hstep.
  pose proof (moving_excludes st Hl) as Hx.
  unfold step, thread_transfer_1_to_2, thread_transfer_2_to_1 in Hstep. destruct t.
  - destruct (actor_step T1 (pc1 st) (mem st)) as [[[pc' g'] evs] |] eqn:E; [| discriminate].
    injection Hstep as <-.
    destruct (actor_step_accounts T1 _ _ _ _ _ ltac:(discriminate) E)
      as (A1 & A2 & Hd & Hc & Hb).
    unfold nonneg_inv. simpl in *. rewrite A1, A2.
    destruct (pc1 st) eqn:P1; simpl in Hx; destruct Hb as [B1 B2];
      rewrite ?B1, ?B2; repeat split; auto;
      try (intros Hp; destruct (Hd Hp) as (Hpc & -> & Hlt); try discriminate Hpc;
           rewrite <- E1; exact Hlt);
      try (intros Hp; rewrite Hp in Hx; discriminate Hx).
    + rewrite E1. apply sub_nonneg; auto.
    + rewrite E1. apply add_nonneg; auto.
  - destruct (actor_step T2 (pc2 st) (mem st)) as [[[pc' g'] evs] |] eqn:E; [| discriminate].
    injection Hstep as <-.
    destruct (actor_step_accounts T2 _ _ _ _ _ ltac:(discriminate) E)
      as (A1 & A2 & Hd & Hc & Hb).
    unfold nonneg_inv. simpl in *. rewrite A1, A2.
    rewrite andb_comm in Hx.
    destruct (pc2 st) eqn:P2; simpl in Hx; destruct Hb as [B1 B2];
      rewrite ?B1, ?B2; repeat split; auto;
      try (intros Hp; destruct (Hd Hp) as (Hpc & -> & Hlt); try discriminate Hpc;
           rewrite <- E2; exact Hlt);
      try (intros Hp; rewrite Hp in Hx; discriminate Hx).
    + rewrite E2. apply sub_nonneg; auto.
    + rewrite E2. apply add_nonneg; auto.
  - destruct (main_step _ _ _ _) as [[pc' g'] |] eqn:E; [| discriminate].
    injection Hstep as <-. apply main_step_accounts in E as [M1 M2].
    unfold nonneg_inv. simpl. rewrite M1, M2. repeat split; auto.
Qed.

End FiniteAmounts.

(** However the threads are interleaved, and also in the middle of a
    transfer, balances that start at 0 or above with positive, finite
    transfer amounts stay at 0 or above. *)
Lemma interleaved_balances_nonnegative
  (b1 a1 b2 a2 : float) (period deadline : Z) (sched : list tid) (st : state) :
  (0 <=? b1)%float = true -> (0 <=? b2)%float = true ->
  (0 <? a1)%float = true -> (0 <? a2)%float = true ->
  is_finite a1 = true -> is_finite a2 = true ->
  run sched (start b1 a1 b2 a2 period deadline) = Some st ->
  (0 <=? balance (account1 (mem st)))%float = true /\
  (0 <=? balance (account2 (mem st)))%float = true.
Proof.
  intros Hb1 Hb2 Ha1 Ha2 Hf1 Hf2 Hrun.
  assert (H : lock_inv st /\ nonneg_inv a1 a2 st).
  { revert Hrun. apply (run_invariant (fun s => lock_inv s /\ nonneg_inv a1 a2 s)).
    - intros t s s' [Hl Hn] Hstep. split.
      + eapply lock_inv_step; eassumption.
      + eapply nonneg_inv_step; try eassumption; now apply ltb_leb.
    - split; [apply lock_inv_start; split; reflexivity |].
      repeat split; auto; discriminate. }
  destruct H as (_ & _ & _ & N1 & N2 & _). auto.
Qed.

Lemma in_flight_nonneg (k : Z) (pc : actor_pc) : 0 <= k -> 0 <= in_flight k pc.
Proof. destruct pc; simpl; lia. Qed.

Section WholeUnits.

Variables k1 k2 sum : Z.
Hypothesis Hk1 : 0 <= k1 < 2 ^ 53.
Hypothesis Hk2 : 0 <= k2 < 2 ^ 53.
Hypothesis Hsum : sum < 2 ^ 53.

Lemma whole_inv_step (t : tid) (st st' : state) :
  lock_inv st -> whole_inv k1 k2 sum st -> step t st = Some st' -> whole_inv k1 k2 sum st'.
Proof.
  intros Hl (E1 & E2 & m1 & m2 & Hm1 & Hm2 & Hs & B1 & B2 & D1 & D2) Hstep.
  pose proof (moving_excludes st Hl) as Hx.
  pose proof (in_flight_nonneg k1 (pc1 st) ltac:(lia)) as F1.
  pose proof (in_flight_nonneg k2 (pc2 st) ltac:(lia)) as F2.
  unfold step, thread_transfer_1_to_2, thread_transfer_2_to_1 in Hstep. destruct t.
  - destruct (actor_step T1 (pc1 st) (mem st)) as [[[pc' g'] evs] |] eqn:E; [| discriminate].
    injection Hstep as <-.
    destruct (actor_step_accounts T1 _ _ _ _ _ ltac:(discriminate) E)
      as (A1 & A2 & Hd & Hc & Hb).
    unfold whole_inv. cbn [mem pc1 pc2 source_of dest_of deref] in *. rewrite A1, A2.
    split; [exact E1 |]. split; [exact E2 |].
    assert (Hfl : pc1 st <> PDebit -> in_flight k1 pc' = 0).
    { intros Hn. destruct pc'; try reflexivity. now specialize (Hc eq_refl). }
    assert (Hdeb : pc1 st <> PDebit -> pc1 st <> PCredit -> pc' = PDebit -> k1 <= m1).
    { intros _ _ Hp. destruct (Hd Hp) as (_ & _ & Hlt).
      rewrite B1, E1 in Hlt. apply ltb_whole_false in Hlt; lia. }
    destruct (pc1 st) eqn:P1; cbn [moving andb in_flight] in *; destruct Hb as [C1 C2];
      try (exists m1, m2; rewrite C1, C2, Hfl by discriminate;
           repeat split; auto; try lia; apply Hdeb; discriminate).
    + specialize (D1 eq_refl).
      assert (pc' = PCredit) by (unfold actor_step in E; now injection E as <- _ _).
      subst pc'. exists (m1 - k1), m2. rewrite C1, C2, B1, E1. cbn [in_flight].
      repeat split; auto; try lia; try discriminate;
        try (apply sub_whole; lia); try (apply add_whole; lia);
        intros Hp; rewrite Hp in Hx; discriminate Hx.
    + assert (pc' = PCount) by (unfold actor_step in E; now injection E as <- _ _).
      subst pc'. exists m1, (m2 + k1). rewrite C1, C2, B2, E1. cbn [in_flight].
      repeat split; auto; try lia; try discriminate;
        try (apply sub_whole; lia); try (apply add_whole; lia);
        intros Hp; rewrite Hp in Hx; discriminate Hx.
  - destruct (actor_step T2 (pc2 st) (mem st)) as [[[pc' g'] evs] |] eqn:E; [| discriminate].
    injection Hstep as <-.
    destruct (actor_step_accounts T2 _ _ _ _ _ ltac:(discriminate) E)
      as (A1 & A2 & Hd & Hc & Hb).
    unfold whole_inv. cbn [mem pc1 pc2 source_of dest_of deref] in *. rewrite A1, A2.
    split; [exact E1 |]. split; [exact E2 |].
    rewrite andb_comm in Hx.
    assert (Hfl : pc2 st <> PDebit -> in_flight k2 pc' = 0).
    { intros Hn. destruct pc'; try reflexivity. now specialize (Hc eq_refl). }
    assert (Hdeb : pc2 st <> PDebit -> pc2 st <> PCredit -> pc' = PDebit -> k2 <= m2).
    { intros _ _ Hp. destruct (Hd Hp) as (_ & _ & Hlt).
      rewrite B2, E2 in Hlt. apply ltb_whole_false in Hlt; lia. }
    destruct (pc2 st) eqn:P2; cbn [moving andb in_flight] in *; destruct Hb as [C1 C2];
      try (exists m1, m2; rewrite C1, C2, Hfl by discriminate;
           repeat split; auto; try lia; apply Hdeb; discriminate).
    + specialize (D2 eq_refl).
      assert (pc' = PCredit) by (unfold actor_step in E; now injection E as <- _ _).
      subst pc'. exists m1, (m2 - k2). rewrite C1, C2, B2, E2. cbn [in_flight].
      repeat split; auto; try lia; try discriminate;
        try (apply sub_whole; lia); try (apply add_whole; lia);
        intros Hp; rewrite Hp in Hx; discriminate Hx.
    + assert (pc' = PCount) by (unfold actor_step in E; now injection E as <- _ _).
      subst pc'. exists (m1 + k2), m2. rewrite C1, C2, B1, E2. cbn [in_flight].
      repeat split; auto; try lia; try discriminate;
        try (apply sub_whole; lia); try (apply add_whole; lia);
        intros Hp; rewrite Hp in Hx; discriminate Hx.
  - destruct (main_step _ _ _ _) as [[pc' g'] |] eqn:E; [| discriminate].
    injection Hstep as <-. apply main_step_accounts in E as [M1 M2].
    unfold whole_inv. cbn [mem pc1 pc2]. rewrite M1, M2.
    split; [exact E1 |]. split; [exact E2 |]. exists m1, m2. repeat split; auto.
Qed.

End WholeUnits.

(** However the threads are interleaved, whole amounts are conserved at
    every point where no thread is between its debit and its credit. *)
Lemma interleaved_conservation_of_whole_amounts
  (n1 k1 n2 k2 period deadline : Z) (sched : list tid) (st : state) :
  0 <= n1 -> 0 <= n2 -> n1 + n2 < 2 ^ 53 -> 0 <= k1 < 2 ^ 53 -> 0 <= k2 < 2 ^ 53 ->
  run sched (start (of_whole n1) (of_whole k1) (of_whole n2) (of_whole k2) period deadline)
    = Some st ->
  pc1 st <> PCredit -> pc2 st <> PCredit ->
  total (mem st) = of_whole (n1 + n2).
Proof.
  intros Hn1 Hn2 Hsum Hk1 Hk2 Hrun Hp1 Hp2.
  assert (H : lock_inv st /\ whole_inv k1 k2 (n1 + n2) st).
  { revert Hrun. apply (run_invariant (fun s => lock_inv s /\ whole_inv k1 k2 (n1 + n2) s)).
    - intros t s s' [Hl Hn] Hstep. split.
      + eapply lock_inv_step; eassumption.
      + eapply whole_inv_step; eassumption.
    - split; [apply lock_inv_start; split; reflexivity |].
      split; [reflexivity |]. split; [reflexivity |].
      exists n1, n2. simpl. repeat split; auto; try lia; discriminate. }
  destruct H as (_ & _ & _ & m1 & m2 & Hm1 & Hm2 & Hs & B1 & B2 & _).
  unfold total. rewrite B1, B2.
  assert (F1 : in_flight k1 (pc1 st) = 0) by (destruct (pc1 st); auto; congruence).
  assert (F2 : in_flight k2 (pc2 st) = 0) by (destruct (pc2 st); auto; congruence).
  rewrite add_whole by lia. f_equal. lia.
Qed.

(** C4, amended.  When the initial balances and the transfer amounts are
    whole numbers of units, none negative, the amounts below 2^53 and the
    two balances adding up to less than 2^53, the sum of the two balances
    is the sum of the initial balances after every sequence of
    operations, and in every interleaving of the three threads at every
    point where no thread is between its debit and its credit. *)
Theorem conservation_of_whole_amounts (n1 k1 n2 k2 period deadline : Z) :
  0 <= n1 -> 0 <= n2 -> n1 + n2 < 2 ^ 53 -> 0 <= k1 < 2 ^ 53 -> 0 <= k2 < 2 ^ 53 ->
  let g0 := init_globals (of_whole n1) (of_whole k1) (of_whole n2) (of_whole k2)
              period deadline in
  total g0 = of_whole (n1 + n2) /\
  (forall ops : list op, total (apply_ops ops g0) = total g0) /\
  (forall (sched : list tid) (st : state),
     run sched (init_state g0) = Some st ->
     pc1 st <> PCredit -> pc2 st <> PCredit ->
     total (mem st) = total g0).
Proof.
  intros Hn1 Hn2 Hsum Hk1 Hk2 g0.
  assert (H0 : total g0 = of_whole (n1 + n2))
    by (apply (sequence_conserves_whole_amounts n1 k1 n2 k2 period deadline []); lia).
  split; [exact H0 |]. split.
  - intros ops. rewrite H0. now apply sequence_conserves_whole_amounts.
  - intros sched st Hrun Hp1 Hp2. rewrite H0.
    now apply (interleaved_conservation_of_whole_amounts n1 k1 n2 k2 period deadline sched).
Qed.

Lemma conservation_of_whole_amounts_witness :
  0 <= 100 /\ 0 <= 50 /\ 100 + 50 < 2 ^ 53 /\ 0 <= 30 < 2 ^ 53 /\ 0 <= 40 < 2 ^ 53 /\
  total (apply_ops [Transfer12; Transfer21; Transfer12; Deadline; Transfer21]
           (init_globals (of_whole 100) (of_whole 30) (of_whole 50) (of_whole 40) 10 5))
  = total (init_globals (of_whole 100) (of_whole 30) (of_whole 50) (of_whole 40) 10 5).
Proof.
  repeat (split; [lia |]).
  apply (conservation_of_whole_amounts 100 30 50 40 10 5); lia.
Defined.

(** C10, amended.  If both accounts start with balances that are not
    negative and with positive, finite transfer amounts, both balances
    are at least 0 after every sequence of operations, and in every state
    of every interleaving of the three threads. *)
Theorem balances_stay_nonnegative (b1 a1 b2 a2 : float) (period deadline : Z) :
  (0 <=? b1)%float = true -> (0 <=? b2)%float = true ->
  (0 <? a1)%float = true -> (0 <? a2)%float = true ->
  is_finite a1 = true -> is_finite a2 = true ->
  (forall ops : list op,
     let g := apply_ops ops (init_globals b1 a1 b2 a2 period deadline) in
     (0 <=? balance (account1 g))%float = true /\
     (0 <=? balance (account2 g))%float = true) /\
  (forall (sched : list tid) (st : state),
     run sched (start b1 a1 b2 a2 period deadline) = Some st ->
     (0 <=? balance (account1 (mem st)))%float = true /\
     (0 <=? balance (account2 (mem st)))%float = true).
Proof.
  intros Hb1 Hb2 Ha1 Ha2 Hf1 Hf2. split.
  - intros ops. now apply sequence_balances_nonnegative.
  - intros sched st Hrun.
    now apply (interleaved_balances_nonnegative b1 a1 b2 a2 period deadline sched).
Qed.

Lemma balances_stay_nonnegative_witness :
  (0 <=? 100)%float = true /\ (0 <=? 50)%float = true /\
  (0 <? 30)%float = true /\ (0 <? 40)%float = true /\
  is_finite 30 = true /\ is_finite 40 = true /\
  (0 <=? balance (account1 (apply_ops [Transfer12; Transfer21; Transfer21]
                              (init_globals 100 30 50 40 10 5))))%float = true /\
  (0 <=? balance (account2 (apply_ops [Transfer12; Transfer21; Transfer21]
                              (init_globals 100 30 50 40 10 5))))%float = true.
Proof.
  repeat (split; [reflexivity |]).
  apply (balances_stay_nonnegative 100 30 50 40 10 5); reflexivity.
Defined.

(** *** The reason string under a race *)

(** C6.  The program run to its end along [race_schedule] prints a
    termination reason that is neither of the two valid reasons: the
    first byte of one and the rest of the other. *)
Theorem reason_torn_by_race :
  option_map (fun st => (pc1 st, pc2 st, pcm st, is_terminated (mem st), stdout (mem st)))
             (run race_schedule (start 0 1 50 40 10 0))
  = Some (PDone, PDone, MDone, 1, [OutFinal 0 50 0 0 torn_reason]) /\
  torn_reason <> deadline_msg /\
  forall i : Z, torn_reason <> insufficient_funds_msg i.
Proof.
  split; [vm_compute; reflexivity |]. split.
  - discriminate.
  - intros i H. unfold torn_reason, insufficient_funds_msg in H. simpl in H.
    discriminate H.
Qed.

(** *** The actor loop *)








(** A period of one second is not waited: [tv_sec] is 0 and [tv_nsec]
    is 1000000000, which [nanosleep] refuses. *)
Lemma period_of_one_second_is_refused :
  option_map (fun st => (pc1 st, events1 st))
             (run (repeat T1 13) (start 100 30 50 40 1000 5))
  = Some (PLoop, [EvPoll 0; EvAttempt 0; EvRefused 1000000000]).
Proof. vm_compute. reflexivity. Qed.



(** *** A call that is not interrupted

    The statements of [transfer_funds], run one after the other by a
    single thread, are the call as a whole. *)

Lemma actor_steps_app (t : tid) (n m : nat) (pc : actor_pc) (g : globals) :
  actor_steps t (n + m) pc g =
  match actor_steps t n pc g with
  | Some (pc', g') => actor_steps t m pc' g'
  | None => None
  end.
Proof.
  revert pc g. induction n as [| n IH]; intros pc g; simpl; [reflexivity |].
  destruct (actor_step t pc g) as [[[pc' g'] evs] |]; [apply IH | reflexivity].
Qed.

Lemma snprintf_steps (t : tid) (bytes : list ascii) (i : nat) (g : globals) :
  actor_steps t (List.length bytes) (PSnprintf i bytes) g =
  Some (PSnprintf (i + List.length bytes) [],
        set_termination_reason (store_bytes i bytes (termination_reason g)) g).
Proof.
  revert i g. induction bytes as [| c r IH]; intros i g.
  - simpl. rewrite Nat.add_0_r. now destruct g.
  - cbn [List.length actor_steps actor_step]. rewrite IH.
    replace (i + S (List.length r))%nat with (S i + List.length r)%nat by lia.
    reflexivity.
Qed.

Lemma uninterrupted_call (t : tid) (g : globals) (r : Z) (g' : globals) :
  transfer_funds t (source_of t) (dest_of t) g = Some (r, g') ->
  exists n, actor_steps t n PLockFirst g = Some (PReturn r, g').
Proof.
  intros H. unfold transfer_funds in H.
  destruct (lock_pair t (source_of t) (dest_of t) g) as [g1 |] eqn:El; [| discriminate].
  injection H as H. rewrite lock_pair_split in El.
  destruct (pthread_mutex_lock t (lock_first (source_of t) (dest_of t)) g)
    as [g0 |] eqn:E0; [| discriminate]. simpl in El.
  unfold transfer_locked in H.
  destruct (negb (is_terminated g1 =? 0)) eqn:Et.
  - exists 5%nat.
    repeat (cbn [actor_steps actor_step]; rewrite ?E0, ?El, ?Et).
    injection H as <- <-. reflexivity.
  - destruct (balance (deref (source_of t) g1) <? transfer_amount (deref (source_of t) g1))%float
      eqn:Ef.
    + exists (4 + (List.length (reason_bytes (source_of t) g1) + 4))%nat.
      rewrite actor_steps_app.
      repeat (cbn [actor_steps actor_step]; rewrite ?E0, ?El, ?Et, ?Ef).
      rewrite actor_steps_app, snprintf_steps.
      cbn [actor_steps actor_step]. injection H as <- <-. reflexivity.
    + exists 10%nat.
      repeat (cbn [actor_steps actor_step]; rewrite ?E0, ?El, ?Et, ?Ef).
      injection H as <- <-. reflexivity.
Qed.

(** * Further properties of the program *)

(** A step of the program is a statement of one of its three threads. *)
Lemma step_cases (t : tid) (st st' : state) :
  step t st = Some st' ->
  (t = T1 /\ exists pc' g' evs,
     actor_step T1 (pc1 st) (mem st) = Some (pc', g', evs) /\
     st' = mkState g' pc' (pc2 st) (pcm st) (events1 st ++ evs) (events2 st)) \/
  (t = T2 /\ exists pc' g' evs,
     actor_step T2 (pc2 st) (mem st) = Some (pc', g', evs) /\
     st' = mkState g' (pc1 st) pc' (pcm st) (events1 st) (events2 st ++ evs)) \/
  (t = TMain /\ exists pc' g',
     main_step (pcm st) (is_done (pc1 st)) (is_done (pc2 st)) (mem st) = Some (pc', g') /\
     st' = mkState g' (pc1 st) (pc2 st) pc' (events1 st) (events2 st)).
Proof.
  unfold step, thread_transfer_1_to_2, thread_transfer_2_to_1. destruct t.
  - destruct (actor_step T1 (pc1 st) (mem st)) as [[[pc' g'] evs] |]; [| discriminate].
    intros H; injection H as <-. left. split; [reflexivity |]. now exists pc', g', evs.
  - destruct (actor_step T2 (pc2 st) (mem st)) as [[[pc' g'] evs] |]; [| discriminate].
    intros H; injection H as <-. right; left. split; [reflexivity |]. now exists pc', g', evs.
  - destruct (main_step _ _ _ _) as [[pc' g'] |]; [| discriminate].
    intros H; injection H as <-. right; right. split; [reflexivity |]. now exists pc', g'.
Qed.

Ltac by_thread H :=
  apply step_cases in H;
  destruct H as [(-> & pc' & g' & evs & E & ->)
                | [(-> & pc' & g' & evs & E & ->) | (-> & pc' & g' & E & ->)]].

Ltac split_actor H :=
  unfold actor_step, pthread_mutex_lock, pthread_mutex_unlock in H;
  repeat match type of H with
         | context [if ?c then _ else _] => destruct c eqn:?
         | context [match ?l with [] => _ | _ :: _ => _ end] => destruct l
         | context [match mutex ?a with Some _ => _ | None => _ end] => destruct (mutex a) eqn:?
         end;
  try discriminate H.

Ltac split_main H :=
  unfold main_step in H;
  repeat match type of H with
         | context [if ?c then _ else _] => destruct c eqn:?
         | context [match ?l with [] => _ | _ :: _ => _ end] => destruct l
         end;
  try discriminate H.

(** ** Mutual exclusion *)

Lemma critical_owns_both (st : state) :
  lock_inv st ->
  (in_critical (pc1 st) = true ->
   mutex (account1 (mem st)) = Some T1 /\ mutex (account2 (mem st)) = Some T1) /\
  (in_critical (pc2 st) = true ->
   mutex (account1 (mem st)) = Some T2 /\ mutex (account2 (mem st)) = Some T2) /\
  in_critical (pc1 st) && in_critical (pc2 st) = false.
Proof.
  intros Hinv.
  destruct (Hinv Account1) as [I1 X1]. destruct (Hinv Account2) as [I2 X2].
  unfold owner_by_pc in I1, I2. cbn [deref] in I1, I2. rewrite I1, I2.
  destruct (pc1 st), (pc2 st); cbn in *;
    repeat split; intros; try discriminate; try reflexivity.
Qed.

(** X1.  However the three threads are interleaved, the two worker threads
    are never both between the return of [lock_pair] and the call of
    [unlock_pair], and a worker thread that is there owns the mutexes of
    both accounts. *)
Theorem mutual_exclusion
  (b1 a1 b2 a2 : float) (period deadline : Z) (sched : list tid) (st : state) :
  run sched (start b1 a1 b2 a2 period deadline) = Some st ->
  in_critical (pc1 st) && in_critical (pc2 st) = false /\
  (in_critical (pc1 st) = true ->
   mutex (account1 (mem st)) = Some T1 /\ mutex (account2 (mem st)) = Some T1) /\
  (in_critical (pc2 st) = true ->
   mutex (account1 (mem st)) = Some T2 /\ mutex (account2 (mem st)) = Some T2).
Proof.
  intros Hrun. apply reachable_invariants in Hrun as (Hl & _ & _).
  destruct (critical_owns_both st Hl) as (H1 & H2 & H3). auto.
Qed.

Lemma mutual_exclusion_witness :
  exists st,
    run [T1; T1; T2; T1; T1] (start 100 30 50 40 10 5) = Some st /\
    in_critical (pc1 st) = true /\
    in_critical (pc1 st) && in_critical (pc2 st) = false.
Proof.
  eexists. split; [vm_compute; reflexivity |]. split; [reflexivity |].
  refine (proj1 (mutual_exclusion 100 30 50 40 10 5 [T1; T1; T2; T1; T1] _ _)).
  vm_compute. reflexivity.
Defined.

(** X2.  A worker thread holds no mutex while it is outside its call of
    [transfer_funds] (testing the loop condition, acting on the value
    returned, asleep, or returned); the main thread never holds one; so
    when both worker threads have returned both mutexes are unlocked. *)
Theorem no_mutex_held_outside_transfer
  (b1 a1 b2 a2 : float) (period deadline : Z) (sched : list tid) (st : state) :
  run sched (start b1 a1 b2 a2 period deadline) = Some st ->
  (forall m, outside_call (pc1 st) = true -> mutex (deref m (mem st)) <> Some T1) /\
  (forall m, outside_call (pc2 st) = true -> mutex (deref m (mem st)) <> Some T2) /\
  (forall m, mutex (deref m (mem st)) <> Some TMain) /\
  (pc1 st = PDone -> pc2 st = PDone -> both_free (mem st)).
Proof.
  intros Hrun. apply reachable_invariants in Hrun as (Hl & _ & _).
  assert (H : forall m, mutex (deref m (mem st)) = owner_by_pc m st) by (intros m; apply Hl).
  unfold owner_by_pc in H. split; [| split; [| split]].
  - intros m Ho. rewrite H. destruct (pc1 st); try discriminate Ho; cbn;
      destruct (holds T2 (pc2 st) m); discriminate.
  - intros m Ho. rewrite H. destruct (pc2 st); try discriminate Ho; cbn;
      destruct (holds T1 (pc1 st) m); discriminate.
  - intros m. rewrite H.
    destruct (holds T1 (pc1 st) m); [discriminate |].
    destruct (holds T2 (pc2 st) m); discriminate.
  - intros D1 D2. pose proof (H Account1) as F1. pose proof (H Account2) as F2.
    rewrite D1, D2 in F1, F2. split; assumption.
Qed.

Lemma no_mutex_held_outside_transfer_witness :
  exists st,
    run (repeat T1 12 ++ [T2; T2]) (start 100 30 50 40 10 5) = Some st /\
    outside_call (pc1 st) = true /\
    mutex (account1 (mem st)) <> Some T1.
Proof.
  eexists. split; [vm_compute; reflexivity |]. split; [reflexivity |].
  refine (proj1 (no_mutex_held_outside_transfer 100 30 50 40 10 5
                   (repeat T1 12 ++ [T2; T2]) _ _) Account1 _).
  - vm_compute. reflexivity.
  - reflexivity.
Defined.

(** ** The flag and the threads that stop *)

Lemma stop_inv_step (t : tid) (st st' : state) :
  stop_inv st -> step t st = Some st' -> stop_inv st'.
Proof.
  intros (Hr & H1 & H2 & Hm) Hstep. unfold stop_inv. by_thread Hstep; cbn [mem pc1 pc2 pcm].
  - destruct (pc1 st) eqn:P; split_actor E; injection E as <- <- <-;
      cbn [stopping negb is_terminated set_is_terminated] in *;
      try (destruct (source_of T1), (dest_of T1)); cbn in *;
      repeat split; intros; try discriminate; try lia; auto; try tauto;
      try (apply H1; destruct (ret =? 0); auto; fail).
  - destruct (pc2 st) eqn:P; split_actor E; injection E as <- <- <-;
      cbn [stopping negb is_terminated set_is_terminated] in *;
      try (destruct (source_of T2), (dest_of T2)); cbn in *;
      repeat split; intros; try discriminate; try lia; auto; try tauto;
      try (apply H2; destruct (ret =? 0); auto; fail).
  - destruct (pcm st) eqn:P; split_main E; injection E as <- <-; cbn in *;
      repeat split; intros; try discriminate; try lia; auto; try tauto;
      right; right; right;
      destruct Hm as [Hm | [Hm | [Hm | Hm]]]; try discriminate Hm; assumption.
Qed.

Lemma stop_inv_start (g : globals) : is_terminated g = 0 -> stop_inv (init_state g).
Proof. intros H. repeat split; cbn; auto; discriminate. Qed.

Lemma reachable_stop_inv (b1 a1 b2 a2 : float) (period deadline : Z)
  (sched : list tid) (st : state) :
  run sched (start b1 a1 b2 a2 period deadline) = Some st -> stop_inv st.
Proof.
  apply (run_invariant stop_inv).
  - intros t s s' Hs Hstep. eapply stop_inv_step; eassumption.
  - now apply stop_inv_start.
Qed.

(** X3.  The termination flag only ever holds 0 or 1, and once it is 1 it
    is 1 in every state the program reaches afterwards, whichever thread
    runs. *)
Theorem flag_is_set_once_and_for_all
  (b1 a1 b2 a2 : float) (period deadline : Z) (sched : list tid) (st : state) :
  run sched (start b1 a1 b2 a2 period deadline) = Some st ->
  (is_terminated (mem st) = 0 \/ is_terminated (mem st) = 1) /\
  (is_terminated (mem st) = 1 ->
   forall sched' st', run sched' st = Some st' -> is_terminated (mem st') = 1).
Proof.
  intros Hrun. split; [apply (reachable_stop_inv _ _ _ _ _ _ _ _ Hrun) |].
  intros Hf sched' st' Hrun'.
  assert (Hreach : run (sched ++ sched') (start b1 a1 b2 a2 period deadline) = Some st')
    by (rewrite run_app, Hrun; exact Hrun').
  destruct (reachable_stop_inv _ _ _ _ _ _ _ _ Hreach) as ([H0 | H1] & _); [| exact H1].
  exfalso. apply (flag_is_one_way _ _ _ Hrun'); [rewrite Hf; discriminate | exact H0].
Qed.

Lemma flag_is_set_once_and_for_all_witness :
  exists st,
    run (repeat TMain 3) (start 100 30 50 40 10 5) = Some st /\
    (is_terminated (mem st) = 0 \/ is_terminated (mem st) = 1).
Proof.
  eexists. split; [vm_compute; reflexivity |].
  refine (proj1 (flag_is_set_once_and_for_all 100 30 50 40 10 5 (repeat TMain 3) _ _)).
  vm_compute. reflexivity.
Defined.

(** X4.  A thread stops only on a set flag: a worker thread that has
    returned, or that carries a failure out of [transfer_funds], implies
    that the flag is 1; so does a main thread that has found the flag set
    or has stored 1 into it, that is, a main thread anywhere but at its
    sleep, at its test of the flag, or at the store itself.  In
    particular the flag is 1 when the program has finished. *)
Theorem threads_stop_only_on_set_flag
  (b1 a1 b2 a2 : float) (period deadline : Z) (sched : list tid) (st : state) :
  run sched (start b1 a1 b2 a2 period deadline) = Some st ->
  (stopping (pc1 st) = true -> is_terminated (mem st) = 1) /\
  (stopping (pc2 st) = true -> is_terminated (mem st) = 1) /\
  (pcm st <> MSleep -> pcm st <> MCheck -> pcm st <> MSetFlag ->
   is_terminated (mem st) = 1) /\
  (finished st -> is_terminated (mem st) = 1).
Proof.
  intros Hrun. destruct (reachable_stop_inv _ _ _ _ _ _ _ _ Hrun) as (_ & H1 & H2 & Hm).
  split; [exact H1 |]. split; [exact H2 |]. split.
  - intros N1 N2 N3. destruct Hm as [Hm | [Hm | [Hm | Hm]]]; [| | | exact Hm];
      contradiction.
  - intros (D1 & _ & _). apply H1. rewrite D1. reflexivity.
Qed.

Lemma threads_stop_only_on_set_flag_witness :
  exists st,
    run (repeat T1 12 ++ repeat TMain 3 ++ repeat T1 2) (start 100 30 50 40 10 5) = Some st /\
    stopping (pc1 st) = true /\ is_terminated (mem st) = 1.
Proof.
  eexists. split; [vm_compute; reflexivity |]. split; [reflexivity |].
  refine (proj1 (threads_stop_only_on_set_flag 100 30 50 40 10 5
                   (repeat T1 12 ++ repeat TMain 3 ++ repeat T1 2) _ _) _).
  - vm_compute. reflexivity.
  - reflexivity.
Defined.


(** ** What no statement changes *)

Lemma actor_step_config (t : tid) (pc pc' : actor_pc) (g g' : globals) evs (g0 : globals) :
  actor_step t pc g = Some (pc', g', evs) -> same_config g0 g -> same_config g0 g'.
Proof.
  intros H Hc. unfold same_config in *.
  destruct pc; split_actor H; injection H as <- <- <-; try exact Hc;
    destruct t; cbn; try exact Hc.
Qed.

Lemma main_step_config (pc pc' : main_pc) (d1 d2 : bool) (g g' : globals) (g0 : globals) :
  main_step pc d1 d2 g = Some (pc', g') -> same_config g0 g -> same_config g0 g'.
Proof.
  intros H Hc. destruct pc; split_main H; injection H as <- <-; exact Hc.
Qed.

Lemma same_config_step (g0 : globals) (t : tid) (st st' : state) :
  same_config g0 (mem st) -> step t st = Some st' -> same_config g0 (mem st').
Proof.
  intros Hc Hstep. by_thread Hstep; cbn [mem].
  - eapply actor_step_config; eassumption.
  - eapply actor_step_config; eassumption.
  - eapply main_step_config; eassumption.
Qed.

Lemma reachable_same_config (g0 : globals) (sched : list tid) (st : state) :
  run sched (init_state g0) = Some st -> same_config g0 (mem st).
Proof.
  apply (run_invariant (fun s => same_config g0 (mem s))).
  - intros t s s'. apply same_config_step.
  - repeat split.
Qed.

(** X5.  Nothing the threads do changes what was configured: in every
    state the program reaches the accounts have the ids 1 and 2 and the
    transfer amounts, the period and the deadline the program was started
    with. *)
Theorem configuration_is_never_modified
  (b1 a1 b2 a2 : float) (period deadline : Z) (sched : list tid) (st : state) :
  run sched (start b1 a1 b2 a2 period deadline) = Some st ->
  id (account1 (mem st)) = 1 /\ id (account2 (mem st)) = 2 /\
  transfer_amount (account1 (mem st)) = a1 /\
  transfer_amount (account2 (mem st)) = a2 /\
  transfer_period_ms (mem st) = period /\
  deadline_sec (mem st) = deadline.
Proof.
  intros Hrun. exact (reachable_same_config _ _ _ Hrun).
Qed.

Lemma configuration_is_never_modified_witness :
  exists st,
    run (repeat T1 12 ++ repeat T2 12) (start 100 30 50 40 10 5) = Some st /\
    id (account1 (mem st)) = 1 /\ id (account2 (mem st)) = 2 /\
    transfer_amount (account1 (mem st)) = 30%float /\
    transfer_amount (account2 (mem st)) = 40%float /\
    transfer_period_ms (mem st) = 10 /\
    deadline_sec (mem st) = 5.
Proof.
  eexists. split; [vm_compute; reflexivity |].
  refine (configuration_is_never_modified 100 30 50 40 10 5
            (repeat T1 12 ++ repeat T2 12) _ _).
  vm_compute. reflexivity.
Defined.

(** ** The reason buffer is never overrun *)

(** X6.  The reason buffer keeps its 100 bytes, and every byte a thread
    stores into it goes to an index inside it: below 100 for the
    [snprintf] of a worker thread, below 24 for the [strcpy] of the main
    thread. *)
Theorem reason_buffer_never_overrun
  (b1 a1 b2 a2 : float) (period deadline : Z) (sched : list tid) (st : state) :
  run sched (start b1 a1 b2 a2 period deadline) = Some st ->
  List.length (termination_reason (mem st)) = 100%nat /\
  (forall i c r, pc1 st = PSnprintf i (c :: r) -> (i < 100)%nat) /\
  (forall i c r, pc2 st = PSnprintf i (c :: r) -> (i < 100)%nat) /\
  (forall i c r, pcm st = MStrcpy i (c :: r) -> (i < 24)%nat).
Proof.
  intros Hrun. apply reachable_invariants in Hrun as (_ & (B1 & B2 & Bm & Bl) & _).
  split; [exact Bl |]. repeat split; intros i c r Hpc.
  - specialize (B1 _ _ Hpc). cbn [List.length] in B1. lia.
  - specialize (B2 _ _ Hpc). cbn [List.length] in B2. lia.
  - specialize (Bm _ _ Hpc). cbn [List.length] in Bm. lia.
Qed.

Lemma reason_buffer_never_overrun_witness :
  exists st,
    run (repeat T1 20) (start 0 1 50 40 10 0) = Some st /\
    List.length (termination_reason (mem st)) = 100%nat.
Proof.
  eexists. split; [vm_compute; reflexivity |].
  refine (proj1 (reason_buffer_never_overrun 0 1 50 40 10 0 (repeat T1 20) _ _)).
  vm_compute. reflexivity.
Defined.

(** ** Counters and output *)

Lemma long_wrap_succ (x : Z) : long_wrap (long_wrap x + 1) = long_wrap (x + 1).
Proof.
  unfold long_wrap.
  replace ((x + 2 ^ 63) mod 2 ^ 64 - 2 ^ 63 + 1 + 2 ^ 63)
    with ((x + 2 ^ 63) mod 2 ^ 64 + 1) by lia.
  rewrite Zplus_mod_idemp_l. f_equal. f_equal. lia.
Qed.

Lemma successes_app (i : Z) (l1 l2 : list output) :
  successes i (l1 ++ l2) = successes i l1 + successes i l2.
Proof. unfold successes. rewrite filter_app, length_app. lia. Qed.

Lemma count_inv_step (t : tid) (st st' : state) :
  count_inv st -> step t st = Some st' -> count_inv st'.
Proof.
  intros (I1 & I2 & C1 & C2) Hstep. unfold count_inv.
  by_thread Hstep; cbn [mem pc1 pc2 pcm].
  - destruct (pc1 st) eqn:P; split_actor E; injection E as <- <- <-;
      cbn [printing] in *; cbn -[long_wrap successes];
      rewrite ?successes_app, ?I1, ?I2; cbn -[long_wrap successes];
      repeat split; auto; try (rewrite C1; f_equal; unfold successes; cbn; lia);
      try (rewrite C2; f_equal; unfold successes; cbn; lia).
    rewrite C1, long_wrap_succ. f_equal. lia.
  - destruct (pc2 st) eqn:P; split_actor E; injection E as <- <- <-;
      cbn [printing] in *; cbn -[long_wrap successes];
      rewrite ?successes_app, ?I1, ?I2; cbn -[long_wrap successes];
      repeat split; auto; try (rewrite C1; f_equal; unfold successes; cbn; lia);
      try (rewrite C2; f_equal; unfold successes; cbn; lia).
    rewrite C2, long_wrap_succ. f_equal. lia.
  - destruct (pcm st) eqn:P; split_main E; injection E as <- <-;
      cbn -[long_wrap successes]; rewrite ?successes_app;
      repeat split; auto;
      try (rewrite C1; f_equal; unfold successes; cbn; lia);
      try (rewrite C2; f_equal; unfold successes; cbn; lia).
Qed.

Lemma reachable_count_inv (b1 a1 b2 a2 : float) (period deadline : Z)
  (sched : list tid) (st : state) :
  run sched (start b1 a1 b2 a2 period deadline) = Some st -> count_inv st.
Proof.
  apply (run_invariant count_inv).
  - intros t s s'. apply count_inv_step.
  - repeat split.
Qed.

(** X7.  Each counter counts the lines its thread has printed: whenever
    a worker thread is not between its increment of the counter and its
    [printf], the counter of its source account is the number of SUCCESS
    lines in the output that name this account as the source, as a
    [long]. *)
Theorem counters_count_success_lines
  (b1 a1 b2 a2 : float) (period deadline : Z) (sched : list tid) (st : state) :
  run sched (start b1 a1 b2 a2 period deadline) = Some st ->
  (pc1 st <> PPrintf ->
   successful_transfers (account1 (mem st)) = long_wrap (successes 1 (stdout (mem st)))) /\
  (pc2 st <> PPrintf ->
   successful_transfers (account2 (mem st)) = long_wrap (successes 2 (stdout (mem st)))).
Proof.
  intros Hrun. destruct (reachable_count_inv _ _ _ _ _ _ _ _ Hrun) as (_ & _ & C1 & C2).
  split; intros Hp.
  - rewrite C1. f_equal. destruct (pc1 st); try congruence; cbn; lia.
  - rewrite C2. f_equal. destruct (pc2 st); try congruence; cbn; lia.
Qed.

Lemma counters_count_success_lines_witness :
  exists st,
    run (repeat T1 12 ++ repeat T2 12 ++ repeat T1 11) (start 100 30 50 40 10 5) = Some st /\
    pc1 st <> PPrintf /\
    successful_transfers (account1 (mem st)) = 2 /\
    successes 1 (stdout (mem st)) = 2.
Proof.
  eexists. split; [vm_compute; reflexivity |]. split; [discriminate |].
  split; [| reflexivity].
  refine (proj1 (counters_count_success_lines 100 30 50 40 10 5
                   (repeat T1 12 ++ repeat T2 12 ++ repeat T1 11) _ _) _).
  - vm_compute. reflexivity.
  - discriminate.
Defined.

Lemma report_inv_step (t : tid) (st st' : state) :
  report_inv st -> step t st = Some st' -> report_inv st'.
Proof.
  intros (J1 & J2 & F & D) Hstep. unfold report_inv.
  by_thread Hstep; cbn [mem pc1 pc2 pcm].
  - assert (Hm : pcm st <> MJoin2 /\ pcm st <> MPrint /\ pcm st <> MDone).
    { repeat split; intros Hp; rewrite J1 in E by auto; discriminate E. }
    destruct Hm as (M1 & M2 & M3).
    split; [intros [? | [? | ?]]; congruence |].
    split; [intros Hp; apply J2; exact Hp |].
    split; [| intros; congruence].
    intros _. specialize (F M3).
    destruct (pc1 st) eqn:P; split_actor E; injection E as <- <- <-;
      try exact F; try (destruct (source_of T1), (dest_of T1); exact F).
    cbn. rewrite forallb_app, F. reflexivity.
  - assert (Hm : pcm st <> MPrint /\ pcm st <> MDone).
    { repeat split; intros Hp; rewrite J2 in E by auto; discriminate E. }
    destruct Hm as (M2 & M3).
    split; [exact J1 |].
    split; [intros [? | ?]; congruence |].
    split; [| intros; congruence].
    intros _. specialize (F M3).
    destruct (pc2 st) eqn:P; split_actor E; injection E as <- <- <-;
      try exact F; try (destruct (source_of T2), (dest_of T2); exact F).
    cbn. rewrite forallb_app, F. reflexivity.
  - destruct (pcm st) eqn:P; split_main E; injection E as <- <-; cbn [stdout print].
    all: repeat split;
      try (intros [Hp | [Hp | Hp]]; discriminate Hp);
      try (intros [Hp | Hp]; discriminate Hp);
      try (intros Hp; discriminate Hp);
      try (intros _; apply F; discriminate);
      try (intros _; apply J1; auto; fail);
      try (intros _; apply J2; auto; fail);
      try (intros _; destruct (pc1 st); try discriminate; reflexivity);
      try (intros _; destruct (pc2 st); try discriminate; reflexivity).
    + intros Hp. congruence.
    + intros _. exists (stdout (mem st)). split; [apply F; discriminate |]. reflexivity.
Qed.

Lemma reachable_report_inv (b1 a1 b2 a2 : float) (period deadline : Z)
  (sched : list tid) (st : state) :
  run sched (start b1 a1 b2 a2 period deadline) = Some st -> report_inv st.
Proof.
  apply (run_invariant report_inv).
  - intros t s s'. apply report_inv_step.
  - repeat split; try (intros [H | [H | H]]; discriminate H);
      try (intros [H | H]; discriminate H); intros H; discriminate H.
Qed.

(** X8.  Of what the program prints once the threads exist: when [main]
    has printed the final results, both worker threads have returned, so
    nothing is printed between the [printf] calls of the results or after
    them; all that was printed before them is SUCCESS lines; the results
    show the balances, the counters and the reason string as they are in
    memory; and each count they show is the number of SUCCESS lines of
    that direction, as a [long]. *)
Theorem final_results_close_the_output
  (b1 a1 b2 a2 : float) (period deadline : Z) (sched : list tid) (st : state) :
  run sched (start b1 a1 b2 a2 period deadline) = Some st ->
  pcm st = MDone ->
  finished st /\
  exists lines,
    stdout (mem st) = lines ++ [final_results (mem st)] /\
    forallb is_success lines = true /\
    successful_transfers (account1 (mem st)) = long_wrap (successes 1 lines) /\
    successful_transfers (account2 (mem st)) = long_wrap (successes 2 lines).
Proof.
  intros Hrun Hm.
  destruct (reachable_report_inv _ _ _ _ _ _ _ _ Hrun) as (J1 & J2 & _ & D).
  destruct (reachable_count_inv _ _ _ _ _ _ _ _ Hrun) as (_ & _ & C1 & C2).
  specialize (J1 (or_intror (or_intror Hm))). specialize (J2 (or_intror Hm)).
  destruct (D Hm) as (lines & Hl & Hout).
  split; [repeat split; assumption |].
  exists lines. split; [exact Hout |]. split; [exact Hl |].
  rewrite J1 in C1. rewrite J2 in C2. rewrite Hout in C1, C2.
  rewrite successes_app in C1, C2. split.
  - rewrite C1. f_equal. unfold successes. cbn. lia.
  - rewrite C2. f_equal. unfold successes. cbn. lia.
Qed.

Lemma final_results_close_the_output_witness :
  exists st,
    run (repeat T1 12 ++ repeat TMain 28 ++ [T1; T1; T2] ++ repeat TMain 3)
        (start 100 30 50 40 10 5) = Some st /\
    pcm st = MDone /\ finished st.
Proof.
  eexists. split; [vm_compute; reflexivity |]. split; [reflexivity |].
  refine (proj1 (final_results_close_the_output 100 30 50 40 10 5
                   (repeat T1 12 ++ repeat TMain 28 ++ [T1; T1; T2] ++ repeat TMain 3)
                   _ _ _)).
  - vm_compute. reflexivity.
  - reflexivity.
Defined.

(** ** What can still happen once the flag is set *)

Lemma pending_step (t : tid) (st st' : state) :
  is_terminated (mem st) <> 0 -> step t st = Some st' ->
  (transfers_logged (mem st') + pending (pc1 st') + pending (pc2 st') <=
   transfers_logged (mem st) + pending (pc1 st) + pending (pc2 st))%nat.
Proof.
  intros Hf Hstep. unfold transfers_logged.
  by_thread Hstep; cbn [mem pc1 pc2 pcm].
  - destruct (pc1 st) eqn:P; split_actor E; injection E as <- <- <-;
      try (destruct (source_of T1), (dest_of T1));
      cbn [pending stdout print log_success set_termination_reason set_is_terminated
           debit credit count_transfer store log_lock];
      rewrite ?filter_app, ?length_app; cbn; lia.
  - destruct (pc2 st) eqn:P; split_actor E; injection E as <- <- <-;
      try (destruct (source_of T2), (dest_of T2));
      cbn [pending stdout print log_success set_termination_reason set_is_terminated
           debit credit count_transfer store log_lock];
      rewrite ?filter_app, ?length_app; cbn; lia.
  - destruct (pcm st) eqn:P; split_main E; injection E as <- <-;
      cbn [stdout print set_termination_reason set_is_terminated];
      rewrite ?filter_app, ?length_app; cbn; lia.
Qed.

Lemma pending_run (sched : list tid) (st st' : state) :
  is_terminated (mem st) <> 0 -> run sched st = Some st' ->
  (transfers_logged (mem st') + pending (pc1 st') + pending (pc2 st') <=
   transfers_logged (mem st) + pending (pc1 st) + pending (pc2 st))%nat.
Proof.
  revert st. induction sched as [| t rest IH]; cbn [run]; intros st Hf Hrun.
  - injection Hrun as <-. lia.
  - destruct (step t st) as [st1 |] eqn:E; [| discriminate].
    pose proof (pending_step _ _ _ Hf E).
    pose proof (IH st1 (step_flag _ _ _ E Hf) Hrun). lia.
Qed.

Lemma pending_excludes (st : state) :
  lock_inv st -> (pending (pc1 st) + pending (pc2 st) <= 1)%nat.
Proof.
  intros Hinv. destruct (critical_owns_both st Hinv) as (_ & _ & X).
  destruct (pc1 st), (pc2 st); cbn in *; try lia; discriminate X.
Qed.

Lemma writing_excludes (st : state) :
  lock_inv st ->
  (writing (pc2 st) = true ->
   forall m, holds T1 (pc1 st) m = false /\ mutex (deref m (mem st)) = Some T2) /\
  (writing (pc1 st) = true ->
   forall m, holds T2 (pc2 st) m = false /\ mutex (deref m (mem st)) = Some T1).
Proof.
  intros Hinv. split; intros Hw m; destruct (Hinv m) as [I X]; unfold owner_by_pc in I.
  - assert (H2 : holds T2 (pc2 st) m = true) by (destruct (pc2 st); try discriminate Hw; reflexivity).
    rewrite H2 in *. destruct (holds T1 (pc1 st) m); [discriminate X |]. auto.
  - assert (H1 : holds T1 (pc1 st) m = true) by (destruct (pc1 st); try discriminate Hw; reflexivity).
    rewrite H1 in *. destruct (holds T2 (pc2 st) m); [discriminate X |]. auto.
Qed.

Lemma accounts_kept_trans (g0 g g' : globals) :
  accounts_kept g0 g -> accounts_kept g g' -> accounts_kept g0 g'.
Proof.
  intros H1 H2 p. destruct (H1 p) as (A & B & C). destruct (H2 p) as (A' & B' & C').
  repeat split; congruence.
Qed.

(** A statement that is not part of a transfer under way leaves accounts
    and SUCCESS lines alone. *)
Lemma actor_step_keeps (t : tid) (pc pc' : actor_pc) (g g' : globals) evs :
  actor_step t pc g = Some (pc', g', evs) -> pending pc = 0%nat ->
  accounts_kept g g' /\ transfers_logged g' = transfers_logged g.
Proof.
  intros H Hp. unfold transfers_logged.
  destruct pc; try discriminate Hp; split_actor H; injection H as <- <- <-;
    (split; [intros p; destruct t, p; cbn; auto | destruct t; reflexivity]).
Qed.

Lemma main_step_keeps (pc pc' : main_pc) (d1 d2 : bool) (g g' : globals) :
  main_step pc d1 d2 g = Some (pc', g') ->
  accounts_kept g g' /\ transfers_logged g' = transfers_logged g.
Proof.
  intros H. unfold transfers_logged.
  destruct pc; split_main H; injection H as <- <-;
    (split; [intros p; destruct p; cbn; auto
            | cbn; rewrite ?filter_app, ?length_app; cbn; lia]).
Qed.

Lemma halt_inv_step (g0 : globals) (t : tid) (st st' : state) :
  halt_inv g0 st -> step t st = Some st' -> halt_inv g0 st'.
Proof.
  intros (Hl & Hw & P1 & P2 & Hk & Hn) Hstep.
  pose proof (lock_inv_step _ _ _ Hl Hstep) as Hl'.
  destruct (writing_excludes st Hl) as [W2 W1].
  unfold halt_inv. split; [exact Hl' |]. clear Hl'.
  by_thread Hstep; cbn [mem pc1 pc2 pcm].
  - destruct (actor_step_keeps _ _ _ _ _ _ E P1) as [Hk' Hn'].
    split; [| split; [| split; [exact P2 | split;
      [eapply accounts_kept_trans; eassumption | congruence]]]].
    + destruct (pc1 st) eqn:P; try discriminate P1; cbn [writing] in *;
        split_actor E; injection E as <- <- <-; cbn [writing is_terminated set_is_terminated];
        try tauto; try (destruct Hw as [? | [Hw | ?]]; auto; discriminate Hw);
        left; cbn; discriminate.
    + destruct (pc1 st) eqn:P; try discriminate P1.
      all: try (assert (Hw' : is_terminated (mem st) <> 0 \/ writing (pc2 st) = true)
                  by (destruct Hw as [? | [Hw | ?]]; auto; discriminate Hw); clear Hw).
      all: split_actor E; injection E as <- <- <-; try reflexivity.
      destruct Hw' as [Hf | Hw2]; [lia |].
      destruct (W2 Hw2 Account1) as [Hh1 _]. discriminate Hh1.
  - destruct (actor_step_keeps _ _ _ _ _ _ E P2) as [Hk' Hn'].
    split; [| split; [exact P1 | split; [| split;
      [eapply accounts_kept_trans; eassumption | congruence]]]].
    + destruct (pc2 st) eqn:P; try discriminate P2; cbn [writing] in *;
        split_actor E; injection E as <- <- <-; cbn [writing is_terminated set_is_terminated];
        try tauto; try (destruct Hw as [? | [? | Hw]]; auto; discriminate Hw);
        left; cbn; discriminate.
    + destruct (pc2 st) eqn:P; try discriminate P2.
      all: try (assert (Hw' : is_terminated (mem st) <> 0 \/ writing (pc1 st) = true)
                  by (destruct Hw as [? | [? | Hw]]; auto; discriminate Hw); clear Hw).
      all: split_actor E; injection E as <- <- <-; try reflexivity.
      destruct Hw' as [Hf | Hw1]; [lia |].
      destruct (W1 Hw1 Account1) as [Hh1 _]. discriminate Hh1.
  - destruct (main_step_keeps _ _ _ _ _ _ E) as [Hk' Hn'].
    split; [| split; [exact P1 | split; [exact P2 | split;
      [eapply accounts_kept_trans; eassumption | congruence]]]].
    destruct (pcm st) eqn:P; split_main E; injection E as <- <-;
      cbn [is_terminated set_is_terminated set_termination_reason print];
      try exact Hw; left; discriminate.
Qed.

(** X9.  Once the termination flag is set, at most one more transfer is
    made by the two worker threads together, and it is one that had
    already passed the test of the flag; when no thread is there, the
    balances, the counters and the number of SUCCESS lines never change
    again. *)
Theorem at_most_one_transfer_after_flag
  (b1 a1 b2 a2 : float) (period deadline : Z) (sched sched' : list tid) (st st' : state) :
  run sched (start b1 a1 b2 a2 period deadline) = Some st ->
  is_terminated (mem st) <> 0 ->
  run sched' st = Some st' ->
  (transfers_logged (mem st') <= transfers_logged (mem st) + 1)%nat /\
  (pending (pc1 st) = 0%nat -> pending (pc2 st) = 0%nat ->
   accounts_kept (mem st) (mem st') /\
   transfers_logged (mem st') = transfers_logged (mem st)).
Proof.
  intros Hrun Hf Hrun'. apply reachable_invariants in Hrun as (Hl & _ & _). split.
  - pose proof (pending_excludes st Hl). pose proof (pending_run _ _ _ Hf Hrun'). lia.
  - intros P1 P2.
    assert (H : halt_inv (mem st) st').
    { revert Hrun'. apply (run_invariant (halt_inv (mem st))).
      - intros t s s'. apply halt_inv_step.
      - split; [exact Hl |]. repeat split; auto. }
    destruct H as (_ & _ & _ & _ & Hk & Hn). split; assumption.
Qed.

Lemma at_most_one_transfer_after_flag_witness :
  exists st st',
    run (repeat T1 5 ++ repeat TMain 3) (start 100 30 50 40 10 5) = Some st /\
    is_terminated (mem st) <> 0 /\
    run (repeat T1 9) st = Some st' /\
    (transfers_logged (mem st') <= transfers_logged (mem st) + 1)%nat.
Proof.
  eexists. eexists. split; [vm_compute; reflexivity |].
  split; [discriminate |]. split; [vm_compute; reflexivity |].
  refine (proj1 (at_most_one_transfer_after_flag 100 30 50 40 10 5
                   (repeat T1 5 ++ repeat TMain 3) (repeat T1 9) _ _ _ _ _)).
  - vm_compute. reflexivity.
  - discriminate.
  - vm_compute. reflexivity.
Defined.

(** ** Insufficient funds end the transfers *)

Lemma accounts_kept_short (g g' : globals) (p : acct_ptr) :
  accounts_kept g g' -> short p g' = short p g.
Proof. intros H. destruct (H p) as (A & B & _). unfold short. now rewrite A, B. Qed.

Lemma critical_not_pending (st : state) :
  lock_inv st ->
  (in_critical (pc1 st) = true -> pending (pc2 st) = 0%nat) /\
  (in_critical (pc2 st) = true -> pending (pc1 st) = 0%nat).
Proof.
  intros Hinv. destruct (critical_owns_both st Hinv) as (_ & _ & X).
  split; intros Hc; rewrite Hc in X.
  - destruct (pc2 st); try reflexivity; discriminate X.
  - rewrite andb_true_r in X. destruct (pc1 st); try reflexivity; discriminate X.
Qed.

Lemma writing_in_critical (pc : actor_pc) : writing pc = true -> in_critical pc = true.
Proof. destruct pc; intros H; try discriminate H; reflexivity. Qed.

Lemma writing_not_pending (pc : actor_pc) : writing pc = true -> pending pc = 0%nat.
Proof. destruct pc; intros H; try discriminate H; reflexivity. Qed.

Lemma short_inv_step (t : tid) (st st' : state) :
  short_inv st -> step t st = Some st' -> short_inv st'.
Proof.
  intros (Hl & S1 & S2) Hstep.
  pose proof (lock_inv_step _ _ _ Hl Hstep) as Hl'.
  destruct (critical_not_pending st Hl) as [C1 C2].
  split; [exact Hl' |]. clear Hl'.
  by_thread Hstep; cbn [mem pc1 pc2 pcm].
  - split.
    + intros Hw. destruct (pc1 st) eqn:P; split_actor E; injection E as <- <- <-;
        try discriminate Hw; try (apply S1; reflexivity); assumption.
    + intros Hw. specialize (S2 Hw).
      specialize (C2 (writing_in_critical _ Hw)).
      destruct (actor_step_keeps _ _ _ _ _ _ E C2) as [Hk _].
      now rewrite (accounts_kept_short _ _ _ Hk).
  - split.
    + intros Hw. specialize (S1 Hw).
      specialize (C1 (writing_in_critical _ Hw)).
      destruct (actor_step_keeps _ _ _ _ _ _ E C1) as [Hk _].
      now rewrite (accounts_kept_short _ _ _ Hk).
    + intros Hw. destruct (pc2 st) eqn:P; split_actor E; injection E as <- <- <-;
        try discriminate Hw; try (apply S2; reflexivity); assumption.
  - destruct (main_step_keeps _ _ _ _ _ _ E) as [Hk _].
    split; intros Hw; rewrite (accounts_kept_short _ _ _ Hk); auto.
Qed.

Lemma reachable_short_inv (b1 a1 b2 a2 : float) (period deadline : Z)
  (sched : list tid) (st : state) :
  run sched (start b1 a1 b2 a2 period deadline) = Some st -> short_inv st.
Proof.
  apply (run_invariant short_inv).
  - intros t s s'. apply short_inv_step.
  - split; [apply lock_inv_start; split; reflexivity |].
    split; intros H; discriminate H.
Qed.

Lemma accounts_kept_refl (g : globals) : accounts_kept g g.
Proof. intros p. auto. Qed.

Lemma halt_inv_writing (st : state) :
  lock_inv st -> writing (pc1 st) = true \/ writing (pc2 st) = true ->
  halt_inv (mem st) st.
Proof.
  intros Hl Hw. destruct (critical_not_pending st Hl) as [C1 C2].
  split; [exact Hl |]. split; [tauto |].
  assert (pending (pc1 st) = 0%nat /\ pending (pc2 st) = 0%nat) as [P1 P2].
  { destruct Hw as [Hw | Hw].
    - split; [now apply writing_not_pending | now apply C1, writing_in_critical].
    - split; [now apply C2, writing_in_critical | now apply writing_not_pending]. }
  repeat split; auto.
Qed.

(** X10.  Insufficient funds are final: from the moment a worker thread
    has found the balance of its source account below the transfer
    amount, the balances, the counters and the number of SUCCESS lines
    never change again, however the threads are interleaved, so that
    account stays below its transfer amount. *)
Theorem no_transfer_after_insufficient_funds
  (b1 a1 b2 a2 : float) (period deadline : Z) (sched sched' : list tid) (st st' : state) :
  run sched (start b1 a1 b2 a2 period deadline) = Some st ->
  writing (pc1 st) = true \/ writing (pc2 st) = true ->
  run sched' st = Some st' ->
  accounts_kept (mem st) (mem st') /\
  transfers_logged (mem st') = transfers_logged (mem st) /\
  (writing (pc1 st) = true -> short Account1 (mem st') = true) /\
  (writing (pc2 st) = true -> short Account2 (mem st') = true).
Proof.
  intros Hrun Hw Hrun'.
  destruct (reachable_short_inv _ _ _ _ _ _ _ _ Hrun) as (Hl & S1 & S2).
  assert (H : halt_inv (mem st) st').
  { revert Hrun'. apply (run_invariant (halt_inv (mem st))).
    - intros t s s'. apply halt_inv_step.
    - now apply halt_inv_writing. }
  destruct H as (_ & _ & _ & _ & Hk & Hn).
  split; [exact Hk |]. split; [exact Hn |].
  split; intros Hw'; rewrite (accounts_kept_short _ _ _ Hk); auto.
Qed.

Lemma no_transfer_after_insufficient_funds_witness :
  exists st st',
    run (repeat T1 5) (start 0 1 50 40 10 0) = Some st /\
    (writing (pc1 st) = true \/ writing (pc2 st) = true) /\
    run (repeat T1 37 ++ [T2] ++ repeat TMain 5) st = Some st' /\
    finished st' /\
    accounts_kept (mem st) (mem st').
Proof.
  eexists. eexists. split; [vm_compute; reflexivity |].
  split; [left; reflexivity |]. split; [vm_compute; reflexivity |].
  split; [repeat split |].
  refine (proj1 (no_transfer_after_insufficient_funds 0 1 50 40 10 0
                   (repeat T1 5) (repeat T1 37 ++ [T2] ++ repeat TMain 5) _ _ _ _ _)).
  - vm_compute. reflexivity.
  - left. reflexivity.
  - vm_compute. reflexivity.
Defined.

(** ** Who has written the reason *)

Lemma store_bytes_app (l1 l2 : list ascii) (i : nat) (buf : list ascii) :
  store_bytes i (l1 ++ l2) buf = store_bytes (i + List.length l1) l2 (store_bytes i l1 buf).
Proof.
  revert i buf. induction l1 as [| c r IH]; intros i buf; cbn [app store_bytes List.length].
  - now rewrite Nat.add_0_r.
  - rewrite IH. f_equal. lia.
Qed.

Lemma stored_so_far_step (whole : list ascii) (i : nat) (c : ascii) (r buf : list ascii) :
  stored_so_far whole i (c :: r) buf -> stored_so_far whole (S i) r (write_at i c buf).
Proof.
  intros (pre & Hw & Hl & Hb). exists (pre ++ [c]).
  split; [now rewrite <- app_assoc |].
  split; [rewrite length_app; cbn; lia |].
  rewrite store_bytes_app. cbn [store_bytes Nat.add]. now rewrite Hl, Hb.
Qed.

Lemma stored_so_far_start (whole buf : list ascii) :
  buf = empty_reason -> stored_so_far whole 0 whole buf.
Proof. intros ->. exists []. auto. Qed.

Lemma stored_so_far_end (whole : list ascii) (i : nat) (buf : list ascii) :
  stored_so_far whole i [] buf -> buf = store_bytes 0 whole empty_reason.
Proof. intros (pre & Hw & _ & Hb). rewrite app_nil_r in Hw. now subst. Qed.

(** What a statement outside [snprintf] and the store into the flag does
    to flag and buffer, and how a thread gets there. *)
Lemma actor_step_not_writing (t : tid) (pc pc' : actor_pc) (g g' : globals) evs :
  actor_step t pc g = Some (pc', g', evs) -> writing pc = false ->
  termination_reason g' = termination_reason g /\
  is_terminated g' = is_terminated g /\
  (writing pc' = true ->
   pc = PCheckFunds /\ pc' = PSnprintf 0 (reason_bytes (source_of t) g) /\
   short (source_of t) g = true /\ g' = g).
Proof.
  intros H Hw. unfold short.
  destruct pc; try discriminate Hw; split_actor H; injection H as <- <- <-;
    (split; [destruct t; reflexivity |]); (split; [destruct t; reflexivity |]);
    intros Hw'; try discriminate Hw'; auto.
Qed.

Lemma actor_step_writing (t : tid) (pc pc' : actor_pc) (g g' : globals) evs :
  actor_step t pc g = Some (pc', g', evs) -> writing pc = true ->
  match pc with
  | PSnprintf i (c :: r) =>
      pc' = PSnprintf (S i) r /\ is_terminated g' = is_terminated g /\
      termination_reason g' = write_at i c (termination_reason g)
  | PSnprintf i [] => pc' = PSetFlag /\ g' = g
  | _ =>
      pc' = PUnlockFirst (-1) /\ is_terminated g' = 1 /\
      termination_reason g' = termination_reason g
  end.
Proof.
  intros H Hw.
  destruct pc; try discriminate Hw; split_actor H; injection H as <- <- <-; auto.
Qed.

Lemma main_step_reason (pc pc' : main_pc) (d1 d2 : bool) (g g' : globals) :
  main_step pc d1 d2 g = Some (pc', g') ->
  match pc with
  | MCheck =>
      g' = g /\ (if is_terminated g =? 0 then pc' = MSetFlag else pc' = MJoin1)
  | MSetFlag =>
      pc' = MStrcpy 0 (c_bytes deadline_msg) /\ is_terminated g' = 1 /\
      termination_reason g' = termination_reason g
  | MStrcpy i (c :: r) =>
      pc' = MStrcpy (S i) r /\ is_terminated g' = is_terminated g /\
      termination_reason g' = write_at i c (termination_reason g)
  | MStrcpy i [] => pc' = MJoin1 /\ g' = g
  | MSleep => pc' = MCheck /\ g' = g
  | _ =>
      after_watchdog pc' = true /\ is_terminated g' = is_terminated g /\
      termination_reason g' = termination_reason g
  end.
Proof.
  intros H. destruct pc; split_main H; injection H as <- <-; auto.
Qed.

Lemma step_worker (t : tid) (st st' : state) :
  t = T1 \/ t = T2 -> step t st = Some st' ->
  exists pc' g' evs,
    actor_step t (pc_of t st) (mem st) = Some (pc', g', evs) /\
    mem st' = g' /\ pc_of t st' = pc' /\
    pc_of (other t) st' = pc_of (other t) st /\ pcm st' = pcm st.
Proof.
  unfold step, thread_transfer_1_to_2, thread_transfer_2_to_1.
  intros [-> | ->]; cbn [pc_of other];
    destruct (actor_step _ _ _) as [[[pc' g'] evs] |]; try discriminate;
    intros H; injection H as <-; exists pc', g', evs; repeat split.
Qed.

Lemma step_main (st st' : state) :
  step TMain st = Some st' ->
  exists pc' g',
    main_step (pcm st) (is_done (pc1 st)) (is_done (pc2 st)) (mem st) = Some (pc', g') /\
    mem st' = g' /\ pcm st' = pc' /\ pc1 st' = pc1 st /\ pc2 st' = pc2 st.
Proof.
  unfold step. destruct (main_step _ _ _ _) as [[pc' g'] |]; [| discriminate].
  intros H; injection H as <-. exists pc', g'. repeat split.
Qed.

Lemma both_workers (P : actor_pc -> Prop) (t : tid) (st : state) :
  t = T1 \/ t = T2 ->
  P (pc_of t st) -> P (pc_of (other t) st) -> P (pc1 st) /\ P (pc2 st).
Proof. intros [-> | ->]; cbn; auto. Qed.

Lemma halt_inv_pending (g0 : globals) (st : state) (t : tid) :
  halt_inv g0 st -> pending (pc_of t st) = 0%nat.
Proof. intros (_ & _ & P1 & P2 & _). destruct t; assumption. Qed.

Lemma reason_bytes_worker (t : tid) (g : globals) :
  t = T1 \/ t = T2 ->
  id (account1 g) = 1 -> id (account2 g) = 2 ->
  reason_bytes (source_of t) g = worker_bytes t.
Proof.
  intros [-> | ->] I1 I2; unfold reason_bytes, worker_bytes; cbn [source_of deref account_id];
    now rewrite ?I1, ?I2.
Qed.

Lemma writer_not_writing (t : tid) (pc : actor_pc) (flag : Z) (pm : main_pc)
  (buf : list ascii) :
  writing pc = false ->
  writer_progress t pc flag pm buf =
  (flag <> 0 /\ deciding pm = false /\ buf = store_bytes 0 (worker_bytes t) empty_reason).
Proof. destruct pc; intros H; try discriminate H; reflexivity. Qed.

Lemma clean_step_worker (t : tid) (st st' : state) :
  t = T1 \/ t = T2 ->
  lock_inv st -> id (account1 (mem st)) = 1 -> id (account2 (mem st)) = 2 ->
  clean st -> step t st = Some st' ->
  clean st' \/ pure t st' \/ mixed st'.
Proof.
  intros Ht Hl I1 I2 (W1 & W2 & Hm) Hstep.
  pose proof (lock_inv_step _ _ _ Hl Hstep) as Hl'.
  destruct (step_worker _ _ _ Ht Hstep) as (pc' & g' & evs & E & Eg & Ep & Eo & Em).
  assert (Wt : writing (pc_of t st) = false) by (destruct Ht as [-> | ->]; assumption).
  assert (Wo : writing (pc_of (other t) st) = false) by (destruct Ht as [-> | ->]; assumption).
  destruct (actor_step_not_writing _ _ _ _ _ _ E Wt) as (Hb & Hf & Hw).
  destruct (writing pc') eqn:Wp.
  - destruct (Hw eq_refl) as (Hpc & Hpc' & Hs & Hg). right.
    assert (Hh : halt_inv (mem st') st').
    { apply halt_inv_writing; [exact Hl' |].
      destruct Ht as [-> | ->]; cbn in Ep; rewrite Ep, Wp; auto. }
    destruct (quiet (pcm st)) eqn:Q.
    + left. split; [exists (mem st'); split; [congruence | exact Hh] |].
      split; [congruence |].
      rewrite Ep, Hpc'. cbn [writer_progress]. rewrite Em, Q, Eg, Hg.
      destruct (pcm st); try discriminate Q; destruct Hm as [F B];
        (split; [exact F |]); (split; [reflexivity |]);
        rewrite (reason_bytes_worker t (mem st) Ht I1 I2);
        now apply stored_so_far_start.
    + right. split; [congruence |].
      exists (mem st'), (source_of t). split; [congruence | exact Hh].
  - left. subst g'.
    assert (Wp' : writing (pc_of t st') = false) by congruence.
    assert (Wo' : writing (pc_of (other t) st') = false) by congruence.
    destruct (both_workers (fun pc => writing pc = false) t st' Ht Wp' Wo') as [A B].
    split; [exact A |]. split; [exact B |].
    rewrite Em, Hb, Hf. exact Hm.
Qed.

Lemma clean_step_main (st st' : state) :
  clean st -> step TMain st = Some st' -> clean st'.
Proof.
  intros (W1 & W2 & Hm) Hstep.
  destruct (step_main _ _ Hstep) as (pc' & g' & E & Eg & Ep & E1 & E2).
  split; [congruence |]. split; [congruence |].
  rewrite Ep, Eg. apply main_step_reason in E.
  destruct (pcm st) as [| | | i bytes | | | |] eqn:P.
  - destruct E as [-> ->]. exact Hm.
  - destruct E as [-> E]. destruct Hm as [F B]. rewrite F in E. cbn in E. subst pc'. auto.
  - destruct E as (-> & F' & B'). destruct Hm as [F B].
    rewrite B'. now apply stored_so_far_start.
  - destruct bytes as [| c r].
    + destruct E as [-> ->]. now apply stored_so_far_end in Hm.
    + destruct E as (-> & F' & B'). rewrite B'. now apply stored_so_far_step.
  - destruct E as (A & F' & B'). rewrite B'. destruct pc'; try discriminate A; exact Hm.
  - destruct E as (A & F' & B'). rewrite B'. destruct pc'; try discriminate A; exact Hm.
  - destruct E as (A & F' & B'). rewrite B'. destruct pc'; try discriminate A; exact Hm.
  - destruct E as (A & F' & B'). rewrite B'. destruct pc'; try discriminate A; exact Hm.
Qed.

Lemma other_other (t : tid) : t = T1 \/ t = T2 -> other (other t) = t.
Proof. intros [-> | ->]; reflexivity. Qed.

Lemma other_worker (t : tid) : t = T1 \/ t = T2 -> other t = T1 \/ other t = T2.
Proof. intros [-> | ->]; cbn; auto. Qed.

Lemma pure_step_self (t : tid) (st st' : state) :
  t = T1 \/ t = T2 -> pure t st -> step t st = Some st' -> pure t st'.
Proof.
  intros Ht ((g0 & Hs & Hh) & Wo & Hm) Hstep.
  pose proof (halt_inv_step _ _ _ _ Hh Hstep) as Hh'.
  destruct (step_worker _ _ _ Ht Hstep) as (pc' & g' & evs & E & Eg & Ep & Eo & Em).
  split; [exists g0; split; assumption |]. split; [congruence |].
  rewrite Ep, Em, Eg.
  destruct (writing (pc_of t st)) eqn:Wt.
  - pose proof (actor_step_writing _ _ _ _ _ _ E Wt) as Hw.
    destruct (pc_of t st) as [| | | | | i bytes | | | | | | | | | |] eqn:P; try discriminate Wt;
      cbn [writer_progress] in Hm.
    + destruct bytes as [| c r]; cbn [writer_progress].
      * destruct Hw as [-> ->]. destruct Hm as (F & Q & B).
        split; [exact F |]. split; [exact Q |]. now apply stored_so_far_end in B.
      * destruct Hw as (-> & F' & B'). destruct Hm as (F & Q & B).
        rewrite F', B'. split; [exact F |]. split; [exact Q |].
        now apply stored_so_far_step.
    + destruct Hw as (-> & F' & B'). destruct Hm as (F & Q & B). cbn [writer_progress].
      rewrite F', B'. split; [discriminate |]. split; [| exact B].
      destruct (pcm st); try discriminate Q; reflexivity.
  - destruct (actor_step_not_writing _ _ _ _ _ _ E Wt) as (Hb & Hf & Hw).
    rewrite writer_not_writing in Hm by exact Wt.
    assert (Wp : writing pc' = false).
    { destruct (writing pc') eqn:Wp; [| reflexivity].
      destruct (Hw eq_refl) as (Hpc & _).
      pose proof (halt_inv_pending _ _ t Hh) as Hp. rewrite Hpc in Hp. discriminate Hp. }
    rewrite writer_not_writing by exact Wp. rewrite Hb, Hf. exact Hm.
Qed.

Lemma pure_step_other (t : tid) (st st' : state) :
  t = T1 \/ t = T2 -> pure t st -> step (other t) st = Some st' -> pure t st'.
Proof.
  intros Ht ((g0 & Hs & Hh) & Wo & Hm) Hstep.
  pose proof (halt_inv_step _ _ _ _ Hh Hstep) as Hh'.
  destruct (step_worker _ _ _ (other_worker t Ht) Hstep)
    as (pc' & g' & evs & E & Eg & Ep & Eo & Em).
  rewrite (other_other t Ht) in Eo.
  destruct (actor_step_not_writing _ _ _ _ _ _ E Wo) as (Hb & Hf & Hw).
  split; [exists g0; split; assumption |]. split.
  - rewrite Ep. destruct (writing pc') eqn:Wp; [| reflexivity].
    destruct (Hw eq_refl) as (Hpc & _).
    pose proof (halt_inv_pending _ _ (other t) Hh) as Hp. rewrite Hpc in Hp. discriminate Hp.
  - rewrite Eo, Em, Eg, Hb, Hf. exact Hm.
Qed.

Lemma pure_step_main (t : tid) (st st' : state) :
  t = T1 \/ t = T2 -> pure t st -> step TMain st = Some st' ->
  pure t st' \/ (is_terminated (mem st) = 0 /\ mixed st').
Proof.
  intros Ht ((g0 & Hs & Hh) & Wo & Hm) Hstep.
  pose proof (halt_inv_step _ _ _ _ Hh Hstep) as Hh'.
  destruct (step_main _ _ Hstep) as (pc' & g' & E & Eg & Ep & E1 & E2).
  assert (Et : pc_of t st' = pc_of t st) by (destruct Ht as [-> | ->]; assumption).
  assert (Eo : pc_of (other t) st' = pc_of (other t) st)
    by (destruct Ht as [-> | ->]; assumption).
  apply main_step_reason in E.
  assert (Hq : quiet (pcm st) = true \/ (deciding (pcm st) = false /\ quiet (pcm st) = false) \/
               deciding (pcm st) = true)
    by (destruct (pcm st); cbn; auto).
  assert (Hcase : (is_terminated (mem st) = 0 /\ quiet (pcm st) = true) \/
                  (is_terminated (mem st) <> 0 /\ deciding (pcm st) = false)).
  { destruct (pc_of t st); cbn [writer_progress] in Hm; destruct Hm as (F & Q & _); auto. }
  destruct Hcase as [[F Q] | [F Q]].
  - (* the flag is clear: the main thread sleeps or tests the flag *)
    destruct (pcm st) eqn:P; try discriminate Q.
    + destruct E as [-> ->]. left.
      split; [exists g0; split; assumption |]. split; [congruence |].
      rewrite Et, Ep, Eg. exact Hm.
    + destruct E as [-> E]. rewrite F in E. cbn in E. subst pc'. right.
      split; [exact F |]. split; [rewrite Ep; reflexivity |].
      exists g0, (source_of t). split; assumption.
  - (* the flag is set *)
    left. split; [exists g0; split; assumption |]. split; [congruence |].
    rewrite Et, Ep, Eg.
    assert (Hm' : is_terminated (mem st) <> 0 /\ deciding (pcm st) = false /\
                  termination_reason (mem st) = store_bytes 0 (worker_bytes t) empty_reason).
    { destruct (pc_of t st); cbn [writer_progress] in Hm; destruct Hm as (F' & Q' & B');
        try contradiction; auto. }
    assert (Wt : writing (pc_of t st) = false).
    { destruct (pc_of t st); try reflexivity; cbn [writer_progress] in Hm;
        destruct Hm as (F' & _); contradiction. }
    rewrite writer_not_writing by exact Wt.
    destruct Hm' as (_ & _ & B).
    destruct (pcm st) eqn:P; try discriminate Q.
    + destruct E as [-> ->]. auto.
    + destruct E as [-> E]. destruct (Z.eqb_spec (is_terminated (mem st)) 0); [contradiction |].
      subst pc'. auto.
    + destruct E as (A & F' & B'). rewrite F', B'.
      split; [exact F |]. split; [destruct pc'; try discriminate A; reflexivity | exact B].
    + destruct E as (A & F' & B'). rewrite F', B'.
      split; [exact F |]. split; [destruct pc'; try discriminate A; reflexivity | exact B].
    + destruct E as (A & F' & B'). rewrite F', B'.
      split; [exact F |]. split; [destruct pc'; try discriminate A; reflexivity | exact B].
    + destruct E as (A & F' & B'). rewrite F', B'.
      split; [exact F |]. split; [destruct pc'; try discriminate A; reflexivity | exact B].
Qed.

Lemma mixed_step (t : tid) (st st' : state) :
  mixed st -> step t st = Some st' -> mixed st'.
Proof.
  intros (Q & g0 & p & Hs & Hh) Hstep.
  pose proof (halt_inv_step _ _ _ _ Hh Hstep) as Hh'.
  split; [| exists g0, p; split; assumption].
  destruct t.
  - destruct (step_worker T1 _ _ (or_introl eq_refl) Hstep) as (? & ? & ? & _ & _ & _ & _ & Em).
    congruence.
  - destruct (step_worker T2 _ _ (or_intror eq_refl) Hstep) as (? & ? & ? & _ & _ & _ & _ & Em).
    congruence.
  - destruct (step_main _ _ Hstep) as (pc' & g' & E & Eg & Ep & E1 & E2).
    rewrite Ep. apply main_step_reason in E.
    destruct (pcm st) as [| | | i bytes | | | |]; try discriminate Q;
      try (destruct E as (-> & _); reflexivity);
      try (destruct E as (A & _); destruct pc'; try discriminate A; reflexivity).
    destruct bytes; destruct E as (-> & _); reflexivity.
Qed.

Lemma reason_inv_step (t : tid) (st st' : state) :
  reason_inv st -> step t st = Some st' -> reason_inv st'.
Proof.
  intros (Hl & I1 & I2 & H) Hstep.
  pose proof (lock_inv_step _ _ _ Hl Hstep) as Hl'.
  assert (Hc : same_config (mem st) (mem st'))
    by (eapply same_config_step; [| exact Hstep]; repeat split).
  destruct Hc as (J1 & J2 & _).
  split; [exact Hl' |]. split; [congruence |]. split; [congruence |].
  destruct H as [H | [H | [H | H]]].
  - destruct t.
    + destruct (clean_step_worker T1 _ _ (or_introl eq_refl) Hl I1 I2 H Hstep)
        as [? | [? | ?]]; auto.
    + destruct (clean_step_worker T2 _ _ (or_intror eq_refl) Hl I1 I2 H Hstep)
        as [? | [? | ?]]; auto.
    + left. eapply clean_step_main; eassumption.
  - destruct t.
    + right; left. eapply pure_step_self; eauto.
    + right; left. apply (pure_step_other T1 st st'); auto.
    + destruct (pure_step_main T1 st st' (or_introl eq_refl) H Hstep) as [? | [_ ?]]; auto.
  - destruct t.
    + right; right; left. apply (pure_step_other T2 st st'); auto.
    + right; right; left. eapply pure_step_self; eauto.
    + destruct (pure_step_main T2 st st' (or_intror eq_refl) H Hstep) as [? | [_ ?]]; auto.
  - right; right; right. eapply mixed_step; eassumption.
Qed.

Lemma reachable_reason_inv (b1 a1 b2 a2 : float) (period deadline : Z)
  (sched : list tid) (st : state) :
  run sched (start b1 a1 b2 a2 period deadline) = Some st -> reason_inv st.
Proof.
  apply (run_invariant reason_inv).
  - intros t s s'. apply reason_inv_step.
  - split; [apply lock_inv_start; split; reflexivity |].
    split; [reflexivity |]. split; [reflexivity |].
    left. repeat split.
Qed.

Lemma halt_inv_short (g0 : globals) (p : acct_ptr) (st : state) :
  short p g0 = true -> halt_inv g0 st -> short p (mem st) = true.
Proof.
  intros Hs (_ & _ & _ & _ & Hk & _). now rewrite (accounts_kept_short _ _ _ Hk).
Qed.

Lemma deadline_reads_back :
  c_str (store_bytes 0 (c_bytes deadline_msg) empty_reason) = deadline_msg.
Proof. vm_compute. reflexivity. Qed.

Lemma worker_reads_back (t : tid) :
  c_str (store_bytes 0 (worker_bytes t) empty_reason)
  = insufficient_funds_msg (account_id (source_of t)).
Proof. destruct t; vm_compute; reflexivity. Qed.

(** X11.  When the main thread is past its test of the flag and neither
    account is below its transfer amount, no worker thread has ever
    touched the reason: the buffer holds what [strcpy] stored and reads
    as the text of the deadline. *)
Theorem deadline_reason_when_funds_suffice
  (b1 a1 b2 a2 : float) (period deadline : Z) (sched : list tid) (st : state) :
  run sched (start b1 a1 b2 a2 period deadline) = Some st ->
  after_watchdog (pcm st) = true ->
  short Account1 (mem st) = false -> short Account2 (mem st) = false ->
  termination_reason (mem st) = store_bytes 0 (c_bytes deadline_msg) empty_reason /\
  c_str (termination_reason (mem st)) = deadline_msg.
Proof.
  intros Hrun Ha S1 S2.
  assert (Hns : forall g0 p, short p g0 = true -> halt_inv g0 st -> False).
  { intros g0 p Hs Hh. pose proof (halt_inv_short _ _ _ Hs Hh) as H.
    destruct p; congruence. }
  destruct (reachable_reason_inv _ _ _ _ _ _ _ _ Hrun) as (_ & _ & _ & H).
  destruct H as [(_ & _ & H) | [H | [H | H]]].
  - assert (Hb : termination_reason (mem st)
                 = store_bytes 0 (c_bytes deadline_msg) empty_reason)
      by (destruct (pcm st); try discriminate Ha; exact H).
    split; [exact Hb |]. rewrite Hb. apply deadline_reads_back.
  - destruct H as ((g0 & Hs & Hh) & _). destruct (Hns _ _ Hs Hh).
  - destruct H as ((g0 & Hs & Hh) & _). destruct (Hns _ _ Hs Hh).
  - destruct H as (_ & g0 & p & Hs & Hh). destruct (Hns _ _ Hs Hh).
Qed.

Lemma deadline_reason_when_funds_suffice_witness :
  exists st,
    run (repeat T1 12 ++ repeat TMain 28 ++ [T1; T1; T2] ++ repeat TMain 3)
        (start 100 30 50 40 10 5) = Some st /\
    finished st /\
    c_str (termination_reason (mem st)) = deadline_msg.
Proof.
  eexists. split; [vm_compute; reflexivity |]. split; [repeat split |].
  refine (proj2 (deadline_reason_when_funds_suffice 100 30 50 40 10 5
                   (repeat T1 12 ++ repeat TMain 28 ++ [T1; T1; T2] ++ repeat TMain 3)
                   _ _ _ _ _)).
  - vm_compute. reflexivity.
  - reflexivity.
  - reflexivity.
  - reflexivity.
Defined.

Lemma pure_flagged_step (t x : tid) (st st' : state) :
  t = T1 \/ t = T2 ->
  pure t st /\ is_terminated (mem st) <> 0 -> step x st = Some st' ->
  pure t st' /\ is_terminated (mem st') <> 0.
Proof.
  intros Ht [Hp Hf] Hstep. split; [| eapply step_flag; eassumption].
  destruct Ht as [-> | ->]; destruct x.
  - now apply (pure_step_self T1 st st'); auto.
  - now apply (pure_step_other T1 st st'); auto.
  - destruct (pure_step_main T1 st st' (or_introl eq_refl) Hp Hstep) as [? | [? _]];
      [assumption | contradiction].
  - now apply (pure_step_other T2 st st'); auto.
  - now apply (pure_step_self T2 st st'); auto.
  - destruct (pure_step_main T2 st st' (or_intror eq_refl) Hp Hstep) as [? | [? _]];
      [assumption | contradiction].
Qed.

Lemma pure_flagged_reason (t : tid) (st : state) :
  pure t st -> is_terminated (mem st) <> 0 ->
  short (source_of t) (mem st) = true /\
  deciding (pcm st) = false /\
  termination_reason (mem st) = store_bytes 0 (worker_bytes t) empty_reason.
Proof.
  intros ((g0 & Hs & Hh) & _ & Hm) Hf.
  split; [eapply halt_inv_short; eassumption |].
  destruct (pc_of t st); cbn [writer_progress] in Hm; destruct Hm as (F & Q & B);
    try contradiction; auto.
Qed.

(** X12.  When the flag is set while the main thread has not yet tested
    it, a worker thread has set it, for an account that is below its
    transfer amount, and has stored its whole reason; from then on the
    main thread never stores its own, no thread touches the buffer any
    more, and it reads as the text of the insufficient funds of that
    account. *)
Theorem insufficient_funds_reason_when_flag_found_set
  (b1 a1 b2 a2 : float) (period deadline : Z) (sched : list tid) (st : state) :
  run sched (start b1 a1 b2 a2 period deadline) = Some st ->
  quiet (pcm st) = true -> is_terminated (mem st) <> 0 ->
  exists p,
    forall sched' st', run sched' st = Some st' ->
      short p (mem st') = true /\
      deciding (pcm st') = false /\
      termination_reason (mem st') = termination_reason (mem st) /\
      c_str (termination_reason (mem st')) = insufficient_funds_msg (account_id p).
Proof.
  intros Hrun Hq Hf.
  destruct (reachable_reason_inv _ _ _ _ _ _ _ _ Hrun) as (_ & _ & _ & H).
  assert (Hp : exists t, (t = T1 \/ t = T2) /\ pure t st).
  { destruct H as [(_ & _ & H) | [H | [H | (Q & _)]]].
    - destruct (pcm st); try discriminate Hq; destruct H as [F _]; contradiction.
    - exists T1. auto.
    - exists T2. auto.
    - congruence. }
  destruct Hp as (t & Ht & Hp). exists (source_of t). intros sched' st' Hrun'.
  assert (H' : pure t st' /\ is_terminated (mem st') <> 0).
  { revert Hrun'.
    apply (run_invariant (fun s => pure t s /\ is_terminated (mem s) <> 0)); [| auto].
    intros x s s'. now apply pure_flagged_step. }
  destruct H' as [Hp' Hf'].
  destruct (pure_flagged_reason _ _ Hp Hf) as (_ & _ & B).
  destruct (pure_flagged_reason _ _ Hp' Hf') as (S' & D' & B').
  split; [exact S' |]. split; [exact D' |]. split; [congruence |].
  rewrite B'. apply worker_reads_back.
Qed.

Lemma insufficient_funds_reason_when_flag_found_set_witness :
  exists st,
    run (repeat T1 39) (start 0 1 50 40 10 0) = Some st /\
    quiet (pcm st) = true /\ is_terminated (mem st) <> 0 /\
    exists p,
      forall sched' st', run sched' st = Some st' ->
        short p (mem st') = true /\
        deciding (pcm st') = false /\
        termination_reason (mem st') = termination_reason (mem st) /\
        c_str (termination_reason (mem st')) = insufficient_funds_msg (account_id p).
Proof.
  eexists. split; [vm_compute; reflexivity |]. split; [reflexivity |].
  split; [discriminate |].
  refine (insufficient_funds_reason_when_flag_found_set 0 1 50 40 10 0 (repeat T1 39) _ _ _ _).
  - vm_compute. reflexivity.
  - reflexivity.
  - discriminate.
Defined.

(** ** The reason is never left empty *)

Lemma write_at_starts (i : nat) (c : ascii) (buf : list ascii) :
  buf <> [] -> (i = 0%nat -> c = "G"%char \/ c = "I"%char) ->
  (i <> 0%nat -> starts_reason buf) ->
  starts_reason (write_at i c buf).
Proof.
  intros Hne H0 HS. destruct buf as [| x r]; [congruence |].
  destruct i as [| j]; cbn [write_at].
  - exists c, r. auto.
  - destruct (HS ltac:(discriminate)) as (c0 & r0 & E & Hc). injection E as -> ->.
    exists c0, (write_at j c r0). auto.
Qed.

Lemma write_at_nonempty (i : nat) (c : ascii) (buf : list ascii) :
  buf <> [] -> write_at i c buf <> [].
Proof. destruct buf, i; cbn; congruence. Qed.

Lemma first_byte_write (first : ascii) (i : nat) (c : ascii) (r buf : list ascii) :
  first = "G"%char \/ first = "I"%char ->
  buf <> [] -> first_byte first i (c :: r) buf ->
  starts_reason (write_at i c buf).
Proof.
  intros Hf Hne H. apply write_at_starts; [exact Hne | |].
  - intros ->. destruct H as (r0 & E). injection E as -> _. exact Hf.
  - intros Hi. destruct i; [congruence | exact H].
Qed.

Lemma reason_bytes_first (source : acct_ptr) (g : globals) :
  exists r, reason_bytes source g = "I"%char :: r.
Proof. unfold reason_bytes, snprintf_bytes, insufficient_funds_msg. cbn. eauto. Qed.

Lemma actor_step_first_byte (t : tid) (pc pc' : actor_pc) (g g' : globals) evs :
  actor_step t pc g = Some (pc', g', evs) ->
  termination_reason g <> [] ->
  (forall i bytes, pc = PSnprintf i bytes -> first_byte "I" i bytes (termination_reason g)) ->
  (pc = PSetFlag -> starts_reason (termination_reason g)) ->
  termination_reason g' <> [] /\
  (forall i bytes, pc' = PSnprintf i bytes -> first_byte "I" i bytes (termination_reason g')) /\
  (pc' = PSetFlag -> starts_reason (termination_reason g')) /\
  (starts_reason (termination_reason g) -> starts_reason (termination_reason g')) /\
  (is_terminated g' <> 0 ->
   is_terminated g <> 0 \/ starts_reason (termination_reason g')).
Proof.
  intros H Hne Hs Hf.
  destruct pc; split_actor H; injection H as <- <- <-;
    try (assert (Hb : termination_reason g <> []) by exact Hne);
    repeat match goal with
           | |- _ /\ _ => split
           end;
    try (destruct t; cbn; auto; fail);
    try (intros i0 bytes0 Hpc; discriminate Hpc);
    try (intros Hpc; discriminate Hpc);
    try (destruct t; exact Hne);
    try (destruct t; cbn; tauto).
  - intros i0 bytes0 Hpc. injection Hpc as <- <-. apply reason_bytes_first.
  - intros _. specialize (Hs _ _ eq_refl). destruct i; [| exact Hs].
    destruct Hs as (r & Hr). discriminate Hr.
  - cbn. now apply write_at_nonempty.
  - intros i0 bytes0 Hpc. injection Hpc as <- <-. cbn.
    apply (first_byte_write "I" i a bytes); auto.
  - intros _. cbn. apply (first_byte_write "I" i a bytes); auto.
Qed.

Lemma main_step_first_byte (pc pc' : main_pc) (d1 d2 : bool) (g g' : globals) :
  main_step pc d1 d2 g = Some (pc', g') ->
  termination_reason g <> [] ->
  (forall i bytes, pc = MStrcpy i bytes -> first_byte "G" i bytes (termination_reason g)) ->
  termination_reason g' <> [] /\
  (forall i bytes, pc' = MStrcpy i bytes -> first_byte "G" i bytes (termination_reason g')) /\
  (starts_reason (termination_reason g) -> starts_reason (termination_reason g')) /\
  (is_terminated g' <> 0 ->
   is_terminated g <> 0 \/ exists bytes, pc' = MStrcpy 0 bytes) /\
  ((exists bytes, pc = MStrcpy 0 bytes) -> starts_reason (termination_reason g')).
Proof.
  intros H Hne Hs.
  destruct pc; split_main H; injection H as <- <-;
    repeat match goal with
           | |- _ /\ _ => split
           end;
    try exact Hne; try tauto;
    try (intros i0 bytes0 Hpc; discriminate Hpc);
    try (intros (bytes0 & Hpc); discriminate Hpc);
    try (intros _; left; assumption).
  - intros i0 bytes0 Hpc. injection Hpc as <- <-. cbn. eauto.
  - intros _. right. eauto.
  - intros (bytes0 & Hpc). injection Hpc as -> _.
    destruct (Hs _ _ eq_refl) as (r & Hr). discriminate Hr.
  - cbn. now apply write_at_nonempty.
  - intros i0 bytes0 Hpc. injection Hpc as <- <-. cbn.
    apply (first_byte_write "G" i a bytes); auto.
  - intros _. cbn. apply (first_byte_write "G" i a bytes); auto.
  - intros _. cbn. apply (first_byte_write "G" i a bytes); auto.
Qed.

Lemma first_byte_kept (first : ascii) (i : nat) (bytes buf buf' : list ascii) :
  (starts_reason buf -> starts_reason buf') ->
  first_byte first i bytes buf -> first_byte first i bytes buf'.
Proof. destruct i; cbn; auto. Qed.

Lemma first_byte_inv_step (t : tid) (st st' : state) :
  first_byte_inv st -> step t st = Some st' -> first_byte_inv st'.
Proof.
  intros (Hne & S1 & S2 & F1 & F2 & Sm & Hf) Hstep. unfold first_byte_inv.
  by_thread Hstep; cbn [mem pc1 pc2 pcm].
  - destruct (actor_step_first_byte _ _ _ _ _ _ E Hne S1 F1) as (Hne' & S1' & F1' & Hk & Hf').
    split; [exact Hne' |]. split; [exact S1' |].
    split; [intros i bytes Hpc; eapply first_byte_kept; eauto |].
    split; [exact F1' |]. split; [auto |].
    split; [intros i bytes Hpc; eapply first_byte_kept; eauto |].
    intros Hflag. destruct (Hf' Hflag) as [H0 | H0]; [| now left].
    destruct (Hf H0) as [H1 | H1]; auto.
  - destruct (actor_step_first_byte _ _ _ _ _ _ E Hne S2 F2) as (Hne' & S2' & F2' & Hk & Hf').
    split; [exact Hne' |].
    split; [intros i bytes Hpc; eapply first_byte_kept; eauto |].
    split; [exact S2' |]. split; [auto |]. split; [exact F2' |].
    split; [intros i bytes Hpc; eapply first_byte_kept; eauto |].
    intros Hflag. destruct (Hf' Hflag) as [H0 | H0]; [| now left].
    destruct (Hf H0) as [H1 | H1]; auto.
  - destruct (main_step_first_byte _ _ _ _ _ _ E Hne Sm) as (Hne' & Sm' & Hk & Hf' & H0).
    split; [exact Hne' |].
    split; [intros i bytes Hpc; eapply first_byte_kept; eauto |].
    split; [intros i bytes Hpc; eapply first_byte_kept; eauto |].
    split; [auto |]. split; [auto |]. split; [exact Sm' |].
    intros Hflag. destruct (Hf' Hflag) as [H1 | H1]; [| now right].
    destruct (Hf H1) as [H2 | H2]; auto.
Qed.

Lemma reachable_first_byte_inv (b1 a1 b2 a2 : float) (period deadline : Z)
  (sched : list tid) (st : state) :
  run sched (start b1 a1 b2 a2 period deadline) = Some st -> first_byte_inv st.
Proof.
  apply (run_invariant first_byte_inv).
  - intros t s s'. apply first_byte_inv_step.
  - unfold first_byte_inv. cbn.
    repeat split; try discriminate; intros; try discriminate; congruence.
Qed.

Lemma store_bytes_keeps_head (bytes : list ascii) (i : nat) (x : ascii) (b : list ascii) :
  store_bytes (S i) bytes (x :: b) = x :: store_bytes i bytes b.
Proof.
  revert i b. induction bytes as [| c r IH]; intros i b; cbn [store_bytes write_at];
    [reflexivity |].
  destruct b as [| y b]; cbn [write_at]; apply IH.
Qed.

Lemma apply_stores_head (stores : list (nat * ascii)) (x : ascii) (b : list ascii) :
  exists b',
    apply_stores stores (x :: b)
    = match last_store_at_0 stores with Some c => c | None => x end :: b'.
Proof.
  revert x b. induction stores as [| [i c] r IH]; intros x b.
  - exists b. reflexivity.
  - unfold apply_stores. cbn [fold_left fst snd last_store_at_0].
    destruct i as [| j]; cbn [write_at].
    + destruct (IH c b) as (b' & Hb). unfold apply_stores in Hb. rewrite Hb.
      exists b'. now destruct (last_store_at_0 r).
    + destruct (IH x (match b with [] => [] | _ => write_at j c b end)) as (b' & Hb).
      unfold apply_stores in Hb.
      replace (x :: write_at j c b)
        with (x :: match b with [] => [] | _ => write_at j c b end)
        by (destruct b; [destruct j |]; reflexivity).
      rewrite Hb. exists b'. now destruct (last_store_at_0 r).
Qed.

(** Stores that leave a text in the buffer end, at index 0, with the
    first byte of the text. *)
Lemma stores_of_last_store (l : ascii) (rest : list ascii) (stores : list (nat * ascii)) :
  l <> NUL -> stores_of (l :: rest) stores -> last_store_at_0 stores = Some l.
Proof.
  intros Hl H. specialize (H empty_reason eq_refl).
  change empty_reason with (NUL :: repeat NUL 99) in H.
  destruct (apply_stores_head stores NUL (repeat NUL 99)) as (b' & Hb).
  rewrite Hb in H. cbn [store_bytes write_at] in H. rewrite store_bytes_keeps_head in H.
  injection H as H _. destruct (last_store_at_0 stores); congruence.
Qed.

Lemma interleaved_last_store (l1 l2 l : list (nat * ascii)) :
  interleaved l1 l2 l ->
  (last_store_at_0 l = None -> last_store_at_0 l1 = None /\ last_store_at_0 l2 = None) /\
  (forall c, last_store_at_0 l = Some c ->
     last_store_at_0 l1 = Some c \/ last_store_at_0 l2 = Some c).
Proof.
  induction 1 as [| s l1 l2 l H [IHn IHs] | s l1 l2 l H [IHn IHs]];
    cbn [last_store_at_0].
  - split; [auto | discriminate].
  - destruct (last_store_at_0 l) as [c0 |] eqn:E.
    + split; [discriminate |]. intros c Hc. injection Hc as <-.
      destruct (IHs c0 eq_refl) as [H1 | H2]; [left; now rewrite H1 | now right].
    + destruct (IHn eq_refl) as [H1 H2]. rewrite H1.
      destruct (fst s); split; auto; discriminate.
  - destruct (last_store_at_0 l) as [c0 |] eqn:E.
    + split; [discriminate |]. intros c Hc. injection Hc as <-.
      destruct (IHs c0 eq_refl) as [H1 | H2]; [now left | right; now rewrite H2].
    + destruct (IHn eq_refl) as [H1 H2]. rewrite H2.
      destruct (fst s); split; auto; discriminate.
Qed.

Lemma worker_bytes_first (t : tid) : exists rest, worker_bytes t = "I"%char :: rest.
Proof. destruct t; vm_compute; eauto. Qed.

(** X13.  The reason is never left empty by the threads that write it.
    Once the main thread is past its test of the flag and its [strcpy],
    and no worker thread is between its funds check and its store into
    the flag, the reason starts with the first letter of one of the two
    reasons, whatever the interleaving.  This does not depend on the
    order in which the two library calls store their bytes: for any
    stores that leave in the buffer what [snprintf] leaves, any stores
    that leave what [strcpy] leaves, and any order in which two threads
    can make them, the buffer ends with a string that starts with one of
    the two letters. *)
Theorem reason_is_never_left_empty
  (b1 a1 b2 a2 : float) (period deadline : Z) (sched : list tid) (st : state) :
  run sched (start b1 a1 b2 a2 period deadline) = Some st ->
  after_watchdog (pcm st) = true ->
  writing (pc1 st) = false -> writing (pc2 st) = false ->
  starts_with_G_or_I (c_str (termination_reason (mem st))) /\
  (forall (t : tid) (worker main both : list (nat * ascii)) (buf : list ascii),
     stores_of (worker_bytes t) worker -> stores_of (c_bytes deadline_msg) main ->
     interleaved worker main both -> List.length buf = 100%nat ->
     starts_with_G_or_I (c_str (apply_stores both buf))).
Proof.
  intros Hrun Ha _ _. split.
  - destruct (reachable_stop_inv _ _ _ _ _ _ _ _ Hrun) as (_ & _ & _ & Hm).
    destruct (reachable_first_byte_inv _ _ _ _ _ _ _ _ Hrun) as (_ & _ & _ & _ & _ & _ & Hf).
    assert (Hflag : is_terminated (mem st) <> 0).
    { destruct Hm as [Hm | [Hm | [Hm | Hm]]]; try (rewrite Hm in Ha; discriminate Ha).
      rewrite Hm. discriminate. }
    destruct (Hf Hflag) as [(c & r & Hb & Hc) | (bytes & Hpc)];
      [| rewrite Hpc in Ha; discriminate Ha].
    exists c, (c_str r). rewrite Hb. split; [| exact Hc].
    destruct Hc as [-> | ->]; reflexivity.
  - intros t worker main both buf Hw Hmn Hi Hlen.
    destruct (worker_bytes_first t) as (rest & Hwb). rewrite Hwb in Hw.
    apply stores_of_last_store in Hw; [| discriminate].
    change (c_bytes deadline_msg)
      with ("G"%char :: list_ascii_of_string "lobal deadline expired" ++ [NUL]) in Hmn.
    apply stores_of_last_store in Hmn; [| discriminate].
    destruct (interleaved_last_store _ _ _ Hi) as [Hn Hs].
    destruct buf as [| x b]; [discriminate Hlen |].
    destruct (apply_stores_head both x b) as (b' & Hb). rewrite Hb.
    destruct (last_store_at_0 both) as [c |] eqn:E.
    + exists c, (c_str b').
      assert (Hc : c = "G"%char \/ c = "I"%char)
        by (destruct (Hs c eq_refl) as [H | H]; rewrite H in *; [right | left]; congruence).
      split; [| exact Hc]. destruct Hc as [-> | ->]; reflexivity.
    + destruct (Hn eq_refl) as [H1 _]. congruence.
Qed.

Lemma stores_of_snprintf_backwards : stores_of (worker_bytes T1) snprintf_backwards.
Proof.
  intros buf Hlen.
  do 32 (destruct buf as [| ? buf]; [discriminate Hlen |]).
  reflexivity.
Qed.

Lemma stores_of_strcpy_backwards : stores_of (c_bytes deadline_msg) strcpy_backwards.
Proof.
  intros buf Hlen.
  do 24 (destruct buf as [| ? buf]; [discriminate Hlen |]).
  reflexivity.
Qed.

Lemma interleaved_app_l (l1 l2 : list (nat * ascii)) : interleaved l1 l2 (l1 ++ l2).
Proof.
  induction l1 as [| s l1 IH]; cbn [app].
  - induction l2 as [| s l2 IH]; constructor; assumption.
  - now constructor.
Qed.

Lemma reason_is_never_left_empty_witness :
  exists st,
    run race_schedule (start 0 1 50 40 10 0) = Some st /\
    after_watchdog (pcm st) = true /\
    writing (pc1 st) = false /\ writing (pc2 st) = false /\
    starts_with_G_or_I (c_str (termination_reason (mem st))) /\
    starts_with_G_or_I
      (c_str (apply_stores (strcpy_backwards ++ snprintf_backwards) empty_reason)) /\
    starts_with_G_or_I
      (c_str (apply_stores (snprintf_backwards ++ strcpy_backwards) empty_reason)).
Proof.
  eexists. split; [vm_compute; reflexivity |].
  split; [reflexivity |]. split; [reflexivity |]. split; [reflexivity |].
  pose proof (reason_is_never_left_empty 0 1 50 40 10 0 race_schedule _
                ltac:(vm_compute; reflexivity) eq_refl eq_refl eq_refl) as [HA HB].
  split; [exact HA |]. split.
  - apply (HB T1 snprintf_backwards strcpy_backwards);
      [apply stores_of_snprintf_backwards | apply stores_of_strcpy_backwards | | reflexivity].
    clear. generalize snprintf_backwards strcpy_backwards. intros l1 l2.
    induction l2 as [| s l2 IH]; cbn [app].
    + induction l1 as [| s l1 IH]; constructor; assumption.
    + now constructor.
  - apply (HB T1 snprintf_backwards strcpy_backwards);
      [apply stores_of_snprintf_backwards | apply stores_of_strcpy_backwards
      | apply interleaved_app_l | reflexivity].
Defined.

(** ** The ledger of whole amounts *)

Lemma successes_nonneg (i : Z) (out : list output) : 0 <= successes i out.
Proof. unfold successes. lia. Qed.

Section Ledger.

Variables n1 k1 n2 k2 : Z.
Hypothesis Hn1 : 0 <= n1.
Hypothesis Hn2 : 0 <= n2.
Hypothesis Hsum : n1 + n2 < 2 ^ 53.
Hypothesis Hk1 : 0 <= k1 < 2 ^ 53.
Hypothesis Hk2 : 0 <= k2 < 2 ^ 53.

Lemma ledger_inv_step (t : tid) (st st' : state) :
  lock_inv st -> ledger_inv n1 k1 n2 k2 st -> step t st = Some st' ->
  ledger_inv n1 k1 n2 k2 st'.
Proof.
  intros Hl (I1 & I2 & A1 & A2 & P1 & P2 & B1 & B2 & D1 & D2) Hstep.
  destruct (critical_owns_both st Hl) as (_ & _ & Hx).
  assert (Hz1 : in_critical (pc1 st) = true ->
                debited (pc2 st) = 0 /\ credited (pc2 st) = 0 /\ pc2 st <> PDebit).
  { intros Hc. rewrite Hc in Hx.
    destruct (pc2 st); try discriminate Hx; repeat split; auto; discriminate. }
  assert (Hz2 : in_critical (pc2 st) = true ->
                debited (pc1 st) = 0 /\ credited (pc1 st) = 0 /\ pc1 st <> PDebit).
  { intros Hc. rewrite Hc, andb_true_r in Hx.
    destruct (pc1 st); try discriminate Hx; repeat split; auto; discriminate. }
  unfold ledger_inv, ledger1, ledger2 in *.
  pose proof (successes_nonneg 1 (stdout (mem st))) as S1.
  pose proof (successes_nonneg 2 (stdout (mem st))) as S2.
  by_thread Hstep; cbn [mem pc1 pc2 pcm].
  - destruct (pc1 st) eqn:P; cbn [in_critical andb debited credited] in *;
      split_actor E; injection E as <- <- <-;
      cbn [debited credited];
      cbn [id transfer_amount balance account1 account2 stdout deref source_of dest_of
           store set_mutex set_balance set_successful_transfers log_lock
           set_termination_reason set_is_terminated debit credit count_transfer
           log_success print];
      rewrite ?successes_app, ?I1, ?I2;
      change (successes 1 [OutSuccess 1 2 _ 1 _]) with 1;
      change (successes 2 [OutSuccess 1 2 _ 1 _]) with 0.
    all: try (repeat split; auto; try discriminate; try lia; fail).
    + destruct (Hz1 eq_refl) as (Z1 & Z2 & Z3). rewrite Z1, Z2 in *.
      cbn [deref source_of] in Heqb. rewrite B1, A1 in Heqb.
      apply ltb_whole_false in Heqb; [| lia | lia].
      repeat split; auto; try lia; intros; contradiction.
    + destruct (Hz1 eq_refl) as (Z1 & Z2 & Z3). rewrite Z1, Z2 in *.
      specialize (D1 eq_refl).
      repeat split; auto; try discriminate; try lia; try (intros; contradiction);
        try (rewrite B1; f_equal; lia); try (rewrite B2; f_equal; lia).
      rewrite B1, A1, sub_whole by lia. f_equal. lia.
    + destruct (Hz1 eq_refl) as (Z1 & Z2 & Z3). rewrite Z1, Z2 in *.
      repeat split; auto; try discriminate; try lia; try (intros; contradiction);
        try (rewrite B1; f_equal; lia); try (rewrite B2; f_equal; lia).
      rewrite B2, A1, add_whole by lia. f_equal. lia.
    + destruct (Hz1 eq_refl) as (Z1 & Z2 & Z3). rewrite Z1, Z2 in *.
      repeat split; auto; try discriminate; try lia; try (intros; contradiction);
        try (rewrite B1; f_equal; lia); try (rewrite B2; f_equal; lia).
  - destruct (pc2 st) eqn:P; cbn [in_critical andb debited credited] in *;
      split_actor E; injection E as <- <- <-;
      cbn [debited credited];
      cbn [id transfer_amount balance account1 account2 stdout deref source_of dest_of
           store set_mutex set_balance set_successful_transfers log_lock
           set_termination_reason set_is_terminated debit credit count_transfer
           log_success print];
      rewrite ?successes_app, ?I1, ?I2;
      change (successes 1 [OutSuccess 2 1 _ 2 _]) with 0;
      change (successes 2 [OutSuccess 2 1 _ 2 _]) with 1.
    all: try (repeat split; auto; try discriminate; try lia; fail).
    + destruct (Hz2 eq_refl) as (Z1 & Z2 & Z3). rewrite Z1, Z2 in *.
      cbn [deref source_of] in Heqb. rewrite B2, A2 in Heqb.
      apply ltb_whole_false in Heqb; [| lia | lia].
      repeat split; auto; try lia; intros; contradiction.
    + destruct (Hz2 eq_refl) as (Z1 & Z2 & Z3). rewrite Z1, Z2 in *.
      specialize (D2 eq_refl).
      repeat split; auto; try discriminate; try lia; try (intros; contradiction);
        try (rewrite B1; f_equal; lia); try (rewrite B2; f_equal; lia).
      rewrite B2, A2, sub_whole by lia. f_equal. lia.
    + destruct (Hz2 eq_refl) as (Z1 & Z2 & Z3). rewrite Z1, Z2 in *.
      repeat split; auto; try discriminate; try lia; try (intros; contradiction);
        try (rewrite B1; f_equal; lia); try (rewrite B2; f_equal; lia).
      rewrite B1, A2, add_whole by lia. f_equal. lia.
    + destruct (Hz2 eq_refl) as (Z1 & Z2 & Z3). rewrite Z1, Z2 in *.
      repeat split; auto; try discriminate; try lia; try (intros; contradiction);
        try (rewrite B1; f_equal; lia); try (rewrite B2; f_equal; lia).
  - destruct (pcm st) eqn:P; split_main E; injection E as <- <-;
      cbn [id transfer_amount balance account1 account2 stdout
           set_termination_reason set_is_terminated print];
      rewrite ?successes_app;
      change (successes 1 [OutFinal _ _ _ _ _]) with 0;
      change (successes 2 [OutFinal _ _ _ _ _]) with 0;
      rewrite ?Z.add_0_r;
      repeat split; auto.
Qed.

End Ledger.

(** X14.  With whole amounts, the balances are what the SUCCESS lines
    account for: whenever no thread is between its debit and its
    [printf], the balance of each account is its initial balance, minus
    its transfer amount for every SUCCESS line that names it as the
    source, plus the other amount for every line that names the other
    account; and neither balance is ever overdrawn. *)
Theorem balances_match_success_lines
  (n1 k1 n2 k2 period deadline : Z) (sched : list tid) (st : state) :
  0 <= n1 -> 0 <= n2 -> n1 + n2 < 2 ^ 53 -> 0 <= k1 < 2 ^ 53 -> 0 <= k2 < 2 ^ 53 ->
  run sched (start (of_whole n1) (of_whole k1) (of_whole n2) (of_whole k2) period deadline)
    = Some st ->
  debited (pc1 st) = 0 -> debited (pc2 st) = 0 ->
  let s1 := successes 1 (stdout (mem st)) in
  let s2 := successes 2 (stdout (mem st)) in
  0 <= n1 - k1 * s1 + k2 * s2 /\
  0 <= n2 + k1 * s1 - k2 * s2 /\
  balance (account1 (mem st)) = of_whole (n1 - k1 * s1 + k2 * s2) /\
  balance (account2 (mem st)) = of_whole (n2 + k1 * s1 - k2 * s2).
Proof.
  intros Hn1 Hn2 Hsum Hk1 Hk2 Hrun Hd1 Hd2 s1 s2.
  assert (H : lock_inv st /\ ledger_inv n1 k1 n2 k2 st).
  { revert Hrun.
    apply (run_invariant (fun s => lock_inv s /\ ledger_inv n1 k1 n2 k2 s)).
    - intros t s s' [Hl Hi] Hstep. split.
      + eapply lock_inv_step; eassumption.
      + eapply ledger_inv_step; eassumption.
    - split; [apply lock_inv_start; split; reflexivity |].
      unfold ledger_inv, ledger1, ledger2. cbn.
      repeat split; auto; try discriminate; try lia; do 2 f_equal; lia. }
  destruct H as (_ & _ & _ & _ & _ & P1 & P2 & B1 & B2 & _).
  unfold ledger1, ledger2 in *. fold s1 s2 in P1, P2, B1, B2.
  assert (C1 : credited (pc1 st) = 0) by (destruct (pc1 st); auto; discriminate Hd1).
  assert (C2 : credited (pc2 st) = 0) by (destruct (pc2 st); auto; discriminate Hd2).
  rewrite Hd1, Hd2, C1, C2, !Z.add_0_r in *. auto.
Qed.

Lemma balances_match_success_lines_witness :
  exists st,
    run (repeat T1 13 ++ repeat T2 13 ++ repeat T1 13) (start 100 30 50 40 10 5) = Some st /\
    successes 1 (stdout (mem st)) = 2 /\ successes 2 (stdout (mem st)) = 1 /\
    balance (account1 (mem st)) = of_whole (100 - 30 * 2 + 40 * 1) /\
    balance (account2 (mem st)) = of_whole (50 + 30 * 2 - 40 * 1).
Proof.
  eexists. split; [vm_compute; reflexivity |].
  split; [reflexivity |]. split; [reflexivity |].
  refine (proj2 (proj2 (balances_match_success_lines 100 30 50 40 10 5
                   (repeat T1 13 ++ repeat T2 13 ++ repeat T1 13) _
                   _ _ _ _ _ _ _ _))); try lia; vm_compute; reflexivity.
Defined.

(** ** The pair of mutexes, taken and released *)

(** X15.  [unlock_pair] undoes [lock_pair]: called on the two distinct
    mutexes while both are free, [lock_pair] returns, and [unlock_pair]
    on the same arguments leaves every global as it was before; only the
    record of the acquisitions has grown, by Account 1's mutex and then
    Account 2's. *)
Theorem unlock_pair_undoes_lock_pair (t : tid) (m1 m2 : mutex_ptr) (g : globals) :
  m1 <> m2 -> both_free g ->
  exists g1,
    lock_pair t m1 m2 g = Some g1 /\
    unlock_pair t m1 m2 g1 = logged t g.
Proof.
  intros Hne [F1 F2].
  unfold lock_pair, unlock_pair, pthread_mutex_lock, pthread_mutex_unlock, logged.
  destruct g as [[b1 x1 c1 o1 i1] [b2 x2 c2 o2 i2] f r p d out lg].
  cbn in F1, F2. subst o1 o2.
  destruct m1, m2; try congruence; destruct t; cbn;
    eexists; (split; [reflexivity |]); cbn; rewrite <- app_assoc; reflexivity.
Qed.

Lemma unlock_pair_undoes_lock_pair_witness :
  exists g1,
    lock_pair T2 Account2 Account1 (init_globals 100 30 50 40 10 5) = Some g1 /\
    unlock_pair T2 Account2 Account1 g1 = logged T2 (init_globals 100 30 50 40 10 5).
Proof.
  apply (unlock_pair_undoes_lock_pair T2 Account2 Account1 (init_globals 100 30 50 40 10 5)).
  - discriminate.
  - split; reflexivity.
Defined.

(** X16.  The order in which [unlock_pair] releases the two mutexes
    makes no difference: when the caller holds both, swapping the
    arguments gives the same globals, in which neither mutex is held. *)
Theorem unlock_pair_order_is_irrelevant (t : tid) (m1 m2 : mutex_ptr) (g : globals) :
  mutex (deref m1 g) = Some t -> mutex (deref m2 g) = Some t ->
  unlock_pair t m1 m2 g = unlock_pair t m2 m1 g /\
  mutex (deref m1 (unlock_pair t m1 m2 g)) = None /\
  mutex (deref m2 (unlock_pair t m1 m2 g)) = None.
Proof.
  intros H1 H2. unfold unlock_pair, pthread_mutex_unlock.
  destruct g as [[b1 x1 c1 o1 i1] [b2 x2 c2 o2 i2] f r p d out lg].
  destruct m1, m2; cbn in H1, H2; subst; cbn;
    rewrite ?tid_eqb_refl; cbn; rewrite ?tid_eqb_refl; cbn; repeat split.
Qed.

Lemma unlock_pair_order_is_irrelevant_witness :
  unlock_pair T1 Account1 Account2
    (mkGlobals (mkAccount 70 30 1 (Some T1) 1) (mkAccount 80 40 0 (Some T1) 2)
       0 (repeat NUL 100) 10 5 [] [])
  = unlock_pair T1 Account2 Account1
      (mkGlobals (mkAccount 70 30 1 (Some T1) 1) (mkAccount 80 40 0 (Some T1) 2)
         0 (repeat NUL 100) 10 5 [] []).
Proof.
  refine (proj1 (unlock_pair_order_is_irrelevant T1 Account1 Account2
                   (mkGlobals (mkAccount 70 30 1 (Some T1) 1) (mkAccount 80 40 0 (Some T1) 2)
                      0 (repeat NUL 100) 10 5 [] []) _ _)); reflexivity.
Defined.

(** ** How many transfers a balance pays for *)

Lemma SFltb_true_aligned (m m' : positive) (e e' : Z) :
  bounded prec emax m e = true -> bounded prec emax m' e' = true ->
  SFltb (S754_finite false m e) (S754_finite false m' e') = true ->
  (Z.pos (fst (shl_align m e (Z.min e e'))) <
   Z.pos (fst (shl_align m' e' (Z.min e e'))))%Z.
Proof.
  intros Hb Hb' Hlt. unfold SFltb, SFcompare in Hlt.
  rewrite !shl_align_fst by lia.
  destruct (Z.compare_spec e e') as [-> | He | He]; try discriminate Hlt.
  - rewrite Z.min_id, Z.sub_diag. simpl.
    destruct (Pos.compare_cont Eq m m') eqn:E; try discriminate Hlt.
    change (Pos.compare m m' = Lt) in E. rewrite !Pos.mul_1_r. exact E.
  - rewrite Z.min_l by lia. rewrite Z.sub_diag. simpl (2 ^ 0)%Z.
    pose proof (larger_exponent_larger_value m' m e' e Hb' Hb He). lia.
Qed.

Lemma SFltb_whole_true (a b : Z) :
  0 <= a < 2 ^ 53 -> 0 <= b < 2 ^ 53 ->
  SFltb (SFwhole a) (SFwhole b) = true -> a < b.
Proof.
  intros Ha Hb H.
  destruct a as [| p | p]; destruct b as [| q | q]; try lia; try discriminate H.
  pose proof (digits_below_2_53 p ltac:(lia)) as Hp.
  pose proof (digits_below_2_53 q ltac:(lia)) as Hq.
  pose proof (SFltb_true_aligned _ _ _ _ (whole_bounded p Hp) (whole_bounded q Hq) H) as Hal.
  set (k := - Z.min (whole_exponent p) (whole_exponent q)) in *.
  assert (Hk : Z.min (whole_exponent p) (whole_exponent q) = - k) by (unfold k; lia).
  rewrite Hk in Hal.
  rewrite !whole_aligned in Hal by (unfold k, whole_exponent; lia).
  assert (H2 : 0 < 2 ^ k) by (apply Z.pow_pos_nonneg; unfold k, whole_exponent; lia).
  nia.
Qed.

(** Whole amounts compare as the integers they are. *)
Lemma ltb_whole (a b : Z) :
  0 <= a < 2 ^ 53 -> 0 <= b < 2 ^ 53 ->
  (of_whole a <? of_whole b)%float = (a <? b).
Proof.
  intros Ha Hb. destruct (of_whole a <? of_whole b)%float eqn:H.
  - rewrite FloatAxioms.ltb_spec, !Prim2SF_of_whole in H by lia.
    apply SFltb_whole_true in H; lia.
  - apply ltb_whole_false in H; lia.
Qed.

Lemma apply_ops_snoc (o : op) (m : nat) (g : globals) :
  apply_ops (repeat o (S m)) g = apply_op o (apply_ops (repeat o m) g).
Proof.
  unfold apply_ops. cbn [repeat]. rewrite repeat_cons, fold_left_app. reflexivity.
Qed.

Lemma wf_logged (t : tid) (g : globals) : wf g -> wf (logged t g).
Proof. intros [H1 H2 Hb Hc1 Hc2]. constructor; assumption. Qed.

Section OneDirection.

Variables n k n2 : Z.
Hypothesis Hn : 0 <= n.
Hypothesis Hn2 : 0 <= n2.
Hypothesis Hsum : n + n2 < 2 ^ 53.
Hypothesis Hk : 0 < k < 2 ^ 53.

Lemma after_transfers_step (m : Z) (g : globals) :
  0 <= m ->
  after_transfers n k n2 (Z.min m (n / k)) (if m <=? n / k then 0 else 1) g ->
  after_transfers n k n2 (Z.min (m + 1) (n / k)) (if m + 1 <=? n / k then 0 else 1)
    (apply_op Transfer12 g).
Proof.
  intros Hm (Hwf & Hfree & A & C & B1 & B2 & F & R).
  pose proof (Z.mul_div_le n k ltac:(lia)) as Hq.
  pose proof (Z.mod_pos_bound n k ltac:(lia)) as Hr.
  pose proof (Z.div_mod n k ltac:(lia)) as Hdm.
  assert (Hq0 : 0 <= n / k) by (apply Z.div_pos; lia).
  assert (Hqn : n / k <= n) by (apply Z.div_le_upper_bound; nia).
  cbn [apply_op].
  rewrite (transfer_funds_returns T1 Account1 Account2 g ltac:(discriminate) Hfree).
  pose proof (transfer_effect_free T1 Account1 Account2 g Hfree) as Hfree'.
  assert (Hwf' : wf (snd (transfer_effect T1 Account1 Account2 g))).
  { pose proof (wf_apply_ops [Transfer12] g Hwf) as H. cbn in H.
    now rewrite (transfer_funds_returns T1 Account1 Account2 g ltac:(discriminate) Hfree) in H. }
  split; [exact Hwf' |]. split; [exact Hfree' |]. clear Hwf' Hfree'.
  destruct (Z.leb_spec m (n / k)) as [Hle | Hgt].
  - (* the flag is clear *)
    rewrite Z.min_l in C, B1, B2 by lia.
    assert (Hcheck : (balance (deref Account1 g) <? transfer_amount (deref Account1 g))%float
                     = (n - k * m <? k))
      by (cbn [deref]; rewrite B1, A; apply ltb_whole; nia).
    unfold transfer_effect. rewrite F, Hcheck. cbn [Z.eqb negb].
    destruct (Z.ltb_spec (n - k * m) k) as [Hlt | Hge].
    + (* the funds are short: this was call number n / k + 1 *)
      assert (Hmq : m = n / k) by nia.
      rewrite Z.min_r by lia.
      destruct (Z.leb_spec (m + 1) (n / k)); [lia |].
      rewrite <- Hmq.
      split; [exact A |]. split; [exact C |]. split; [exact B1 |]. split; [exact B2 |].
      split; [reflexivity |]. intros _.
      change (c_str (termination_reason (snprintf_reason Account1 (logged T1 g)))
              = insufficient_funds_msg 1).
      rewrite snprintf_reason_reads_back by (apply wf_logged; exact Hwf).
      destruct Hwf as [I1 _ _ _ _]. cbn [deref logged account1]. now rewrite I1.
    + (* the transfer is made *)
      assert (m + 1 <= n / k) by nia.
      rewrite Z.min_l by lia.
      destruct (Z.leb_spec (m + 1) (n / k)); [| lia].
      cbn -[of_whole long_wrap Z.mul Z.add Z.sub]. rewrite A, B1, B2, C.
      repeat split; auto; try discriminate.
      * apply long_wrap_id. unfold in_long, LONG_MIN, LONG_MAX. lia.
      * rewrite sub_whole by nia. f_equal. lia.
      * rewrite add_whole by nia. f_equal. lia.
  - (* the flag is set: nothing changes *)
    rewrite Z.min_r in C, B1, B2 by lia.
    unfold transfer_effect. rewrite F. cbn [Z.eqb negb].
    rewrite Z.min_r by lia.
    destruct (Z.leb_spec (m + 1) (n / k)); [lia |].
    cbn -[of_whole]. repeat split; auto.
Qed.

End OneDirection.

(** X17.  A balance pays for the quotient many transfers.  With whole
    amounts, a positive transfer amount [k] and nothing else going on,
    of [m] calls of [transfer_funds] from Account 1, which holds [n], to
    Account 2 the first [n / k] succeed and move [k] each; the next sets
    the flag and records the insufficient funds of Account 1; the later
    ones change nothing. *)
Theorem balance_pays_for_quotient_many_transfers
  (n k n2 : Z) (a2 : float) (period deadline : Z) (m : nat) :
  0 <= n -> 0 <= n2 -> n + n2 < 2 ^ 53 -> 0 < k < 2 ^ 53 ->
  let g := apply_ops (repeat Transfer12 m)
             (init_globals (of_whole n) (of_whole k) (of_whole n2) a2 period deadline) in
  let j := Z.min (Z.of_nat m) (n / k) in
  successful_transfers (account1 g) = j /\
  balance (account1 g) = of_whole (n - k * j) /\
  balance (account2 g) = of_whole (n2 + k * j) /\
  is_terminated g = (if Z.of_nat m <=? n / k then 0 else 1) /\
  (n / k < Z.of_nat m -> c_str (termination_reason g) = insufficient_funds_msg 1).
Proof.
  intros Hn Hn2 Hsum Hk g j.
  assert (Hq0 : 0 <= n / k) by (apply Z.div_pos; lia).
  assert (H : after_transfers n k n2 j (if Z.of_nat m <=? n / k then 0 else 1) g).
  { subst g j. induction m as [| m IH].
    - cbn [repeat apply_ops fold_left Z.of_nat].
      destruct (Z.leb_spec 0 (n / k)); [| lia]. rewrite Z.min_l by lia.
      split; [apply wf_init |]. split; [split; reflexivity |].
      cbn -[of_whole]. repeat split; auto; try (do 2 f_equal; lia); try (f_equal; lia).
    - rewrite apply_ops_snoc. rewrite Nat2Z.inj_succ, <- Z.add_1_r.
      apply after_transfers_step; auto; lia. }
  destruct H as (_ & _ & _ & C & B1 & B2 & F & R).
  split; [exact C |]. split; [exact B1 |]. split; [exact B2 |]. split; [exact F |].
  intros Hlt. apply R. destruct (Z.leb_spec (Z.of_nat m) (n / k)); [lia | discriminate].
Qed.

Lemma balance_pays_for_quotient_many_transfers_witness :
  let g := apply_ops (repeat Transfer12 5) (init_globals 100 30 50 40 10 5) in
  successful_transfers (account1 g) = 3 /\
  balance (account1 g) = 10%float /\
  balance (account2 g) = 140%float /\
  is_terminated g = 1.
Proof.
  pose proof (balance_pays_for_quotient_many_transfers 100 30 50 40 10 5 5
                ltac:(lia) ltac:(lia) ltac:(lia) ltac:(lia)) as H.
  destruct H as (C & B1 & B2 & F & _).
  repeat split; assumption.
Defined.

(** ** A call that no other thread interleaves with *)

Lemma run_alone (t : tid) (n : nat) (st : state) (pc' : actor_pc) (g' : globals) :
  t = T1 \/ t = T2 ->
  actor_steps t n (pc_of t st) (mem st) = Some (pc', g') ->
  exists st',
    run (repeat t n) st = Some st' /\ pc_of t st' = pc' /\ mem st' = g' /\
    pc_of (other t) st' = pc_of (other t) st /\ pcm st' = pcm st.
Proof.
  intros Ht. revert st. induction n as [| n IH]; intros st H.
  - cbn in H. injection H as <- <-. exists st. repeat split.
  - cbn [actor_steps] in H.
    destruct (actor_step t (pc_of t st) (mem st)) as [[[pc1' g1] evs] |] eqn:E;
      [| discriminate].
    assert (Hs : exists st1, step t st = Some st1 /\ pc_of t st1 = pc1' /\ mem st1 = g1 /\
                   pc_of (other t) st1 = pc_of (other t) st /\ pcm st1 = pcm st).
    { unfold step, thread_transfer_1_to_2, thread_transfer_2_to_1.
      destruct Ht as [-> | ->]; cbn [pc_of other] in *; rewrite E;
        eexists; repeat split. }
    destruct Hs as (st1 & Hstep & Hp & Hg & Ho & Hm).
    rewrite <- Hp, <- Hg in H. destruct (IH st1 H) as (st' & Hrun & Hp' & Hg' & Ho' & Hm').
    exists st'. cbn [repeat run]. rewrite Hstep.
    repeat split; auto; congruence.
Qed.

(** X18.  A call of [transfer_funds] that no other thread interleaves
    with does, statement by statement, what the function does as a whole:
    when a worker thread is at the first [pthread_mutex_lock] of its call
    and the call as a whole would return [r] and leave the globals [g'],
    that thread run alone reaches the return of its call with [r] and
    [g'], and the other threads have not moved. *)
Theorem call_run_alone_is_transfer_funds
  (t : tid) (st : state) (r : Z) (g' : globals) :
  t = T1 \/ t = T2 ->
  pc_of t st = PLockFirst ->
  transfer_funds t (source_of t) (dest_of t) (mem st) = Some (r, g') ->
  exists n st',
    run (repeat t n) st = Some st' /\
    pc_of t st' = PReturn r /\ mem st' = g' /\
    pc_of (other t) st' = pc_of (other t) st /\ pcm st' = pcm st.
Proof.
  intros Ht Hpc Hcall.
  destruct (uninterrupted_call t (mem st) r g' Hcall) as (n & Hn).
  rewrite <- Hpc in Hn. exists n. now apply run_alone.
Qed.

Lemma call_run_alone_is_transfer_funds_witness :
  exists st n st',
    run [T2] (start 100 30 50 40 10 5) = Some st /\
    run (repeat T2 n) st = Some st' /\
    pc_of T2 st' = PReturn 0 /\
    balance (account2 (mem st')) = 10%float /\ balance (account1 (mem st')) = 140%float.
Proof.
  eexists.
  destruct (call_run_alone_is_transfer_funds T2
              (mkState (init_globals 100 30 50 40 10 5) PLoop PLockFirst MSleep [] [EvPoll 0])
              0 (snd (transfer_effect T2 Account2 Account1 (init_globals 100 30 50 40 10 5)))
              (or_intror eq_refl) eq_refl eq_refl)
    as (n & st' & Hrun & Hp & Hg & _).
  exists n, st'. split; [reflexivity |]. split; [exact Hrun |]. split; [exact Hp |].
  rewrite Hg. split; reflexivity.
Defined.

(** ** The lines of the output *)

Lemma lines_step (a1 a2 : float) (t : tid) (st st' : state) :
  id (account1 (mem st)) = 1 -> id (account2 (mem st)) = 2 ->
  transfer_amount (account1 (mem st)) = a1 -> transfer_amount (account2 (mem st)) = a2 ->
  Forall (line_ok a1 a2) (stdout (mem st)) -> step t st = Some st' ->
  Forall (line_ok a1 a2) (stdout (mem st')).
Proof.
  intros I1 I2 A1 A2 Hf Hstep. by_thread Hstep; cbn [mem].
  - destruct (pc1 st) eqn:P; split_actor E; injection E as <- <- <-; try exact Hf.
    cbn. apply Forall_app. split; [exact Hf |]. constructor; [| constructor].
    cbn. left. auto.
  - destruct (pc2 st) eqn:P; split_actor E; injection E as <- <- <-; try exact Hf.
    cbn. apply Forall_app. split; [exact Hf |]. constructor; [| constructor].
    cbn. right. auto.
  - destruct (pcm st) eqn:P; split_main E; injection E as <- <-; try exact Hf.
    cbn. apply Forall_app. split; [exact Hf |]. constructor; [exact I | constructor].
Qed.

(** X19.  Every SUCCESS line of the output, in whatever order the
    threads printed them, is a line of one of the two directions: from
    Account 1 to Account 2 with the transfer amount of Account 1 and a
    balance labelled 1, or from Account 2 to Account 1 with the transfer
    amount of Account 2 and a balance labelled 2. *)
Theorem success_lines_name_their_direction
  (b1 a1 b2 a2 : float) (period deadline : Z) (sched : list tid) (st : state) :
  run sched (start b1 a1 b2 a2 period deadline) = Some st ->
  Forall (line_ok a1 a2) (stdout (mem st)).
Proof.
  intros Hrun.
  assert (H : same_config (init_globals b1 a1 b2 a2 period deadline) (mem st) /\
              Forall (line_ok a1 a2) (stdout (mem st))).
  { revert Hrun.
    apply (run_invariant (fun s =>
             same_config (init_globals b1 a1 b2 a2 period deadline) (mem s) /\
             Forall (line_ok a1 a2) (stdout (mem s)))).
    - intros t s s' [Hc Hf] Hstep. split; [eapply same_config_step; eassumption |].
      destruct Hc as (I1 & I2 & A1 & A2 & _).
      eapply lines_step; eassumption.
    - split; [repeat split | constructor]. }
  apply H.
Qed.

Lemma success_lines_name_their_direction_witness :
  exists st,
    run (repeat T1 13 ++ repeat T2 13 ++ repeat T1 13) (start 100 30 50 40 10 5) = Some st /\
    List.length (stdout (mem st)) = 3%nat /\
    Forall (line_ok 30 40) (stdout (mem st)).
Proof.
  eexists. split; [vm_compute; reflexivity |]. split; [reflexivity |].
  refine (success_lines_name_their_direction 100 30 50 40 10 5
            (repeat T1 13 ++ repeat T2 13 ++ repeat T1 13) _ _).
  vm_compute. reflexivity.
Defined.
